(** * Party server (server.js): a shallow embedding and its properties

    The relay keeps two maps, [parties] (join code to party) and [clients]
    (socket to player object), and one counter, [nextId].  Every handler is
    a synchronous function of the current maps and of the parsed message; it
    is modelled here as a function from a [World] to an [Outcome] carrying
    how the handler ended, the next world and the calls of [send(ws, obj)]
    it made, in order.  [send] passes the object on to the socket only when
    the socket is open; [wire] gives the frames that get through.

    JavaScript values are modelled as far as the handlers inspect them:
    JSON values with [undefined], the coercions [ToBoolean], [ToNumber] and
    [ToString] with the [TypeError] the last two throw on an object that
    has an own property [toString], strings as sequences of UTF-16 code
    units and numbers as binary64 values.  What the engine supplies and
    the source only calls ([Math.random], [toUpperCase], the rendering of
    a number) is the class [Host].

    The log lines are modelled as far as they bear on the handlers: the
    template literal of a line that renders a name is evaluated, because
    it can throw between two updates of the maps; what [console.log]
    prints is not.  Of the HTTP endpoint the body of the response is
    modelled ([Status.health]).  The text [JSON.stringify] makes of an
    object, the transport and the heartbeat are not modelled. *)

From Stdlib Require Import ZArith NArith List Ascii String Lia.
From Stdlib Require Import Floats.SpecFloat.
From Stdlib Require Import DecimalString DecimalN DecimalPos.
From stdpp Require Import base gmap list fin_maps.

Local Open Scope Z_scope.
Set Warnings "-register-all".

(** ** Strings *)

Module JsString.

(** A JavaScript string is a sequence of UTF-16 code units. *)
Definition code_unit := N.
Definition jsstring := list code_unit.

(** The string written by an ASCII literal of the source. *)
Definition lit (s : string) : jsstring :=
  List.map N_of_ascii (list_ascii_of_string s).

(** [s.slice(0, n)] for [0 <= n]: the first [n] code units. *)
Definition slice0 (n : nat) (s : jsstring) : jsstring := take n s.

(** WhiteSpace and LineTerminator code points of ECMA-262, the characters
    removed by [trim] and skipped around a numeric literal. *)
Definition is_space (c : code_unit) : bool :=
  ((c =? 9) || (c =? 10) || (c =? 11) || (c =? 12) || (c =? 13) || (c =? 32)
   || (c =? 160) || (c =? 5760) || ((8192 <=? c) && (c <=? 8202))
   || (c =? 8232) || (c =? 8233) || (c =? 8239) || (c =? 8287)
   || (c =? 12288) || (c =? 65279))%N.

Fixpoint trimStart (s : jsstring) : jsstring :=
  match s with
  | c :: s' => if is_space c then trimStart s' else s
  | [] => []
  end.

Definition trimEnd (s : jsstring) : jsstring := rev (trimStart (rev s)).

(** [s.trim()] *)
Definition trim (s : jsstring) : jsstring := trimEnd (trimStart s).

(** [String(n)] for an integral number [0 <= n < 1e21]: its decimal
    digits. *)
Definition of_integer (n : Z) : jsstring :=
  lit (NilEmpty.string_of_uint (N.to_uint (Z.to_N n))).

Fixpoint join (sep : jsstring) (l : list jsstring) : jsstring :=
  match l with
  | [] => []
  | [s] => s
  | s :: l' => s ++ sep ++ join sep l'
  end.

End JsString.
Import JsString.

(** ** Numbers *)

Module JsNumber.

(** Number values are IEEE 754 binary64. *)
Definition number := spec_float.
Definition prec : Z := 53.
Definition emax : Z := 1024.

Definition NaN : number := S754_nan.
Definition of_Z (z : Z) : number := binary_normalize prec emax z 0 false.
Definition zero : number := S754_zero false.
Definition one : number := of_Z 1.

(** ToBoolean on numbers: false for +0, -0 and NaN. *)
Definition truthy (x : number) : bool :=
  match x with
  | S754_zero _ | S754_nan => false
  | _ => true
  end.

(** The binary64 value nearest to [m * 10^e] (ties to even), [0 < m].
    For a negative exponent the quotient is computed with at least two
    bits more than the format keeps, the lowest one recording whether the
    division left a remainder. *)
Definition round_decimal (neg : bool) (m : positive) (e : Z) : number :=
  let r :=
    if 0 <=? e then binary_normalize prec emax (Zpos m * 10 ^ e) 0 false
    else
      let d := 10 ^ (- e) in
      let t := Z.max 0 (prec + 3 + Z.log2_up d - Z.log2 (Zpos m)) in
      let n := Zpos m * 2 ^ t in
      let q := n / d in
      let sticky := if n mod d =? 0 then 0 else 1 in
      binary_normalize prec emax (2 * q + sticky) (- (t + 1)) false in
  if neg then SFopp r else r.

Definition of_decimal (neg : bool) (m : N) (e : Z) : number :=
  match m with
  | N0 => S754_zero neg
  | Npos p => round_decimal neg p e
  end.

Definition digit_val (c : code_unit) : option N :=
  if ((48 <=? c) && (c <=? 57))%N then Some (c - 48)%N else None.

Definition hex_val (c : code_unit) : option N :=
  if ((48 <=? c) && (c <=? 57))%N then Some (c - 48)%N
  else if ((97 <=? c) && (c <=? 102))%N then Some (c - 87)%N
  else if ((65 <=? c) && (c <=? 70))%N then Some (c - 55)%N
  else None.

(** Reads a maximal run of decimal digits: the value read so far, the
    number of digits read, and the rest of the input. *)
Fixpoint digits (acc : N) (cnt : nat) (s : jsstring) : N * nat * jsstring :=
  match s with
  | c :: s' =>
      match digit_val c with
      | Some d => digits (10 * acc + d)%N (S cnt) s'
      | None => (acc, cnt, s)
      end
  | [] => (acc, cnt, [])
  end.

(** A whole string of digits in base [b]; [None] when empty or when a
    character is not a digit of that base. *)
Fixpoint radix_digits (b : N) (acc : N) (s : jsstring) : option N :=
  match s with
  | [] => Some acc
  | c :: s' =>
      match hex_val c with
      | Some d => if (d <? b)%N then radix_digits b (b * acc + d)%N s' else None
      | None => None
      end
  end.

(** ExponentPart opt, then end of input. *)
Definition exponent_part (s : jsstring) : option Z :=
  match s with
  | [] => Some 0
  | c :: s' =>
      if ((c =? 101) || (c =? 69))%N then
        let '(neg, s'') :=
          match s' with
          | c' :: t => if (c' =? 45)%N then (true, t)
                       else if (c' =? 43)%N then (false, t) else (false, s')
          | [] => (false, s')
          end in
        match digits 0 0 s'' with
        | (_, O, _) => None
        | (v, _, []) => Some (if neg : bool then - Z.of_N v else Z.of_N v)
        | _ => None
        end
      else None
  end.

(** StrUnsignedDecimalLiteral *)
Definition unsigned_decimal (neg : bool) (s : jsstring) : number :=
  if decide (s = lit "Infinity") then S754_infinity neg
  else
    let '(ip, ni, s1) := digits 0 0 s in
    let '(fp, nf, s2) :=
      match s1 with
      | c :: t => if (c =? 46)%N then
                    let '(v, n, r) := digits ip 0 t in (v, Some n, r)
                  else (ip, None, s1)
      | [] => (ip, None, s1)
      end in
    let frac := match nf with Some n => n | None => O end in
    if ((ni + frac)%nat =? 0)%nat then NaN
    else
      match exponent_part s2 with
      | Some e => of_decimal neg fp (e - Z.of_nat frac)
      | None => NaN
      end.

(** StrNumericLiteral, the input already trimmed and not empty. *)
Definition numeric_literal (s : jsstring) : number :=
  match s with
  | 48%N :: p :: t =>
      let radix :=
        if ((p =? 120) || (p =? 88))%N then Some 16%N
        else if ((p =? 111) || (p =? 79))%N then Some 8%N
        else if ((p =? 98) || (p =? 66))%N then Some 2%N
        else None in
      match radix with
      | Some b =>
          match t with
          | [] => NaN
          | _ => match radix_digits b 0 t with
                 | Some v => of_Z (Z.of_N v)
                 | None => NaN
                 end
          end
      | None => unsigned_decimal false s
      end
  | 43%N :: t => unsigned_decimal false t
  | 45%N :: t => unsigned_decimal true t
  | _ => unsigned_decimal false s
  end.

(** StringToNumber *)
Definition StringToNumber (s : jsstring) : number :=
  match trim s with
  | [] => zero
  | t => numeric_literal t
  end.

End JsNumber.
Import JsNumber.

(** ** JSON values and the coercions the handlers apply to them *)

(** What [JSON.parse] returns, with [undefined] added for the value of an
    absent property.  An object lists its own properties, each key once
    ([JSON.parse] keeps the last value of a key that is given twice);
    none of them is a function. *)
Inductive JVal :=
| JUndef
| JNull
| JBool (b : bool)
| JNum (n : number)
| JStr (s : jsstring)
| JArr (l : list JVal)
| JObj (fields : list (jsstring * JVal)).

(** What the host (the JavaScript engine) supplies and the source only
    calls: the successive results of [Math.random()], the integer [k]
    standing for the number [(k mod 2^53) / 2^53] of the interval [0, 1);
    [String.prototype.toUpperCase]; and [Number::toString]. *)
Class Host := {
  Math_random : nat -> N;
  toUpperCase : jsstring -> jsstring;
  NumberToString : number -> jsstring;
}.

Module Js.
Section Coercions.
Context `{Host}.

(** ToBoolean *)
Definition ToBoolean (v : JVal) : bool :=
  match v with
  | JUndef | JNull => false
  | JBool b => b
  | JNum n => truthy n
  | JStr s => match s with [] => false | _ => true end
  | JArr _ | JObj _ => true
  end.

(** Whether an object has an own property [k]. *)
Fixpoint has_own (k : jsstring) (fs : list (jsstring * JVal)) : bool :=
  match fs with
  | [] => false
  | (k', _) :: fs' => if decide (k = k') then true else has_own k fs'
  end.

(** The elements of an array as [join] renders them, from left to right,
    [render] being ToString: [undefined] and [null] give the empty
    string; [None] when rendering one of the others throws. *)
Definition elements (render : JVal -> option jsstring)
    : list JVal -> option (list jsstring) :=
  fix go (l : list JVal) : option (list jsstring) :=
    match l with
    | [] => Some []
    | e :: l' =>
        match (match e with
               | JUndef | JNull => Some []
               | _ => render e
               end) with
        | None => None
        | Some s => option_map (cons s) (go l')
        end
    end.

(** ToString (what [String(v)] and a template literal apply); [None] when
    it throws a [TypeError].  An array is joined with commas, [undefined]
    and [null] elements rendering as the empty string and the others
    through ToString, which throws where one of them does.  An object goes
    through ToPrimitive: an own property [toString] hides
    [Object.prototype.toString] and, being no function, is passed over,
    and [valueOf] returns no primitive, so that a [TypeError] is thrown;
    an object without it renders as "[object Object]". *)
Fixpoint ToString (v : JVal) : option jsstring :=
  match v with
  | JUndef => Some (lit "undefined")
  | JNull => Some (lit "null")
  | JBool true => Some (lit "true")
  | JBool false => Some (lit "false")
  | JNum n => Some (NumberToString n)
  | JStr s => Some s
  | JArr l => option_map (join (lit ",")) (elements ToString l)
  | JObj fs =>
      if has_own (lit "toString") fs then None else Some (lit "[object Object]")
  end.

(** ToNumber, the unary [+]; [None] when it throws.  Arrays and objects
    go through ToPrimitive, which ends in their string rendering or in
    the [TypeError] above. *)
Definition ToNumber (v : JVal) : option number :=
  match v with
  | JUndef => Some NaN
  | JNull => Some zero
  | JBool true => Some one
  | JBool false => Some zero
  | JNum n => Some n
  | JStr s => Some (StringToNumber s)
  | JArr _ | JObj _ => option_map StringToNumber (ToString v)
  end.

(** [a || b] *)
Definition or (a b : JVal) : JVal := if ToBoolean a then a else b.

(** [+v || d]; [None] when [+v] throws. *)
Definition num_or (v : JVal) (d : number) : option number :=
  option_map (fun n => if truthy n then n else d) (ToNumber v).

Fixpoint field (k : jsstring) (fs : list (jsstring * JVal)) : JVal :=
  match fs with
  | [] => JUndef
  | (k', v) :: fs' => if decide (k = k') then v else field k fs'
  end.

(** [v.k] for a value that is neither [null] nor [undefined] and a
    property name [k] that no prototype defines (as is the case for every
    name the handlers read): the own property of an object, [undefined]
    on everything else. *)
Definition get (v : JVal) (k : string) : JVal :=
  match v with
  | JObj fs => field (lit k) fs
  | _ => JUndef
  end.

(** [v === 'k'] *)
Definition is_lit (v : JVal) (k : string) : bool :=
  match v with
  | JStr s => bool_decide (s = lit k)
  | _ => false
  end.

(** [a[i]] on an array of strings. *)
Definition at_index (a : list jsstring) (i : nat) : JVal :=
  match a !! i with
  | Some s => JStr s
  | None => JUndef
  end.

End Coercions.
End Js.

(** ** The [Map] of the source: insertion-ordered, one entry per key *)

Module JsMap.
Section Ops.
Context {K V : Type} `{EqDecision K}.

(** [m.set(k, v)]: the value of an existing key is replaced where it
    stands, a new key goes to the end. *)
Fixpoint set (k : K) (v : V) (m : list (K * V)) : list (K * V) :=
  match m with
  | [] => [(k, v)]
  | (k', v') :: m' =>
      if decide (k = k') then (k, v) :: m' else (k', v') :: set k v m'
  end.

(** [m.delete(k)] *)
Definition delete (k : K) (m : list (K * V)) : list (K * V) :=
  filter (fun kv => fst kv <> k) m.

(** [m.size] *)
Definition size (m : list (K * V)) : nat := length m.

Definition keys (m : list (K * V)) : list K := List.map fst m.

End Ops.
End JsMap.

(** ** Data model *)

Definition WS := nat.

Module State.
(** [{ x, y, z, yaw, pitch, chap, anim }] *)
Record t := mk {
  x : number; y : number; z : number; yaw : number; pitch : number;
  chap : number; anim : JVal;
}.
End State.

Module Player.
(** [{ id, name, color, ws, partyCode, lastState }].  The object is
    shared by [clients] and by the member map of its party, and only its
    [lastState] is ever assigned: the record holds the fields that never
    change and the address of the cell that holds [lastState]. *)
Record t := mk {
  id : jsstring;
  name : JVal;
  color : JVal;
  ws : WS;
  partyCode : jsstring;
  lastState : nat;
}.
End Player.

Module Party.
(** [{ code, members: Map<id, player> }] *)
Record t := mk {
  code : jsstring;
  members : list (jsstring * Player.t);
}.
End Party.

(** An entry of [players] in a welcome: [{ id, name, color, state }]. *)
Record PlayerInfo := mkInfo {
  i_id : jsstring; i_name : JVal; i_color : JVal; i_state : option State.t;
}.

(** The objects passed to [send]. *)
Inductive OutMsg :=
| Welcome (id code : jsstring) (players : list PlayerInfo) (color : JVal)
| Joined (id : jsstring) (name color : JVal)
| Left (id : jsstring)
| StateMsg (id : jsstring) (st : State.t)
| Chat (id : jsstring) (name : JVal) (text : jsstring)
| Event (id : jsstring) (ev data : JVal)
| Error (msg : jsstring).

(** The process state: the two maps, the cells of the players'
    [lastState] (a player's cell is [null], here [None], until its first
    state message; a new player gets the next cell, so that a player of a
    reachable world always has its cell, see [Spec.dir_ok]), the counter,
    and how many times [Math.random] has been called. *)
Record World := mkWorld {
  parties : gmap jsstring Party.t;
  clients : gmap WS Player.t;
  cells : list (option State.t);
  nextId : Z;
  draws : nat;
}.

Definition init : World :=
  {| parties := ∅; clients := ∅; cells := []; nextId := 1; draws := 0 |}.

(** [m.lastState] *)
Definition read (cs : list (option State.t)) (m : Player.t) : option State.t :=
  mjoin (cs !! Player.lastState m).

(** How a handler ends: it returns, it throws a [TypeError], or it is still
    in the code-generation loop when the fuel runs out. *)
Inductive Completion := Returned | Threw | Spinning.

(** What a handler did: how it ended, the world it left, and the calls
    [send(ws, obj)] it made, in order. *)
Record Outcome := mkOutcome {
  completion : Completion;
  world : World;
  sent : list (WS * OutMsg);
}.

(** [send(ws, obj)]: the object is handed to [ws.send] only when the socket
    is open ([readyState === 1]). *)
Definition send (readyState : WS -> Z) (call : WS * OutMsg) : list (WS * OutMsg) :=
  if readyState (fst call) =? 1 then [call] else [].

(** The frames that reach the wire out of a list of calls of [send]. *)
Definition wire (readyState : WS -> Z) (calls : list (WS * OutMsg)) : list (WS * OutMsg) :=
  flat_map (send readyState) calls.

(** ** The server *)

Module Server.
Section Handlers.
Context `{Host}.

Definition ADJECTIVES : list jsstring :=
  [lit "Shadow"; lit "Neon"; lit "Iron"; lit "Void";
   lit "Storm"; lit "Pixel"; lit "Chaos"; lit "Rust"].
Definition NOUNS : list jsstring :=
  [lit "Bunny"; lit "Wuggy"; lit "Moth"; lit "Glitch";
   lit "Specter"; lit "Wraith"; lit "Drone"; lit "Echo"].
Definition COLORS : list jsstring :=
  [lit "#ff4444"; lit "#44aaff"; lit "#44ff88"; lit "#ffcc00";
   lit "#ff88cc"; lit "#88ffff"; lit "#ff8844"; lit "#cc88ff"].

Definition chars : jsstring := lit "ABCDEFGHJKLMNPQRSTUVWXYZ23456789".

(** [Math.floor(Math.random() * n)] at the [k]-th call of [Math.random],
    for [n] a power of two (32 and 8 in the source), where the product is
    exact. *)
Definition random_index (k : nat) (n : N) : nat :=
  N.to_nat ((Math_random k mod 2 ^ 53) * n / 2 ^ 53).

(** [s + a[i]], an element out of range being [undefined]. *)
Definition append_at (s : jsstring) (a : list jsstring) (i : nat) : jsstring :=
  match a !! i with
  | Some e => s ++ e
  | None => s ++ lit "undefined"
  end.

(** The body of the loop of [genCode], [n] more times. *)
Fixpoint genCode_loop (n : nat) (code : jsstring) (k : nat) : jsstring * nat :=
  match n with
  | O => (code, k)
  | S n' =>
      genCode_loop n'
        (append_at code (List.map (fun c => [c]) chars)
           (random_index k (N.of_nat (length chars))))
        (S k)
  end.

(** [genCode()], from the [k]-th call of [Math.random] on: the code and
    the number of calls made after it. *)
Definition genCode (k : nat) : jsstring * nat := genCode_loop 4 [] k.

(** [genName()] *)
Definition genName (k : nat) : jsstring * nat :=
  (append_at
     (append_at [] ADJECTIVES (random_index k (N.of_nat (length ADJECTIVES))))
     NOUNS (random_index (S k) (N.of_nat (length NOUNS))),
   S (S k)).

(** [broadcast(party, obj, excludeId)]: the calls of [send] it makes, in
    the order of the member map. *)
Definition broadcast (party : Party.t) (obj : OutMsg)
    (excludeId : option jsstring) : list (WS * OutMsg) :=
  flat_map
    (fun '(id, m) =>
       if decide (Some id = excludeId) then [] else [(Player.ws m, obj)])
    (Party.members party).

(** A template literal, given as the sequence of its pieces (the text
    between substitutions as strings): the string it evaluates to, the
    pieces being rendered by ToString from left to right; [None] when one
    of them throws. *)
Fixpoint template (pieces : list JVal) : option jsstring :=
  match pieces with
  | [] => Some []
  | p :: pieces' =>
      match Js.ToString p with
      | None => None
      | Some s => option_map (app s) (template pieces')
      end
  end.

(** The argument of [console.log] in the [create] branch. *)
Definition log_created (code : jsstring) (name : JVal) (id : jsstring)
    : option jsstring :=
  template [JStr (lit "  Party "); JStr code; JStr (lit " created by "); name;
            JStr (lit " ("); JStr id; JStr (lit ")")].

(** The argument of [console.log] in the [join] branch. *)
Definition log_joined (name : JVal) (id code : jsstring) : option jsstring :=
  template [JStr (lit "  "); name; JStr (lit " ("); JStr id;
            JStr (lit ") joined party "); JStr code].

(** The argument of the first [console.log] of the close handler (the
    second renders a string only). *)
Definition log_left (name : JVal) (partyCode : jsstring) : option jsstring :=
  template [JStr (lit "  "); name; JStr (lit " left party "); JStr partyCode].

(** [nextId++] leaves a number: past [2^53] adding one changes nothing. *)
Definition incr (n : Z) : Z := if n <? 2 ^ 53 then n + 1 else n.

(** [(msg.name || genName()).slice(0, 20)]: a string or an array is
    sliced, [genName] is called only for a falsy name, and any other
    value has no [slice] method ([None]: a [TypeError]). *)
Definition player_name (msg : JVal) (k : nat) : option (JVal * nat) :=
  let v := Js.get msg "name" in
  if Js.ToBoolean v then
    match v with
    | JStr s => Some (JStr (slice0 20 s), k)
    | JArr l => Some (JArr (take 20 l), k)
    | _ => None
    end
  else
    let '(n, k') := genName k in Some (JStr (slice0 20 n), k').

(** [COLORS[(nextId - 1) % COLORS.length]], [next] being the counter as
    the increment left it. *)
Definition player_color (next : Z) : JVal :=
  Js.at_index COLORS (Z.to_nat (Z.rem (next - 1) (Z.of_nat (length COLORS)))).

(** [while (parties.has(code)) code = genCode()] *)
Fixpoint fresh_code (fuel : nat) (ps : gmap jsstring Party.t)
    (code : jsstring) (k : nat) : option (jsstring * nat) :=
  match ps !! code with
  | None => Some (code, k)
  | Some _ =>
      match fuel with
      | O => None
      | S fuel' => let '(code', k') := genCode k in fresh_code fuel' ps code' k'
      end
  end.

Definition returned (w : World) (out : list (WS * OutMsg)) : Outcome :=
  {| completion := Returned; world := w; sent := out |}.
Definition threw (w : World) : Outcome :=
  {| completion := Threw; world := w; sent := [] |}.
(** An exception thrown after some calls of [send]. *)
Definition threw_after (w : World) (out : list (WS * OutMsg)) : Outcome :=
  {| completion := Threw; world := w; sent := out |}.
Definition spinning (w : World) : Outcome :=
  {| completion := Spinning; world := w; sent := [] |}.

Definition error (ws : WS) (msg : jsstring) : list (WS * OutMsg) :=
  [(ws, Error msg)].

Definition with_counters (w : World) (next : Z) (k : nat) : World :=
  {| parties := parties w; clients := clients w; cells := cells w;
     nextId := next; draws := k |}.

(** The [create] branch.  The line that logs the creation comes after the
    two maps are set and before the welcome: where it throws, the party
    and the player are there and nothing is sent. *)
Definition on_create (fuel : nat) (ws : WS) (msg : JVal) (w : World) : Outcome :=
  match clients w !! ws with
  | Some _ => returned w (error ws (lit "Already in a party."))
  | None =>
      let id := of_integer (nextId w) in
      let next := incr (nextId w) in
      match player_name msg (draws w) with
      | None => threw (with_counters w next (draws w))
      | Some (name, k1) =>
          let color := player_color next in
          let '(code0, k2) := genCode k1 in
          match fresh_code fuel (parties w) code0 k2 with
          | None => spinning (with_counters w next k2)
          | Some (code, k3) =>
              let player :=
                Player.mk id name color ws code (length (cells w)) in
              let party := Party.mk code (JsMap.set id player []) in
              let w' :=
                {| parties := <[code := party]> (parties w);
                   clients := <[ws := player]> (clients w);
                   cells := cells w ++ [None];
                   nextId := next; draws := k3 |} in
              match log_created code name id with
              | None => threw w'
              | Some _ => returned w' [(ws, Welcome id code [] color)]
              end
          end
      end
  end.

(** [(msg.code || '').toUpperCase().trim()]; [None] when the value has no
    [toUpperCase] method. *)
Definition join_code (msg : JVal) : option jsstring :=
  match Js.or (Js.get msg "code") (JStr []) with
  | JStr s => Some (trim (toUpperCase s))
  | _ => None
  end.

(** The template literal of the second error; 34 is the double quote. *)
Definition not_found (code : jsstring) : jsstring :=
  lit "Party " ++ [34%N] ++ code ++ [34%N] ++ lit " not found.".

(** The entries pushed on [existing]. *)
Definition existing (cs : list (option State.t)) (party : Party.t)
    : list PlayerInfo :=
  List.map
    (fun '(_, m) => mkInfo (Player.id m) (Player.name m) (Player.color m) (read cs m))
    (Party.members party).

(** The [join] branch.  The line that logs the arrival comes after the
    two maps are set and before the welcome and the announcement. *)
Definition on_join (ws : WS) (msg : JVal) (w : World) : Outcome :=
  match clients w !! ws with
  | Some _ => returned w (error ws (lit "Already in a party."))
  | None =>
      match join_code msg with
      | None => threw w
      | Some code =>
          match parties w !! code with
          | None => returned w (error ws (not_found code))
          | Some party =>
              if (8 <=? JsMap.size (Party.members party))%nat
              then returned w (error ws (lit "Party is full (max 8)."))
              else
                let id := of_integer (nextId w) in
                let next := incr (nextId w) in
                match player_name msg (draws w) with
                | None => threw (with_counters w next (draws w))
                | Some (name, k1) =>
                    let color := player_color next in
                    let player :=
                      Player.mk id name color ws code (length (cells w)) in
                    let players := existing (cells w) party in
                    let party' :=
                      Party.mk (Party.code party)
                        (JsMap.set id player (Party.members party)) in
                    let w' :=
                      {| parties := <[code := party']> (parties w);
                         clients := <[ws := player]> (clients w);
                         cells := cells w ++ [None];
                         nextId := next; draws := k1 |} in
                    match log_joined name id code with
                    | None => threw w'
                    | Some _ =>
                        returned w'
                          ((ws, Welcome id code players color)
                             :: broadcast party' (Joined id name color) (Some id))
                    end
                end
          end
      end
  end.

(** The object built by the [state] branch, its fields evaluated in the
    order in which they are written; [None] when one of the six [+]
    throws. *)
Definition state_of (msg : JVal) : option State.t :=
  x ← Js.num_or (Js.get msg "x") zero;
  y ← Js.num_or (Js.get msg "y") zero;
  z ← Js.num_or (Js.get msg "z") zero;
  yaw ← Js.num_or (Js.get msg "yaw") zero;
  pitch ← Js.num_or (Js.get msg "pitch") zero;
  chap ← Js.num_or (Js.get msg "chap") one;
  Some {| State.x := x; State.y := y; State.z := z; State.yaw := yaw;
          State.pitch := pitch; State.chap := chap;
          State.anim := Js.or (Js.get msg "anim") (JStr (lit "idle")) |}.

(** The [state] branch: the object is built after the two guards, and
    where building it throws nothing is stored and nothing is sent. *)
Definition on_state (ws : WS) (msg : JVal) (w : World) : Outcome :=
  match clients w !! ws with
  | None => returned w []
  | Some info =>
      match parties w !! Player.partyCode info with
      | None => returned w []
      | Some party =>
          match state_of msg with
          | None => threw w
          | Some state =>
              returned
                {| parties := parties w; clients := clients w;
                   cells := <[Player.lastState info := Some state]> (cells w);
                   nextId := nextId w; draws := draws w |}
                (broadcast party (StateMsg (Player.id info) state)
                   (Some (Player.id info)))
          end
      end
  end.

(** [String(msg.text || '').slice(0, 120)]; [None] when [String] throws. *)
Definition chat_text (msg : JVal) : option jsstring :=
  option_map (slice0 120) (Js.ToString (Js.or (Js.get msg "text") (JStr []))).

(** The [chat] branch. *)
Definition on_chat (ws : WS) (msg : JVal) (w : World) : Outcome :=
  match clients w !! ws with
  | None => returned w []
  | Some info =>
      match parties w !! Player.partyCode info with
      | None => returned w []
      | Some party =>
          match chat_text msg with
          | None => threw w
          | Some text =>
              let obj := Chat (Player.id info) (Player.name info) text in
              returned w (broadcast party obj None ++ [(ws, obj)])
          end
      end
  end.

(** The [event] branch. *)
Definition on_event (ws : WS) (msg : JVal) (w : World) : Outcome :=
  match clients w !! ws with
  | None => returned w []
  | Some info =>
      match parties w !! Player.partyCode info with
      | None => returned w []
      | Some party =>
          returned w
            (broadcast party
               (Event (Player.id info) (Js.get msg "ev")
                  (Js.or (Js.get msg "data") (JObj [])))
               (Some (Player.id info)))
      end
  end.

(** [ws.on('message', ...)].  [parsed] is what [JSON.parse(raw)] gave,
    [None] when it threw (the handler then returns at once).  Reading
    [msg.type] off [null] throws. *)
Definition on_message (fuel : nat) (ws : WS) (parsed : option JVal)
    (w : World) : Outcome :=
  match parsed with
  | None => returned w []
  | Some JNull | Some JUndef => threw w
  | Some msg =>
      let type := Js.get msg "type" in
      if Js.is_lit type "create" then on_create fuel ws msg w
      else if Js.is_lit type "join" then on_join ws msg w
      else if Js.is_lit type "state" then on_state ws msg w
      else if Js.is_lit type "chat" then on_chat ws msg w
      else if Js.is_lit type "event" then on_event ws msg w
      else returned w []
  end.

(** [ws.on('close', ...)].  The member is deleted from the party (the
    object the map holds) and [left] is broadcast; then comes the line
    that logs the departure, and after it the deletion of an emptied party
    and of the directory entry: where the line throws, the party stays in
    the map without the member, empty if it was the last, and the socket
    stays in the directory. *)
Definition on_close (ws : WS) (w : World) : Outcome :=
  match clients w !! ws with
  | None => returned w []
  | Some info =>
      match parties w !! Player.partyCode info with
      | Some party =>
          let party' :=
            Party.mk (Party.code party)
              (JsMap.delete (Player.id info) (Party.members party)) in
          let out := broadcast party' (Left (Player.id info)) None in
          match log_left (Player.name info) (Player.partyCode info) with
          | None =>
              threw_after
                {| parties := <[Player.partyCode info := party']> (parties w);
                   clients := clients w;
                   cells := cells w; nextId := nextId w; draws := draws w |}
                out
          | Some _ =>
              returned
                {| parties :=
                     if (JsMap.size (Party.members party') =? 0)%nat
                     then delete (Player.partyCode info) (parties w)
                     else <[Player.partyCode info := party']> (parties w);
                   clients := delete ws (clients w);
                   cells := cells w; nextId := nextId w; draws := draws w |}
                out
          end
      | None =>
          returned
            {| parties := parties w; clients := delete ws (clients w);
               cells := cells w; nextId := nextId w; draws := draws w |}
            []
      end
  end.

(** The worlds a handler can leave, whatever becomes of the process when
    a handler throws: [reachable] starts from [init] and goes on after
    every handler, however it ended. *)
Inductive reachable : World -> Prop :=
| reach_init : reachable init
| reach_message fuel ws parsed w :
    reachable w -> reachable (world (on_message fuel ws parsed w))
| reach_close ws w :
    reachable w -> reachable (world (on_close ws w)).

(** The worlds of a process in which every handler so far has returned.
    Nothing in the source catches what a listener throws, and no handler
    of uncaught exceptions is installed: the exception leaves the
    listener, and Node ends the process on it.  So these are the worlds
    in which a handler, or the status endpoint, can find the server. *)
Inductive alive : World -> Prop :=
| alive_init : alive init
| alive_message fuel ws parsed w :
    alive w -> completion (on_message fuel ws parsed w) = Returned ->
    alive (world (on_message fuel ws parsed w))
| alive_close ws w :
    alive w -> completion (on_close ws w) = Returned ->
    alive (world (on_close ws w)).

End Handlers.
End Server.

#[global] Arguments lit : simpl never.
#[global] Arguments of_integer : simpl never.
#[global] Arguments Server.genCode : simpl never.
#[global] Arguments Server.genName : simpl never.
#[global] Arguments Server.player_name : simpl never.
#[global] Arguments Server.player_color : simpl never.
#[global] Arguments Server.join_code : simpl never.
#[global] Arguments Server.not_found : simpl never.
#[global] Arguments Server.state_of : simpl never.
#[global] Arguments Server.chat_text : simpl never.
#[global] Arguments Server.broadcast : simpl never.

(** ** A host to run the handlers on examples *)

Module Example.

(** Upper-casing of the ASCII letters. *)
Definition ascii_upper (s : jsstring) : jsstring :=
  List.map (fun c => if ((97 <=? c) && (c <=? 122))%N then (c - 32)%N else c) s.

(** The rendering of the numbers that are integers (the examples render
    no other). *)
Definition integer_string (n : number) : jsstring :=
  match n with
  | S754_zero _ => lit "0"
  | S754_nan => lit "NaN"
  | S754_infinity s => if s then lit "-Infinity" else lit "Infinity"
  | S754_finite s m e =>
      (if s then lit "-" else []) ++ of_integer (Z.shiftl (Zpos m) e)
  end.

(** A linear congruential sequence for [Math.random]. *)
Definition host : Host :=
  {| Math_random := fun k =>
       ((N.of_nat k * 6364136223846793005 + 1442695040888963407) mod 2 ^ 53)%N;
     toUpperCase := ascii_upper;
     NumberToString := integer_string |}.

(** A host whose [Math.random] always returns 0. *)
Definition stuck_host : Host :=
  {| Math_random := fun _ => 0%N;
     toUpperCase := ascii_upper;
     NumberToString := integer_string |}.

Definition obj (fs : list (string * JVal)) : JVal :=
  JObj (List.map (fun '(k, v) => (lit k, v)) fs).
Definition str (s : string) : JVal := JStr (lit s).

(** The world after [msgs], sent in turn, each by the socket it is
    paired with. *)
Definition run `{Host} (msgs : list (WS * JVal)) (w : World) : World :=
  fold_left (fun w '(ws, m) => world (Server.on_message 0 ws (Some m) w)) msgs w.


(** *** Runs on [host] *)

Local Open Scope string_scope.
Local Open Scope list_scope.
Local Open Scope Z_scope.

Definition play : list (WS * JVal) -> World -> World := @run host.

Definition create_msg : JVal := obj [("type", str "create"); ("name", str "Al")].
Definition join_msg (name : JVal) : JVal :=
  obj [("type", str "join"); ("code", str " fzk5 "); ("name", name)].
Definition chat_msg : JVal := obj [("type", str "chat"); ("text", str "hi")].
Definition state_msg : JVal :=
  obj [("type", str "state"); ("x", str "abc"); ("y", JNum (of_Z 2));
       ("chap", JNum (of_Z (-1)))].
Definition event_msg : JVal := obj [("type", str "event"); ("ev", str "grab")].

(** The code the example host draws first. *)
Definition code : jsstring := lit "FZK5".

Definition joins (sockets : list WS) : list (WS * JVal) :=
  List.map (fun ws => (ws, join_msg (str "Bo"))) sockets.

(** Socket 0 has created a party. *)
Definition solo : World := play [(0%nat, create_msg)] init.
(** Socket 1 has joined it. *)
Definition pair : World := play ((0%nat, create_msg) :: joins [1%nat]) init.
(** Sockets 1 to 6, then 7, have joined it. *)
Definition seven : World :=
  play ((0%nat, create_msg) :: joins [1; 2; 3; 4; 5; 6]%nat) init.
Definition full : World :=
  play ((0%nat, create_msg) :: joins [1; 2; 3; 4; 5; 6; 7]%nat) init.

Definition alice : Player.t :=
  Player.mk (lit "1") (str "Al") (JStr (lit "#44aaff")) 0%nat code 0%nat.
Definition bob : Player.t :=
  Player.mk (lit "2") (str "Bo") (JStr (lit "#44ff88")) 1%nat code 1%nat.
Definition pair_party : Party.t :=
  Party.mk code [(lit "1", alice); (lit "2", bob)].
Definition seven_party : Party.t :=
  Eval vm_compute in default (Party.mk [] []) (parties seven !! code).
Definition full_party : Party.t :=
  Eval vm_compute in default (Party.mk [] []) (parties full !! code).

(** The state the server builds from [state_msg]. *)
Definition built_state : State.t :=
  State.mk zero (of_Z 2) zero zero zero (of_Z (-1)) (str "idle").

(** Every message of the run is handled to the end: no handler throws or
    stays in the loop of [create]. *)
Fixpoint returns `{Host} (msgs : list (WS * JVal)) (w : World) : bool :=
  match msgs with
  | [] => true
  | (ws, m) :: rest =>
      match completion (Server.on_message 0 ws (Some m) w) with
      | Returned => returns rest (world (Server.on_message 0 ws (Some m) w))
      | _ => false
      end
  end.

(** *** Values that cannot be turned into a primitive *)

(** [{"toString": 1}], as [JSON.parse] makes it: the own property hides
    [Object.prototype.toString] and is not a function. *)
Definition toString_obj : JVal := obj [("toString", JNum one)].

Definition bad_state_msg : JVal :=
  obj [("type", str "state"); ("x", toString_obj)].
Definition bad_chat_msg : JVal :=
  obj [("type", str "chat"); ("text", toString_obj)].
(** A name that [slice] accepts and the log line cannot render. *)
Definition bad_name : JVal := JArr [toString_obj].
Definition bad_create_msg : JVal :=
  obj [("type", str "create"); ("name", bad_name)].

(** Socket 0 has sent [bad_create_msg]: the handler threw at its log
    line, and here the process is taken to have gone on. *)
Definition haunted : World := play [(0%nat, bad_create_msg)] init.
Definition ghost : Player.t :=
  Player.mk (lit "1") bad_name (JStr (lit "#44aaff")) 0%nat code 0%nat.

(** *** A host on which [create] draws a taken code once *)

(** [Math.random] returns 0 for the first eight draws (two codes "AAAA")
    and the largest value below 1 afterwards (the code "9999"). *)
Definition retry_host : Host :=
  {| Math_random := fun k => if (k <? 8)%nat then 0%N else (2 ^ 53 - 1)%N;
     toUpperCase := ascii_upper;
     NumberToString := integer_string |}.

(** Socket 0 has created the party "AAAA". *)
Definition opened : World :=
  world (@Server.on_message retry_host 0 0%nat (Some create_msg) init).

End Example.

(** ** The vocabulary of the statements *)

Module Spec.
Section Vocabulary.
Context `{Host}.
Import Server.

(** [msg.type === k] *)
Definition has_type (msg : JVal) (k : string) : bool :=
  Js.is_lit (Js.get msg "type") k.



Definition replies_error (o : Outcome) : Prop :=
  exists to m, In (to, Error m) (sent o).

(** The values ToString throws on: an object with an own property
    [toString], and an array that holds such a value. *)
Inductive unrenderable : JVal -> Prop :=
| unrenderable_object fs :
    Js.has_own (lit "toString") fs = true -> unrenderable (JObj fs)
| unrenderable_array l e :
    In e l -> unrenderable e -> unrenderable (JArr l).

(** How a field read with [+v || d] comes out as [r]: the default [d]
    when the property is absent, when it is falsy, and when its number is
    0 or NaN (the string "abc", an object that can be rendered); the
    number itself in every other case (a number that is neither 0 nor
    NaN, -1 for one, a string that spells one). *)
Definition coerced (d : number) (v : JVal) (r : number) : Prop :=
  (v = JUndef -> r = d)
  /\ (Js.ToBoolean v = false -> r = d)
  /\ (forall n, Js.ToNumber v = Some n -> truthy n = false -> r = d)
  /\ (forall n, Js.ToNumber v = Some n -> truthy n = true -> r = n)
  /\ (forall n, v = JNum n -> truthy n = true -> r = n)
  /\ (forall s, v = JStr s -> truthy (StringToNumber s) = true ->
        r = StringToNumber s)
  /\ (v = JStr (lit "abc") -> r = d)
  /\ (forall fs, v = JObj fs -> Js.has_own (lit "toString") fs = false -> r = d)
  /\ (v = JNum (of_Z (-1)) -> r = of_Z (-1)).

(** [x], [y], [z], [yaw], [pitch]: the default is 0. *)
Definition numeric_field : JVal -> number -> Prop := coerced zero.

(** [chap]: the default is 1. *)
Definition chap_field : JVal -> number -> Prop := coerced one.

(** How [anim], read with [v || 'idle'], comes out. *)
Definition anim_field (v r : JVal) : Prop :=
  (v = JUndef -> r = JStr (lit "idle"))
  /\ (Js.ToBoolean v = false -> r = JStr (lit "idle"))
  /\ (Js.ToBoolean v = true -> r = v).

(** The names [(msg.name || genName()).slice(0, 20)] accepts: a falsy
    value (absent, say), a string or an array. *)
Definition sliceable (v : JVal) : Prop :=
  Js.ToBoolean v = false \/ (exists s, v = JStr s) \/ (exists l, v = JArr l).

(** The code tried at the [n]-th turn of the loop of [create], the first
    call of [genCode] starting at draw [k]. *)
Definition candidate (k n : nat) : jsstring := fst (genCode (k + 4 * n)).

(** The calls of [send] over [n] closes of the same socket in a row, and
    the world they leave. *)
Fixpoint close_times (n : nat) (ws : WS) (w : World) : list (WS * OutMsg) * World :=
  match n with
  | O => ([], w)
  | S n' =>
      let o := on_close ws w in
      let '(out, w') := close_times n' ws (world o) in
      (sent o ++ out, w')
  end.

(** A party stored under [c], against the directory [cl]: it carries its
    key, has at most eight members, has one entry per id, and every
    member is the player the directory holds for its socket. *)
Record party_ok (cl : gmap WS Player.t) (c : jsstring) (p : Party.t) : Prop := {
  ok_code : Party.code p = c;
  ok_size : (JsMap.size (Party.members p) <= 8)%nat;
  ok_keys : NoDup (JsMap.keys (Party.members p));
  ok_member : forall id m, In (id, m) (Party.members p) ->
    Player.id m = id /\ Player.partyCode m = c /\ cl !! Player.ws m = Some m;
}.

(** The directory, against the number of cells and the counter: a player
    sits under its own socket, its cell exists, and, as long as the
    counter has not reached [2^53], ids are renderings of smaller
    counter values and no two sockets share one. *)
Record dir_ok (cl : gmap WS Player.t) (ncells : nat) (next : Z) : Prop := {
  ok_next : 1 <= next;
  ok_client : forall ws p, cl !! ws = Some p ->
    Player.ws p = ws /\ (Player.lastState p < ncells)%nat;
  ok_ids : next < 2 ^ 53 -> forall ws p, cl !! ws = Some p ->
    exists k, 1 <= k < next /\ Player.id p = of_integer k;
  ok_id_inj : next < 2 ^ 53 -> forall ws1 ws2 p1 p2,
    cl !! ws1 = Some p1 -> cl !! ws2 = Some p2 ->
    Player.id p1 = Player.id p2 -> ws1 = ws2;
}.

(** What holds of every world a handler can leave, see
    [Invariant.reachable_wf]. *)
Record wf (w : World) : Prop := {
  wf_dir : dir_ok (clients w) (length (cells w)) (nextId w);
  wf_parties : forall c p, parties w !! c = Some p -> party_ok (clients w) c p;
}.

(** What holds besides in the worlds of a process in which no handler
    has thrown, see [Invariant.alive_live]: no party is empty, and the
    name of every player can be rendered. *)
Record live (w : World) : Prop := {
  live_wf : wf w;
  live_size : forall c p, parties w !! c = Some p ->
    (1 <= JsMap.size (Party.members p))%nat;
  live_names : forall ws p, clients w !! ws = Some p ->
    is_Some (Js.ToString (Player.name p));
}.

(** The world a [create] leaves once the two maps are set. *)
Definition created (ws : WS) (name : JVal) (code : jsstring) (k : nat)
    (w : World) : World :=
  let id := of_integer (nextId w) in
  let player :=
    Player.mk id name (player_color (incr (nextId w))) ws code
      (length (cells w)) in
  {| parties := <[code := Party.mk code (JsMap.set id player [])]> (parties w);
     clients := <[ws := player]> (clients w);
     cells := cells w ++ [None];
     nextId := incr (nextId w); draws := k |}.

Inductive create_case (fuel : nat) (ws : WS) (msg : JVal) (w : World)
    : Outcome -> Prop :=
| create_already info :
    clients w !! ws = Some info ->
    create_case fuel ws msg w
      (returned w (error ws (lit "Already in a party.")))
| create_throws :
    clients w !! ws = None -> player_name msg (draws w) = None ->
    create_case fuel ws msg w
      (threw (with_counters w (incr (nextId w)) (draws w)))
| create_spins name k1 code0 k2 :
    clients w !! ws = None -> player_name msg (draws w) = Some (name, k1) ->
    genCode k1 = (code0, k2) ->
    fresh_code fuel (parties w) code0 k2 = None ->
    create_case fuel ws msg w
      (spinning (with_counters w (incr (nextId w)) k2))
| create_log_throws name k1 code0 k2 code k3 :
    clients w !! ws = None -> player_name msg (draws w) = Some (name, k1) ->
    genCode k1 = (code0, k2) ->
    fresh_code fuel (parties w) code0 k2 = Some (code, k3) ->
    log_created code name (of_integer (nextId w)) = None ->
    create_case fuel ws msg w (threw (created ws name code k3 w))
| create_done name k1 code0 k2 code k3 line :
    clients w !! ws = None -> player_name msg (draws w) = Some (name, k1) ->
    genCode k1 = (code0, k2) ->
    fresh_code fuel (parties w) code0 k2 = Some (code, k3) ->
    log_created code name (of_integer (nextId w)) = Some line ->
    create_case fuel ws msg w
      (returned (created ws name code k3 w)
         [(ws, Welcome (of_integer (nextId w)) code []
                 (player_color (incr (nextId w))))]).

(** The world a [join] leaves once the two maps are set. *)
Definition joined (ws : WS) (name : JVal) (code : jsstring) (party : Party.t)
    (k : nat) (w : World) : World :=
  let id := of_integer (nextId w) in
  let player :=
    Player.mk id name (player_color (incr (nextId w))) ws code
      (length (cells w)) in
  {| parties :=
       <[code := Party.mk (Party.code party)
                   (JsMap.set id player (Party.members party))]> (parties w);
     clients := <[ws := player]> (clients w);
     cells := cells w ++ [None];
     nextId := incr (nextId w); draws := k |}.

Inductive join_case (ws : WS) (msg : JVal) (w : World) : Outcome -> Prop :=
| join_already info :
    clients w !! ws = Some info ->
    join_case ws msg w (returned w (error ws (lit "Already in a party.")))
| join_bad_code :
    clients w !! ws = None -> join_code msg = None ->
    join_case ws msg w (threw w)
| join_not_found code :
    clients w !! ws = None -> join_code msg = Some code ->
    parties w !! code = None ->
    join_case ws msg w (returned w (error ws (not_found code)))
| join_full code party :
    clients w !! ws = None -> join_code msg = Some code ->
    parties w !! code = Some party ->
    (8 <= JsMap.size (Party.members party))%nat ->
    join_case ws msg w (returned w (error ws (lit "Party is full (max 8).")))
| join_throws code party :
    clients w !! ws = None -> join_code msg = Some code ->
    parties w !! code = Some party ->
    (JsMap.size (Party.members party) < 8)%nat ->
    player_name msg (draws w) = None ->
    join_case ws msg w (threw (with_counters w (incr (nextId w)) (draws w)))
| join_log_throws code party name k1 :
    clients w !! ws = None -> join_code msg = Some code ->
    parties w !! code = Some party ->
    (JsMap.size (Party.members party) < 8)%nat ->
    player_name msg (draws w) = Some (name, k1) ->
    log_joined name (of_integer (nextId w)) code = None ->
    join_case ws msg w (threw (joined ws name code party k1 w))
| join_done code party name k1 line :
    clients w !! ws = None -> join_code msg = Some code ->
    parties w !! code = Some party ->
    (JsMap.size (Party.members party) < 8)%nat ->
    player_name msg (draws w) = Some (name, k1) ->
    log_joined name (of_integer (nextId w)) code = Some line ->
    join_case ws msg w
      (returned (joined ws name code party k1 w)
         ((ws, Welcome (of_integer (nextId w)) code (existing (cells w) party)
                 (player_color (incr (nextId w))))
            :: broadcast
                 (Party.mk (Party.code party)
                    (JsMap.set (of_integer (nextId w))
                       (Player.mk (of_integer (nextId w)) name
                          (player_color (incr (nextId w))) ws code
                          (length (cells w)))
                       (Party.members party)))
                 (Joined (of_integer (nextId w)) name
                    (player_color (incr (nextId w))))
                 (Some (of_integer (nextId w))))).

(** The ways through [on_message] for a payload that parsed. *)
Inductive message_case (fuel : nat) (ws : WS) (w : World) (msg : JVal)
    : Outcome -> Prop :=
| case_null :
    msg = JNull \/ msg = JUndef -> message_case fuel ws w msg (threw w)
| case_create :
    Js.is_lit (Js.get msg "type") "create" = true ->
    message_case fuel ws w msg (on_create fuel ws msg w)
| case_join :
    Js.is_lit (Js.get msg "type") "join" = true ->
    message_case fuel ws w msg (on_join ws msg w)
| case_state :
    Js.is_lit (Js.get msg "type") "state" = true ->
    message_case fuel ws w msg (on_state ws msg w)
| case_chat :
    Js.is_lit (Js.get msg "type") "chat" = true ->
    message_case fuel ws w msg (on_chat ws msg w)
| case_event :
    Js.is_lit (Js.get msg "type") "event" = true ->
    message_case fuel ws w msg (on_event ws msg w)
| case_unknown :
    msg <> JNull -> msg <> JUndef ->
    Js.is_lit (Js.get msg "type") "create" = false ->
    Js.is_lit (Js.get msg "type") "join" = false ->
    Js.is_lit (Js.get msg "type") "state" = false ->
    Js.is_lit (Js.get msg "type") "chat" = false ->
    Js.is_lit (Js.get msg "type") "event" = false ->
    message_case fuel ws w msg (returned w []).

(** The world a [state] message leaves. *)
Definition stated (info : Player.t) (st : State.t) (w : World) : World :=
  {| parties := parties w; clients := clients w;
     cells := <[Player.lastState info := Some st]> (cells w);
     nextId := nextId w; draws := draws w |}.

(** The ways through the [state] and the [chat] branch. *)
Inductive state_case (ws : WS) (msg : JVal) (w : World) : Outcome -> Prop :=
| state_unresolved :
    clients w !! ws = None -> state_case ws msg w (returned w [])
| state_no_party info :
    clients w !! ws = Some info ->
    parties w !! Player.partyCode info = None ->
    state_case ws msg w (returned w [])
| state_throws info party :
    clients w !! ws = Some info ->
    parties w !! Player.partyCode info = Some party ->
    state_of msg = None ->
    state_case ws msg w (threw w)
| state_done info party st :
    clients w !! ws = Some info ->
    parties w !! Player.partyCode info = Some party ->
    state_of msg = Some st ->
    state_case ws msg w
      (returned (stated info st w)
         (broadcast party (StateMsg (Player.id info) st)
            (Some (Player.id info)))).

Inductive chat_case (ws : WS) (msg : JVal) (w : World) : Outcome -> Prop :=
| chat_unresolved :
    clients w !! ws = None -> chat_case ws msg w (returned w [])
| chat_no_party info :
    clients w !! ws = Some info ->
    parties w !! Player.partyCode info = None ->
    chat_case ws msg w (returned w [])
| chat_throws info party :
    clients w !! ws = Some info ->
    parties w !! Player.partyCode info = Some party ->
    chat_text msg = None ->
    chat_case ws msg w (threw w)
| chat_done info party text :
    clients w !! ws = Some info ->
    parties w !! Player.partyCode info = Some party ->
    chat_text msg = Some text ->
    chat_case ws msg w
      (returned w
         (broadcast party (Chat (Player.id info) (Player.name info) text) None
            ++ [(ws, Chat (Player.id info) (Player.name info) text)])).

(** The world a close leaves when the party of the player is there and
    the log line does not throw, and the world it leaves when it does. *)
Definition closed (ws : WS) (info : Player.t) (party : Party.t) (w : World)
    : World :=
  let members' := JsMap.delete (Player.id info) (Party.members party) in
  {| parties :=
       if (JsMap.size members' =? 0)%nat
       then delete (Player.partyCode info) (parties w)
       else <[Player.partyCode info := Party.mk (Party.code party) members']>
              (parties w);
     clients := delete ws (clients w);
     cells := cells w; nextId := nextId w; draws := draws w |}.

Definition half_closed (info : Player.t) (party : Party.t) (w : World)
    : World :=
  {| parties :=
       <[Player.partyCode info :=
           Party.mk (Party.code party)
             (JsMap.delete (Player.id info) (Party.members party))]>
         (parties w);
     clients := clients w;
     cells := cells w; nextId := nextId w; draws := draws w |}.

(** The ways through the close handler. *)
Inductive close_case (ws : WS) (w : World) : Outcome -> Prop :=
| close_unresolved :
    clients w !! ws = None -> close_case ws w (returned w [])
| close_no_party info :
    clients w !! ws = Some info ->
    parties w !! Player.partyCode info = None ->
    close_case ws w
      (returned
         {| parties := parties w; clients := delete ws (clients w);
            cells := cells w; nextId := nextId w; draws := draws w |} [])
| close_throws info party :
    clients w !! ws = Some info ->
    parties w !! Player.partyCode info = Some party ->
    log_left (Player.name info) (Player.partyCode info) = None ->
    close_case ws w
      (threw_after (half_closed info party w)
         (broadcast
            (Party.mk (Party.code party)
               (JsMap.delete (Player.id info) (Party.members party)))
            (Left (Player.id info)) None))
| close_done info party line :
    clients w !! ws = Some info ->
    parties w !! Player.partyCode info = Some party ->
    log_left (Player.name info) (Player.partyCode info) = Some line ->
    close_case ws w
      (returned (closed ws info party w)
         (broadcast
            (Party.mk (Party.code party)
               (JsMap.delete (Player.id info) (Party.members party)))
            (Left (Player.id info)) None)).

End Vocabulary.
End Spec.

(** ** The status endpoint, and the vocabulary of the further properties *)

Module Status.
Section Defs.
Context `{Host}.
Import Server Spec.

(** The body the HTTP server answers every request with:
    [{ status: 'ok', parties: parties.size, players: clients.size }]. *)
Record Health := mkHealth {
  h_status : jsstring;
  h_parties : nat;
  h_players : nat;
}.

Definition health (w : World) : Health :=
  mkHealth (lit "ok") (size (parties w)) (size (clients w)).

(** A join code as [genCode] makes them: four characters of [chars]. *)
Definition valid_code (c : jsstring) : Prop :=
  length c = 4%nat /\ forall x, In x c -> In x chars.

(** A name as [create] and [join] store it: a string of 1 to 20 code
    units, or an array of at most 20 elements. *)
Definition name_ok (v : JVal) : Prop :=
  (exists s, v = JStr s /\ s <> [] /\ (length s <= 20)%nat)
  \/ (exists l, v = JArr l /\ (length l <= 20)%nat).

(** A colour of the palette. *)
Definition in_palette (v : JVal) : Prop :=
  exists c, In c COLORS /\ v = JStr c.

(** One handler run, however it ends, as a move between worlds: the maps
    and the cells stay (the counter may have moved), or a party is
    created, or joined (whether or not the log line then throws), or a
    state is stored, or a socket is closed, to the end or as far as the
    log line. *)
Inductive move (w : World) : World -> Prop :=
| move_stay w' :
    parties w' = parties w -> clients w' = clients w -> cells w' = cells w ->
    nextId w' = nextId w \/ nextId w' = incr (nextId w) ->
    move w w'
| move_create ws msg name k1 code k :
    clients w !! ws = None ->
    player_name msg (draws w) = Some (name, k1) ->
    parties w !! code = None -> valid_code code ->
    move w (created ws name code k w)
| move_join ws msg name k code party :
    clients w !! ws = None ->
    parties w !! code = Some party ->
    (JsMap.size (Party.members party) < 8)%nat ->
    player_name msg (draws w) = Some (name, k) ->
    move w (joined ws name code party k w)
| move_state ws info party st :
    clients w !! ws = Some info ->
    parties w !! Player.partyCode info = Some party ->
    move w (stated info st w)
| move_close ws info party :
    clients w !! ws = Some info ->
    parties w !! Player.partyCode info = Some party ->
    move w (closed ws info party w)
| move_half_close ws info party :
    clients w !! ws = Some info ->
    parties w !! Player.partyCode info = Some party ->
    move w (half_closed info party w)
| move_orphan ws info :
    clients w !! ws = Some info ->
    parties w !! Player.partyCode info = None ->
    move w {| parties := parties w; clients := delete ws (clients w);
              cells := cells w; nextId := nextId w; draws := draws w |}.

(** One handler run that returns: the log lines did not throw, so the
    name given to a new player, and the name of a player that leaves, can
    be rendered. *)
Inductive advance (w : World) : World -> Prop :=
| advance_stay w' :
    parties w' = parties w -> clients w' = clients w -> cells w' = cells w ->
    nextId w' = nextId w \/ nextId w' = incr (nextId w) ->
    advance w w'
| advance_create ws msg name k1 code k :
    clients w !! ws = None ->
    player_name msg (draws w) = Some (name, k1) ->
    parties w !! code = None -> valid_code code ->
    is_Some (Js.ToString name) ->
    advance w (created ws name code k w)
| advance_join ws msg name k code party :
    clients w !! ws = None ->
    parties w !! code = Some party ->
    (JsMap.size (Party.members party) < 8)%nat ->
    player_name msg (draws w) = Some (name, k) ->
    is_Some (Js.ToString name) ->
    advance w (joined ws name code party k w)
| advance_state ws info party st :
    clients w !! ws = Some info ->
    parties w !! Player.partyCode info = Some party ->
    advance w (stated info st w)
| advance_close ws info party :
    clients w !! ws = Some info ->
    parties w !! Player.partyCode info = Some party ->
    advance w (closed ws info party w)
| advance_orphan ws info :
    clients w !! ws = Some info ->
    parties w !! Player.partyCode info = None ->
    advance w {| parties := parties w; clients := delete ws (clients w);
                 cells := cells w; nextId := nextId w; draws := draws w |}.

(** What every player of a world a handler can leave looks like (see
    [Coverage.reachable_tidy]): its party code is one [genCode] made, its
    name and colour are as above, and its id renders an integer between 1
    and [2^53]. *)
Record player_ok (p : Player.t) : Prop := {
  ok_party_code : valid_code (Player.partyCode p);
  ok_name : name_ok (Player.name p);
  ok_color : in_palette (Player.color p);
  ok_id : exists k, 1 <= k <= 2 ^ 53 /\ Player.id p = of_integer k;
}.

(** The counter stays between 1 and [2^53], the keys of [parties] are
    codes, the players are as above, and no two sockets share the cell of
    their [lastState]. *)
Record tidy (w : World) : Prop := {
  tidy_next : 1 <= nextId w <= 2 ^ 53;
  tidy_codes : forall c p, parties w !! c = Some p -> valid_code c;
  tidy_players : forall ws p, clients w !! ws = Some p -> player_ok p;
  tidy_cells : forall ws1 ws2 p1 p2,
    clients w !! ws1 = Some p1 -> clients w !! ws2 = Some p2 ->
    Player.lastState p1 = Player.lastState p2 -> ws1 = ws2;
}.

(** Every player of the directory is a member of the party its
    [partyCode] names. *)
Definition attached (w : World) : Prop :=
  forall ws p, clients w !! ws = Some p ->
    exists party, parties w !! Player.partyCode p = Some party
                  /\ In (Player.id p, p) (Party.members party).

(** The values [(msg.code || '').toUpperCase()] goes through on: a falsy
    value (replaced by the empty string) or a string. *)
Definition has_toUpperCase (v : JVal) : Prop :=
  Js.ToBoolean v = false \/ exists s, v = JStr s.

(** A [state] message one of whose six numeric fields cannot be
    coerced. *)
Definition uncoercible (msg : JVal) : Prop :=
  exists k, In k ["x"; "y"; "z"; "yaw"; "pitch"; "chap"]%string
            /\ unrenderable (Js.get msg k).

(** The messages at which the handler, given [fuel] turns of the loop of
    [create], throws a [TypeError]:
    - [null], off which [msg.type] cannot be read;
    - a [create] from a socket in no party whose name has no [slice], or
      whose name, sliced, cannot be rendered by the log line (the loop
      having found a free code);
    - a [join] from a socket in no party whose code has no [toUpperCase],
      or that found a party with room and whose name has no [slice] or
      cannot be rendered by the log line;
    - a [state] with a field that cannot be coerced, or a [chat] with a
      text that cannot be rendered, from a player whose party exists. *)
Definition throws (fuel : nat) (ws : WS) (msg : JVal) (w : World) : Prop :=
  msg = JNull \/ msg = JUndef
  \/ (has_type msg "create" = true /\ clients w !! ws = None
      /\ (~ sliceable (Js.get msg "name")
          \/ exists name k1 n,
               player_name msg (draws w) = Some (name, k1)
               /\ unrenderable name
               /\ (n <= fuel)%nat /\ parties w !! candidate k1 n = None))
  \/ (has_type msg "join" = true /\ clients w !! ws = None
      /\ (~ has_toUpperCase (Js.get msg "code")
          \/ exists code party,
               join_code msg = Some code /\ parties w !! code = Some party
               /\ (JsMap.size (Party.members party) < 8)%nat
               /\ (~ sliceable (Js.get msg "name")
                   \/ exists name k1,
                        player_name msg (draws w) = Some (name, k1)
                        /\ unrenderable name)))
  \/ ((has_type msg "state" = true /\ uncoercible msg
       \/ has_type msg "chat" = true /\ unrenderable (Js.get msg "text"))
      /\ exists info party,
           clients w !! ws = Some info
           /\ parties w !! Player.partyCode info = Some party).

(** The numbers of [ks] go up, starting above [lo]. *)
Fixpoint ascending (lo : Z) (ks : list Z) : Prop :=
  match ks with
  | [] => True
  | k :: ks' => lo < k /\ ascending k ks'
  end.

(** The keys of the member map of every party render numbers that go
    up, all below the counter. *)
Definition in_join_order (w : World) : Prop :=
  forall c p, parties w !! c = Some p ->
    exists ks, JsMap.keys (Party.members p) = List.map of_integer ks
               /\ ascending 0 ks /\ Forall (fun k => k < nextId w) ks.

(** The members of all the parties, counted party by party. *)
Definition headcount (ps : gmap jsstring Party.t) : nat :=
  map_fold (fun _ p n => (JsMap.size (Party.members p) + n)%nat) 0%nat ps.

End Defs.
End Status.



(** * Properties *)

(** ** The member map *)

Module JsMapFacts.
Section Facts.
Context {K V : Type} `{EqDecision K}.
Implicit Types (k : K) (v : V) (m : list (K * V)).

Lemma In_set k v k' v' m :
  In (k', v') (JsMap.set k v m) -> (k', v') = (k, v) \/ In (k', v') m.
Proof.
  induction m as [|[k0 v0] m IH]; simpl.
  - intros [E|[]]; left; congruence.
  - destruct (decide (k = k0)); simpl; intros [E|E]; auto.
    destruct (IH E); auto.
Qed.

Lemma In_set_old k v k' v' m :
  In (k', v') m -> k' <> k -> In (k', v') (JsMap.set k v m).
Proof.
  induction m as [|[k0 v0] m IH]; simpl; [tauto|].
  intros [E|E] Hne; destruct (decide (k = k0)); simpl; auto.
  inversion E; subst; congruence.
Qed.

Lemma keys_set k v m :
  JsMap.keys (JsMap.set k v m)
  = if decide (k ∈ JsMap.keys m) then JsMap.keys m else JsMap.keys m ++ [k].
Proof.
  induction m as [|[k0 v0] m IH]; simpl; [reflexivity|].
  destruct (decide (k = k0)) as [->|Hne]; simpl.
  - destruct (decide (k0 ∈ k0 :: JsMap.keys m)) as [|Hni]; [reflexivity|].
    exfalso. apply Hni. left.
  - rewrite IH.
    destruct (decide (k ∈ JsMap.keys m)) as [Hin|Hni],
      (decide (k ∈ k0 :: JsMap.keys m)) as [Hin'|Hni']; try reflexivity.
    + exfalso. apply Hni'. now right.
    + exfalso. apply elem_of_cons in Hin' as [?|?]; tauto.
Qed.

Lemma size_set k v m :
  JsMap.size (JsMap.set k v m)
  = if decide (k ∈ JsMap.keys m) then JsMap.size m else S (JsMap.size m).
Proof.
  unfold JsMap.size.
  rewrite <- (length_map fst (JsMap.set k v m)), <- (length_map fst m).
  fold (JsMap.keys (JsMap.set k v m)). fold (JsMap.keys m).
  rewrite keys_set. destruct (decide _); [reflexivity|].
  rewrite length_app; simpl; lia.
Qed.

Lemma size_set_bounds k v m :
  (1 <= JsMap.size (JsMap.set k v m) <= S (JsMap.size m))%nat.
Proof.
  rewrite size_set. destruct (decide _) as [Hin|]; [|lia].
  unfold JsMap.size. destruct m; simpl in *; [|lia].
  now apply elem_of_nil in Hin.
Qed.

Lemma NoDup_keys_set k v m :
  NoDup (JsMap.keys m) -> NoDup (JsMap.keys (JsMap.set k v m)).
Proof.
  intros Hnd. rewrite keys_set. destruct (decide _) as [|Hni]; [assumption|].
  apply NoDup_app. split; [assumption|]. split.
  - intros x Hx Hx'. apply list_elem_of_singleton in Hx'. now subst.
  - apply NoDup_singleton.
Qed.

Lemma In_delete k k' v' m :
  In (k', v') (JsMap.delete k m) <-> In (k', v') m /\ k' <> k.
Proof.
  unfold JsMap.delete. rewrite <- !list_elem_of_In, list_elem_of_filter.
  simpl. tauto.
Qed.

Lemma size_delete_le k m : (JsMap.size (JsMap.delete k m) <= JsMap.size m)%nat.
Proof. apply length_filter. Qed.

Lemma keys_delete k m :
  JsMap.keys (JsMap.delete k m) = filter (fun k' => k' <> k) (JsMap.keys m).
Proof.
  unfold JsMap.delete, JsMap.keys.
  induction m as [|[k0 v0] m IH]; [reflexivity|].
  rewrite filter_cons. simpl. rewrite filter_cons.
  destruct (decide (k0 <> k)); simpl; now rewrite IH.
Qed.

Lemma NoDup_keys_delete k m :
  NoDup (JsMap.keys m) -> NoDup (JsMap.keys (JsMap.delete k m)).
Proof. rewrite keys_delete. apply NoDup_filter. Qed.

End Facts.
End JsMapFacts.

(** ** Strings: the rendering of the counter is injective *)

Module JsStringFacts.

Lemma lit_inj (s1 s2 : string) : lit s1 = lit s2 -> s1 = s2.
Proof.
  unfold lit. intros E.
  rewrite <- (string_of_list_ascii_of_string s1),
          <- (string_of_list_ascii_of_string s2).
  f_equal.
  revert E. generalize (list_ascii_of_string s1) (list_ascii_of_string s2).
  induction l as [|a l IH]; intros [|b l']; simpl; try discriminate; auto.
  intros E. inversion E as [[Ea El]].
  f_equal; [|now apply IH].
  rewrite <- (ascii_N_embedding a), <- (ascii_N_embedding b). now rewrite Ea.
Qed.

Lemma of_integer_inj (a b : Z) :
  0 <= a -> 0 <= b -> of_integer a = of_integer b -> a = b.
Proof.
  unfold of_integer. intros Ha Hb E. apply lit_inj in E.
  assert (E' : Some (N.to_uint (Z.to_N a)) = Some (N.to_uint (Z.to_N b))).
  { rewrite <- !NilEmpty.usu. now rewrite E. }
  inversion E' as [E'']. apply DecimalN.Unsigned.to_uint_inj in E''. lia.
Qed.

Lemma slice0_length n s : (length (slice0 n s) <= n)%nat.
Proof. unfold slice0. rewrite length_take. lia. Qed.

Lemma slice0_prefix n s : exists r, s = slice0 n s ++ r.
Proof. exists (drop n s). unfold slice0. now rewrite take_drop. Qed.

End JsStringFacts.

(** ** Coercions *)

Module JsFacts.
Section Facts.
Context `{Host}.
Import Spec.

(** Induction over JSON values, through the elements of arrays. *)
Lemma JVal_nested_ind (P : JVal -> Prop) :
  P JUndef -> P JNull -> (forall b, P (JBool b)) -> (forall n, P (JNum n)) ->
  (forall s, P (JStr s)) -> (forall l, Forall P l -> P (JArr l)) ->
  (forall fs, P (JObj fs)) -> forall v, P v.
Proof.
  intros Hu Hn Hb Hnum Hs Ha Ho. fix IH 1.
  intros [| |b|n|s|l|fs];
    [exact Hu|exact Hn|apply Hb|apply Hnum|apply Hs| |apply Ho].
  apply Ha. revert l. fix IHl 1.
  intros [|e l]; constructor; [apply IH|apply IHl].
Qed.

Lemma elements_None render l :
  Js.elements render l = None
  <-> exists e, In e l /\ e <> JUndef /\ e <> JNull /\ render e = None.
Proof.
  induction l as [|e l IH]; cbn [Js.elements].
  - split; [discriminate|intros (? & [] & _)].
  - fold (Js.elements render l).
    destruct (match e with JUndef | JNull => Some [] | _ => render e end)
      as [s0|] eqn:E.
    + destruct (Js.elements render l) as [ss|]; cbn [option_map].
      * split; [discriminate|]. intros (e' & [<-|Hin] & Hu & Hn & He).
        -- destruct e; congruence.
        -- assert (Hx : Some ss = None) by (apply (proj2 IH); eauto).
           discriminate Hx.
      * split; [|reflexivity]. intros _.
        destruct (proj1 IH eq_refl) as (e' & Hin & Hx). exists e'.
        split; [now right|exact Hx].
    + split; [|reflexivity]. intros _. exists e.
      split; [now left|]. destruct e; try discriminate; auto.
Qed.

(** ToString throws exactly on the values that hold, at some depth of
    arrays, an object with an own [toString]. *)
Lemma ToString_None v : Js.ToString v = None <-> unrenderable v.
Proof.
  induction v as [| |b|n|s|l IH|fs] using JVal_nested_ind;
    try (split; [try destruct b; discriminate|intros Hx; inversion Hx]).
  - cbn [Js.ToString].
    assert (E : option_map (join (lit ",")) (Js.elements Js.ToString l) = None
                <-> Js.elements Js.ToString l = None).
    { destruct (Js.elements Js.ToString l); cbn; split; congruence. }
    rewrite E, elements_None. rewrite Forall_forall in IH. split.
    + intros (e & Hin & _ & _ & He). apply (unrenderable_array l e Hin).
      apply IH; [now apply list_elem_of_In|assumption].
    + intros Hx. inversion Hx as [|l' e Hin He]; subst. exists e.
      split; [assumption|].
      split; [intros ->; inversion He|]. split; [intros ->; inversion He|].
      apply IH; [now apply list_elem_of_In|assumption].
  - cbn [Js.ToString]. destruct (Js.has_own (lit "toString") fs) eqn:E.
    + split; [|reflexivity]. intros _. now constructor.
    + split; [discriminate|]. intros Hx. inversion Hx. congruence.
Qed.

Lemma ToNumber_None v : Js.ToNumber v = None <-> unrenderable v.
Proof.
  rewrite <- ToString_None.
  destruct v as [| |[]|n|s|l|fs]; cbn [Js.ToNumber];
    try (split; discriminate);
    destruct (Js.ToString _); cbn; split; congruence.
Qed.

Lemma renders v : is_Some (Js.ToString v) <-> ~ unrenderable v.
Proof.
  rewrite <- ToString_None. destruct (Js.ToString v); split;
    try congruence; eauto. intros [? [=]].
Qed.

(** A falsy value has a falsy number. *)
Lemma falsy_ToNumber v :
  Js.ToBoolean v = false ->
  exists n, Js.ToNumber v = Some n /\ truthy n = false.
Proof.
  destruct v as [| |[]|n|[|c s]|l|fs]; simpl; try discriminate; eauto.
Qed.

Lemma num_or_Some v d r :
  Js.num_or v d = Some r
  <-> exists n, Js.ToNumber v = Some n /\ r = if truthy n then n else d.
Proof.
  unfold Js.num_or. destruct (Js.ToNumber v) as [n|]; cbn [option_map].
  - split; [intros [= <-]; eauto|intros (n' & [= <-] & ->); reflexivity].
  - split; [discriminate|intros (? & [=] & _)].
Qed.

Lemma num_or_None v d : Js.num_or v d = None <-> unrenderable v.
Proof.
  rewrite <- ToNumber_None. unfold Js.num_or.
  destruct (Js.ToNumber v); cbn; split; congruence.
Qed.

Lemma num_or_falsy v d : Js.ToBoolean v = false -> Js.num_or v d = Some d.
Proof.
  intros Hf. destruct (falsy_ToNumber v Hf) as (n & E & Hn).
  apply num_or_Some. exists n. now rewrite Hn.
Qed.

Lemma or_falsy v d : Js.ToBoolean v = false -> Js.or v d = d.
Proof. intros E. unfold Js.or. now rewrite E. Qed.

Lemma or_truthy v d : Js.ToBoolean v = true -> Js.or v d = v.
Proof. intros E. unfold Js.or. now rewrite E. Qed.

(** What [+v || d] gives when it gives something. *)
Lemma coerced_num_or d v r : Js.num_or v d = Some r -> coerced d v r.
Proof.
  intros E. apply num_or_Some in E as (n & En & ->).
  assert (Hgen : forall n', Js.ToNumber v = Some n' ->
            (if truthy n then n else d) = if truthy n' then n' else d).
  { intros n' E'. rewrite En in E'. now inversion E'. }
  unfold coerced. repeat split.
  - intros ->. now rewrite (Hgen NaN eq_refl).
  - intros Hf. destruct (falsy_ToNumber v Hf) as (n' & E' & Hn').
    now rewrite (Hgen n' E'), Hn'.
  - intros n' E' Hn'. now rewrite (Hgen n' E'), Hn'.
  - intros n' E' Hn'. now rewrite (Hgen n' E'), Hn'.
  - intros n' -> Hn'. now rewrite (Hgen n' eq_refl), Hn'.
  - intros s -> Hs. now rewrite (Hgen _ eq_refl), Hs.
  - intros ->. now rewrite (Hgen NaN ltac:(vm_compute; reflexivity)).
  - intros fs -> Hno.
    assert (E' : Js.ToNumber (JObj fs) = Some NaN).
    { cbn [Js.ToNumber Js.ToString]. rewrite Hno. vm_compute. reflexivity. }
    now rewrite (Hgen NaN E').
  - intros ->. now rewrite (Hgen _ eq_refl).
Qed.

End Facts.
End JsFacts.

(** ** The ways through the handlers *)

Module HandlerFacts.
Section Facts.
Context `{Host}.
Import Server Spec.

Lemma template_None pieces :
  template pieces = None <-> Exists (fun p => Js.ToString p = None) pieces.
Proof.
  induction pieces as [|p pieces IH]; cbn [template].
  - rewrite Exists_nil. split; [discriminate|tauto].
  - rewrite Exists_cons, <- IH. destruct (Js.ToString p); [|tauto].
    destruct (template pieces); cbn; split;
      try discriminate; try tauto; intros [|]; discriminate.
Qed.

(** The log lines throw exactly when the name cannot be rendered. *)
Lemma log_created_None code name id :
  log_created code name id = None <-> Js.ToString name = None.
Proof.
  unfold log_created. rewrite template_None, !Exists_cons, Exists_nil.
  cbn [Js.ToString]. split; [|tauto].
  intros [|[|[|[|[|[|[|]]]]]]]; try discriminate; tauto.
Qed.

Lemma log_joined_None name id code :
  log_joined name id code = None <-> Js.ToString name = None.
Proof.
  unfold log_joined. rewrite template_None, !Exists_cons, Exists_nil.
  cbn [Js.ToString]. split; [|tauto].
  intros [|[|[|[|[|[|]]]]]]; try discriminate; tauto.
Qed.

Lemma log_left_None name code :
  log_left name code = None <-> Js.ToString name = None.
Proof.
  unfold log_left. rewrite template_None, !Exists_cons, Exists_nil.
  cbn [Js.ToString]. split; [|tauto].
  intros [|[|[|[|]]]]; try discriminate; tauto.
Qed.

Lemma logged_renders (line : option jsstring) name :
  (line = None <-> Js.ToString name = None) ->
  forall l, line = Some l -> is_Some (Js.ToString name).
Proof.
  intros Hiff l Hl. apply not_eq_None_Some. intros E.
  apply Hiff in E. congruence.
Qed.

Lemma renders_logged (line : option jsstring) name :
  (line = None <-> Js.ToString name = None) ->
  is_Some (Js.ToString name) -> exists l, line = Some l.
Proof.
  intros Hiff [s Hs]. destruct line as [l|]; [eauto|].
  pose proof (proj1 Hiff eq_refl). congruence.
Qed.

Lemma on_create_case fuel ws msg w :
  create_case fuel ws msg w (on_create fuel ws msg w).
Proof.
  unfold on_create.
  destruct (clients w !! ws) as [info|] eqn:Hcl; [econstructor; eassumption|].
  destruct (player_name msg (draws w)) as [[name k1]|] eqn:Hname;
    [|now constructor].
  destruct (genCode k1) as [code0 k2] eqn:Hgen.
  destruct (fresh_code fuel (parties w) code0 k2) as [[code k3]|] eqn:Hfresh.
  - destruct (log_created code name (of_integer (nextId w))) as [line|] eqn:Hlog.
    + eapply create_done; eassumption.
    + eapply create_log_throws; eassumption.
  - eapply create_spins; eassumption.
Qed.

Lemma on_join_case ws msg w : join_case ws msg w (on_join ws msg w).
Proof.
  unfold on_join.
  destruct (clients w !! ws) as [info|] eqn:Hcl; [econstructor; eassumption|].
  destruct (join_code msg) as [code|] eqn:Hcode; [|now constructor].
  destruct (parties w !! code) as [party|] eqn:Hparty; [|now constructor].
  destruct (Nat.leb_spec 8 (JsMap.size (Party.members party))) as [Hfull|Hroom].
  - eapply join_full; eassumption.
  - destruct (player_name msg (draws w)) as [[name k1]|] eqn:Hname.
    + destruct (log_joined name (of_integer (nextId w)) code) as [line|] eqn:Hlog.
      * eapply join_done; eassumption.
      * eapply join_log_throws; eassumption.
    + eapply join_throws; eassumption.
Qed.

Lemma on_state_case ws msg w : state_case ws msg w (on_state ws msg w).
Proof.
  unfold on_state.
  destruct (clients w !! ws) as [info|] eqn:Hcl; [|now constructor].
  destruct (parties w !! Player.partyCode info) as [party|] eqn:Hparty;
    [|econstructor; eassumption].
  destruct (state_of msg) as [st|] eqn:Hst.
  - eapply state_done; eassumption.
  - eapply state_throws; eassumption.
Qed.

Lemma on_chat_case ws msg w : chat_case ws msg w (on_chat ws msg w).
Proof.
  unfold on_chat.
  destruct (clients w !! ws) as [info|] eqn:Hcl; [|now constructor].
  destruct (parties w !! Player.partyCode info) as [party|] eqn:Hparty;
    [|econstructor; eassumption].
  destruct (chat_text msg) as [text|] eqn:Htext.
  - eapply chat_done; eassumption.
  - eapply chat_throws; eassumption.
Qed.

Lemma on_close_case ws w : close_case ws w (on_close ws w).
Proof.
  unfold on_close.
  destruct (clients w !! ws) as [info|] eqn:Hcl; [|now constructor].
  destruct (parties w !! Player.partyCode info) as [party|] eqn:Hparty;
    [|econstructor; eassumption].
  destruct (log_left (Player.name info) (Player.partyCode info))
    as [line|] eqn:Hlog.
  - eapply close_done; eassumption.
  - eapply close_throws; eassumption.
Qed.

Lemma on_message_case fuel ws msg w :
  message_case fuel ws w msg (on_message fuel ws (Some msg) w).
Proof.
  assert (E : (msg = JNull \/ msg = JUndef)
            \/ (msg <> JNull /\ msg <> JUndef
                /\ on_message fuel ws (Some msg) w
                   = if Js.is_lit (Js.get msg "type") "create" then on_create fuel ws msg w
                     else if Js.is_lit (Js.get msg "type") "join" then on_join ws msg w
                     else if Js.is_lit (Js.get msg "type") "state" then on_state ws msg w
                     else if Js.is_lit (Js.get msg "type") "chat" then on_chat ws msg w
                     else if Js.is_lit (Js.get msg "type") "event" then on_event ws msg w
                     else returned w [])).
  { destruct msg; auto; right; repeat split; discriminate. }
  destruct E as [Hnull|(Hnn & Hnu & E)].
  { assert (E : on_message fuel ws (Some msg) w = threw w)
      by (destruct Hnull; subst; reflexivity).
    rewrite E. now constructor. }
  rewrite E.
  destruct (Js.is_lit (Js.get msg "type") "create") eqn:E1; [now constructor|].
  destruct (Js.is_lit (Js.get msg "type") "join") eqn:E2; [now constructor|].
  destruct (Js.is_lit (Js.get msg "type") "state") eqn:E3; [now constructor|].
  destruct (Js.is_lit (Js.get msg "type") "chat") eqn:E4; [now constructor|].
  destruct (Js.is_lit (Js.get msg "type") "event") eqn:E5; [now constructor|].
  now constructor.
Qed.

(** The [event] branch always returns and leaves the world as it is. *)
Lemma on_event_returns ws msg w :
  completion (on_event ws msg w) = Returned /\ world (on_event ws msg w) = w.
Proof.
  unfold on_event. destruct (clients w !! ws) as [info|]; [|now split].
  destruct (parties w !! Player.partyCode info); now split.
Qed.

End Facts.
End HandlerFacts.

(** ** The invariants of the two maps *)

Module Invariant.
Section Inv.
Context `{Host}.
Import Server Spec.

Lemma incr_spec n : n <= incr n /\ (incr n < 2 ^ 53 -> incr n = n + 1).
Proof. unfold incr. destruct (Z.ltb_spec n (2 ^ 53)); lia. Qed.

Lemma dir_ok_incr cl n next : dir_ok cl n next -> dir_ok cl n (incr next).
Proof.
  intros [Hn Hc Hi Hj]. destruct (incr_spec next) as [Hle Heq].
  split; [lia|assumption| |].
  - intros Hlt ws p Hp. destruct (Hi ltac:(lia) ws p Hp) as (k & Hk & E).
    exists k. split; [lia|assumption].
  - intros Hlt. apply Hj. lia.
Qed.

Lemma dir_ok_alloc cl n next ws name color code :
  dir_ok cl n next -> cl !! ws = None ->
  dir_ok (<[ws := Player.mk (of_integer next) name color ws code n]> cl)
         (S n) (incr next).
Proof.
  intros [Hn Hc Hi Hj] Hnone. destruct (incr_spec next) as [Hle Heq].
  split; [lia| | |].
  - intros ws' p Hp. apply lookup_insert_Some in Hp as [[<- <-]|[_ Hp]].
    + simpl. split; [reflexivity|lia].
    + destruct (Hc _ _ Hp). split; [assumption|lia].
  - intros Hlt ws' p Hp. apply lookup_insert_Some in Hp as [[<- <-]|[_ Hp]].
    + exists next. simpl. split; [lia|reflexivity].
    + destruct (Hi ltac:(lia) _ _ Hp) as (k & Hk & E). exists k.
      split; [lia|assumption].
  - intros Hlt ws1 ws2 p1 p2 H1 H2 E.
    assert (Hfresh : forall ws' p, cl !! ws' = Some p ->
              Player.id p <> of_integer next).
    { intros ws' p Hp Eid. destruct (Hi ltac:(lia) _ _ Hp) as (k & Hk & E').
      rewrite E' in Eid. apply JsStringFacts.of_integer_inj in Eid; lia. }
    apply lookup_insert_Some in H1 as [[<- <-]|[_ H1]];
      apply lookup_insert_Some in H2 as [[<- <-]|[_ H2]]; simpl in E.
    + reflexivity.
    + exfalso. now apply (Hfresh _ _ H2).
    + exfalso. now apply (Hfresh _ _ H1).
    + apply (Hj ltac:(lia) _ _ _ _ H1 H2 E).
Qed.

Lemma dir_ok_delete cl n next ws : dir_ok cl n next -> dir_ok (delete ws cl) n next.
Proof.
  intros [Hn Hc Hi Hj]. split; [assumption| | |].
  - intros ws' p Hp. apply lookup_delete_Some in Hp as [_ Hp]. eauto.
  - intros Hlt ws' p Hp. apply lookup_delete_Some in Hp as [_ Hp]. eauto.
  - intros Hlt ws1 ws2 p1 p2 H1 H2.
    apply lookup_delete_Some in H1 as [_ H1].
    apply lookup_delete_Some in H2 as [_ H2]. eauto.
Qed.

(** A party that was fine stays fine when a socket that was not in the
    directory enters it. *)
Lemma party_ok_insert cl c p ws pl :
  cl !! ws = None -> party_ok cl c p -> party_ok (<[ws := pl]> cl) c p.
Proof.
  intros Hnone [Hc Hs Hk Hm]. split; try assumption.
  intros id m Hin. destruct (Hm id m Hin) as (E1 & E2 & E3).
  repeat split; try assumption.
  rewrite lookup_insert_ne; [assumption|]. congruence.
Qed.

Lemma fresh_code_absent fuel ps code k c k' :
  fresh_code fuel ps code k = Some (c, k') -> ps !! c = None.
Proof.
  revert code k. induction fuel as [|fuel IH]; intros code k; simpl.
  - destruct (ps !! code) eqn:E; [discriminate|]. now intros [= <- <-].
  - destruct (ps !! code) eqn:E; [|now intros [= <- <-]].
    destruct (genCode k) as [code' k1]. apply IH.
Qed.

Lemma wf_counters w k : wf w -> wf (with_counters w (incr (nextId w)) k).
Proof.
  intros [Hd Hp]. split; simpl; [now apply dir_ok_incr|assumption].
Qed.

Lemma wf_created ws name code k w :
  wf w -> clients w !! ws = None -> parties w !! code = None ->
  wf (created ws name code k w).
Proof.
  intros [Hd Hp] Hcl Hfree. unfold created. split; cbn [parties clients cells nextId].
  - rewrite length_app. simpl.
    replace (length (cells w) + 1)%nat with (S (length (cells w))) by lia.
    now apply dir_ok_alloc.
  - intros c p Hlk. apply lookup_insert_Some in Hlk as [[<- <-]|[Hne Hlk]].
    + split; simpl; [reflexivity|lia|apply NoDup_singleton|].
      intros id m [[= <- <-]|[]]. simpl.
      repeat split. apply lookup_insert_eq.
    + apply party_ok_insert; auto.
Qed.

Lemma wf_joined ws name code party k w :
  wf w -> clients w !! ws = None -> parties w !! code = Some party ->
  (JsMap.size (Party.members party) < 8)%nat ->
  wf (joined ws name code party k w).
Proof.
  intros [Hd Hp] Hcl Hparty Hroom. unfold joined.
  split; cbn [parties clients cells nextId].
  - rewrite length_app. simpl.
    replace (length (cells w) + 1)%nat with (S (length (cells w))) by lia.
    now apply dir_ok_alloc.
  - intros c p Hlk. apply lookup_insert_Some in Hlk as [[<- <-]|[Hne Hlk]].
    + destruct (Hp _ _ Hparty) as [Hc Hs Hk Hm].
      split; simpl.
      * assumption.
      * pose proof (JsMapFacts.size_set_bounds (of_integer (nextId w))
          (Player.mk (of_integer (nextId w)) name (player_color (incr (nextId w)))
             ws code (length (cells w))) (Party.members party)). lia.
      * now apply JsMapFacts.NoDup_keys_set.
      * intros id m Hin. apply JsMapFacts.In_set in Hin as [[= -> ->]|Hin].
        -- simpl. repeat split. apply lookup_insert_eq.
        -- destruct (Hm id m Hin) as (E1 & E2 & E3).
           repeat split; try assumption.
           rewrite lookup_insert_ne; [assumption|]. congruence.
    + apply party_ok_insert; auto.
Qed.

Lemma wf_stated info st w : wf w -> wf (stated info st w).
Proof.
  intros [Hd Hp]. split; simpl; [|assumption]. now rewrite length_insert.
Qed.

(** The only members that sit on socket [ws] are entries of the party of
    the player the directory holds for [ws], under that player's id. *)
Lemma member_on_socket w ws info c p id m :
  wf w -> clients w !! ws = Some info ->
  parties w !! c = Some p -> In (id, m) (Party.members p) ->
  Player.ws m = ws -> c = Player.partyCode info /\ id = Player.id info.
Proof.
  intros [_ Hp] Hcl Hlk Hin Hws.
  destruct (ok_member _ _ _ (Hp _ _ Hlk) id m Hin) as (E1 & E2 & E3).
  rewrite Hws, Hcl in E3. inversion E3; subst. auto.
Qed.

(** The party a player leaves, without the player. *)
Lemma party_ok_left w ws info party :
  wf w -> clients w !! ws = Some info ->
  parties w !! Player.partyCode info = Some party ->
  party_ok (delete ws (clients w)) (Player.partyCode info)
    (Party.mk (Party.code party)
       (JsMap.delete (Player.id info) (Party.members party)))
  /\ party_ok (clients w) (Player.partyCode info)
       (Party.mk (Party.code party)
          (JsMap.delete (Player.id info) (Party.members party))).
Proof.
  intros Hwf Hcl Hparty.
  destruct (wf_parties _ Hwf _ _ Hparty) as [Hc Hs Hk Hm].
  pose proof (JsMapFacts.size_delete_le (Player.id info) (Party.members party)).
  split; (split; simpl;
    [assumption|lia|now apply JsMapFacts.NoDup_keys_delete|]);
    intros id m Hin; apply JsMapFacts.In_delete in Hin as [Hin Hid];
    destruct (Hm id m Hin) as (E1 & E2 & E3); repeat split; try assumption.
  rewrite lookup_delete_ne; [assumption|]. intros Hws. symmetry in Hws.
  destruct (member_on_socket w ws info _ party id m Hwf Hcl Hparty Hin Hws).
  tauto.
Qed.

(** The other parties, once the socket is out of the directory. *)
Lemma party_ok_others w ws info c p :
  wf w -> clients w !! ws = Some info ->
  parties w !! c = Some p -> c <> Player.partyCode info ->
  party_ok (delete ws (clients w)) c p.
Proof.
  intros Hwf Hcl Hlk Hne. destruct (wf_parties _ Hwf _ _ Hlk) as [Hc Hs Hk Hm].
  split; try assumption. intros id m Hin.
  destruct (Hm id m Hin) as (E1 & E2 & E3). repeat split; try assumption.
  rewrite lookup_delete_ne; [assumption|]. intros Hws. symmetry in Hws.
  destruct (member_on_socket w ws info c p id m Hwf Hcl Hlk Hin Hws). tauto.
Qed.

Lemma wf_closed ws info party w :
  wf w -> clients w !! ws = Some info ->
  parties w !! Player.partyCode info = Some party ->
  wf (closed ws info party w).
Proof.
  intros Hwf Hcl Hparty. unfold closed.
  split; cbn [parties clients cells nextId]; [apply dir_ok_delete, Hwf|].
  intros c p Hlk.
  destruct (decide (c = Player.partyCode info)) as [->|Hne].
  - destruct (JsMap.size _ =? 0)%nat.
    + rewrite lookup_delete_eq in Hlk. discriminate.
    + rewrite lookup_insert_eq in Hlk. inversion Hlk; subst p.
      exact (proj1 (party_ok_left w ws info party Hwf Hcl Hparty)).
  - apply (party_ok_others w ws info c p Hwf Hcl); [|assumption].
    destruct (JsMap.size _ =? 0)%nat.
    + now apply lookup_delete_Some in Hlk as [_ Hlk].
    + now rewrite lookup_insert_ne in Hlk.
Qed.

Lemma wf_half_closed ws info party w :
  wf w -> clients w !! ws = Some info ->
  parties w !! Player.partyCode info = Some party ->
  wf (half_closed info party w).
Proof.
  intros Hwf Hcl Hparty. unfold half_closed.
  split; cbn [parties clients cells nextId]; [apply Hwf|].
  intros c p Hlk. apply lookup_insert_Some in Hlk as [[<- <-]|[_ Hlk]].
  - exact (proj2 (party_ok_left w ws info party Hwf Hcl Hparty)).
  - exact (wf_parties _ Hwf _ _ Hlk).
Qed.

Lemma wf_orphan ws info w :
  wf w -> clients w !! ws = Some info ->
  parties w !! Player.partyCode info = None ->
  wf {| parties := parties w; clients := delete ws (clients w);
        cells := cells w; nextId := nextId w; draws := draws w |}.
Proof.
  intros Hwf Hcl Hparty.
  split; cbn [parties clients cells nextId]; [apply dir_ok_delete, Hwf|].
  intros c p Hlk. apply (party_ok_others w ws info c p Hwf Hcl Hlk). congruence.
Qed.

Lemma wf_on_create fuel ws msg w : wf w -> wf (world (on_create fuel ws msg w)).
Proof.
  intros Hwf.
  destruct (HandlerFacts.on_create_case fuel ws msg w)
    as [info Hcl|Hcl Hname|name k1 code0 k2 Hcl Hname Hgen Hfresh
       |name k1 code0 k2 code k3 Hcl Hname Hgen Hfresh Hlog
       |name k1 code0 k2 code k3 line Hcl Hname Hgen Hfresh Hlog];
    cbn [world returned threw spinning].
  - exact Hwf.
  - now apply wf_counters.
  - now apply wf_counters.
  - apply wf_created; [assumption..|]. eapply fresh_code_absent; eassumption.
  - apply wf_created; [assumption..|]. eapply fresh_code_absent; eassumption.
Qed.

Lemma wf_on_join ws msg w : wf w -> wf (world (on_join ws msg w)).
Proof.
  intros Hwf.
  destruct (HandlerFacts.on_join_case ws msg w);
    cbn [world returned threw]; auto using wf_counters, wf_joined.
Qed.

Lemma wf_on_state ws msg w : wf w -> wf (world (on_state ws msg w)).
Proof.
  intros Hwf. destruct (HandlerFacts.on_state_case ws msg w);
    cbn [world returned threw]; auto using wf_stated.
Qed.

Lemma wf_on_chat ws msg w : wf w -> wf (world (on_chat ws msg w)).
Proof.
  intros Hwf. now destruct (HandlerFacts.on_chat_case ws msg w).
Qed.

Lemma wf_on_event ws msg w : wf w -> wf (world (on_event ws msg w)).
Proof.
  intros Hwf. now rewrite (proj2 (HandlerFacts.on_event_returns ws msg w)).
Qed.

Lemma wf_on_message fuel ws parsed w :
  wf w -> wf (world (on_message fuel ws parsed w)).
Proof.
  intros Hwf. destruct parsed as [msg|]; [|exact Hwf].
  destruct (HandlerFacts.on_message_case fuel ws msg w);
    auto using wf_on_create, wf_on_join, wf_on_state, wf_on_chat, wf_on_event.
Qed.

Lemma wf_on_close ws w : wf w -> wf (world (on_close ws w)).
Proof.
  intros Hwf. destruct (HandlerFacts.on_close_case ws w);
    cbn [world returned threw_after].
  - exact Hwf.
  - now apply (wf_orphan ws info).
  - now apply (wf_half_closed ws).
  - now apply wf_closed.
Qed.

Lemma wf_init : wf init.
Proof.
  split; simpl.
  - split; try lia; intros; now rewrite ?lookup_empty in *.
  - intros c p Hlk. now rewrite lookup_empty in Hlk.
Qed.

(** The invariant of every world a handler can leave. *)
Theorem reachable_wf w : reachable w -> wf w.
Proof.
  induction 1; auto using wf_init, wf_on_message, wf_on_close.
Qed.

(** *** While no handler has thrown *)

Lemma alive_reachable w : alive w -> reachable w.
Proof. induction 1; now constructor. Qed.

Lemma live_created ws name code k w :
  live w -> clients w !! ws = None -> parties w !! code = None ->
  is_Some (Js.ToString name) -> live (created ws name code k w).
Proof.
  intros [Hwf Hs Hn] Hcl Hfree Hname.
  split; [now apply wf_created| |]; unfold created; cbn [parties clients].
  - intros c p Hlk. apply lookup_insert_Some in Hlk as [[_ <-]|[_ Hlk]];
      [simpl; lia|eauto].
  - intros ws' p Hlk. apply lookup_insert_Some in Hlk as [[_ <-]|[_ Hlk]]; eauto.
Qed.

Lemma live_joined ws name code party k w :
  live w -> clients w !! ws = None -> parties w !! code = Some party ->
  (JsMap.size (Party.members party) < 8)%nat ->
  is_Some (Js.ToString name) -> live (joined ws name code party k w).
Proof.
  intros [Hwf Hs Hn] Hcl Hparty Hroom Hname.
  split; [now apply wf_joined| |]; unfold joined; cbn [parties clients].
  - intros c p Hlk. apply lookup_insert_Some in Hlk as [[_ <-]|[_ Hlk]];
      [|eauto].
    cbn [Party.members].
    pose proof (JsMapFacts.size_set_bounds (of_integer (nextId w))
      (Player.mk (of_integer (nextId w)) name (player_color (incr (nextId w)))
         ws code (length (cells w))) (Party.members party)). lia.
  - intros ws' p Hlk. apply lookup_insert_Some in Hlk as [[_ <-]|[_ Hlk]]; eauto.
Qed.

Lemma live_closed ws info party w :
  live w -> clients w !! ws = Some info ->
  parties w !! Player.partyCode info = Some party ->
  live (closed ws info party w).
Proof.
  intros [Hwf Hs Hn] Hcl Hparty.
  split; [now apply wf_closed| |]; unfold closed; cbn [parties clients].
  - intros c p Hlk.
    destruct (Nat.eqb_spec
                (JsMap.size (JsMap.delete (Player.id info) (Party.members party))) 0)
      as [Hz|Hnz].
    + apply lookup_delete_Some in Hlk as [_ Hlk]. eauto.
    + apply lookup_insert_Some in Hlk as [[_ <-]|[_ Hlk]]; [|eauto].
      cbn [Party.members]. lia.
  - intros ws' p Hlk. apply lookup_delete_Some in Hlk as [_ Hlk]. eauto.
Qed.

Lemma live_orphan ws info w :
  live w -> clients w !! ws = Some info ->
  parties w !! Player.partyCode info = None ->
  live {| parties := parties w; clients := delete ws (clients w);
          cells := cells w; nextId := nextId w; draws := draws w |}.
Proof.
  intros [Hwf Hs Hn] Hcl Hparty.
  split; [now apply (wf_orphan ws info)|exact Hs|]; cbn [clients].
  intros ws' p Hlk. apply lookup_delete_Some in Hlk as [_ Hlk]. eauto.
Qed.

Lemma live_on_message fuel ws parsed w :
  live w -> completion (on_message fuel ws parsed w) = Returned ->
  live (world (on_message fuel ws parsed w)).
Proof.
  intros Hl. destruct parsed as [msg|]; [|intros _; exact Hl].
  destruct (HandlerFacts.on_message_case fuel ws msg w).
  - discriminate.
  - destruct (HandlerFacts.on_create_case fuel ws msg w)
      as [info Hcl|Hcl Hname|name k1 code0 k2 Hcl Hname Hgen Hfresh
         |name k1 code0 k2 code k3 Hcl Hname Hgen Hfresh Hlog
         |name k1 code0 k2 code k3 line Hcl Hname Hgen Hfresh Hlog];
      cbn [world completion returned threw spinning]; try discriminate;
      intros _; [exact Hl|].
    apply live_created; try assumption.
    + eapply fresh_code_absent; eassumption.
    + exact (HandlerFacts.logged_renders _ _
               (HandlerFacts.log_created_None _ _ _) _ Hlog).
  - destruct (HandlerFacts.on_join_case ws msg w)
      as [info Hcl|Hcl Hcode|code Hcl Hcode Hparty|code party Hcl Hcode Hparty Hfull
         |code party Hcl Hcode Hparty Hroom Hname
         |code party name k1 Hcl Hcode Hparty Hroom Hname Hlog
         |code party name k1 line Hcl Hcode Hparty Hroom Hname Hlog];
      cbn [world completion returned threw]; try discriminate;
      intros _; try exact Hl.
    apply live_joined; try assumption.
    exact (HandlerFacts.logged_renders _ _
             (HandlerFacts.log_joined_None _ _ _) _ Hlog).
  - destruct (HandlerFacts.on_state_case ws msg w);
      cbn [world completion returned threw]; try discriminate;
      intros _; try exact Hl.
    destruct Hl as [Hwf Hs Hn]. split; [now apply wf_stated|exact Hs|exact Hn].
  - destruct (HandlerFacts.on_chat_case ws msg w);
      cbn [world completion returned threw]; try discriminate;
      intros _; exact Hl.
  - intros _. now rewrite (proj2 (HandlerFacts.on_event_returns ws msg w)).
  - intros _. exact Hl.
Qed.

Lemma live_on_close ws w :
  live w -> completion (on_close ws w) = Returned -> live (world (on_close ws w)).
Proof.
  intros Hl. destruct (HandlerFacts.on_close_case ws w);
    cbn [world completion returned threw_after]; try discriminate; intros _.
  - exact Hl.
  - now apply (live_orphan ws info).
  - now apply live_closed.
Qed.

Lemma live_init : live init.
Proof.
  split; [apply wf_init| |]; cbn [init parties clients];
    intros ? ? Hlk; now rewrite lookup_empty in Hlk.
Qed.

(** The invariant of the worlds of a process in which no handler has
    thrown. *)
Theorem alive_live w : alive w -> live w.
Proof.
  induction 1; auto using live_init, live_on_message, live_on_close.
Qed.

(** In such a world the close handler returns. *)
Lemma live_close_returns ws w : live w -> completion (on_close ws w) = Returned.
Proof.
  intros Hl. destruct (HandlerFacts.on_close_case ws w)
    as [Hcl|info Hcl Hparty|info party Hcl Hparty Hlog|info party line Hcl Hparty Hlog];
    try reflexivity.
  apply HandlerFacts.log_left_None in Hlog.
  destruct (live_names _ Hl _ _ Hcl) as [s Hs]. congruence.
Qed.

End Inv.
End Invariant.

(** ** What the handlers send *)

Module SendFacts.
Section Facts.
Import Server.

Lemma In_broadcast party obj ex to m :
  In (to, m) (broadcast party obj ex) <->
  m = obj /\ exists id pl, In (id, pl) (Party.members party)
                          /\ Some id <> ex /\ Player.ws pl = to.
Proof.
  unfold broadcast. rewrite in_flat_map. split.
  - intros ([id pl] & Hin & Hsend).
    destruct (decide (Some id = ex)); [destruct Hsend|].
    destruct Hsend as [[= <- <-]|[]]. split; [reflexivity|]. eauto.
  - intros (-> & id & pl & Hin & Hne & <-). exists (id, pl).
    split; [assumption|]. destruct (decide (Some id = ex)); [tauto|]. now left.
Qed.

(** The sockets a broadcast calls [send] on, in order. *)
Lemma broadcast_recipients party obj ex :
  List.map fst (broadcast party obj ex)
  = List.map (fun e => Player.ws (snd e))
      (filter (fun e => Some (fst e) <> ex) (Party.members party)).
Proof.
  unfold broadcast. induction (Party.members party) as [|[id pl] l IH];
    [reflexivity|].
  simpl. rewrite filter_cons. simpl.
  destruct (decide (Some id = ex)), (decide (Some id <> ex)); try tauto;
    simpl; now rewrite IH.
Qed.

(** Without an excluded id every member is called once, in order. *)
Lemma broadcast_all party obj :
  broadcast party obj None
  = List.map (fun e => (Player.ws (snd e), obj)) (Party.members party).
Proof.
  unfold broadcast. induction (Party.members party) as [|[id pl] l IH];
    [reflexivity|].
  cbn [flat_map List.map]. rewrite IH.
  destruct (decide (Some id = None)); [discriminate|reflexivity].
Qed.

(** On the wire, the calls on open sockets, in order. *)
Lemma wire_filter readyState calls :
  wire readyState calls = filter (fun c => readyState (fst c) = 1) calls.
Proof.
  unfold wire. induction calls as [|c calls IH]; [reflexivity|].
  simpl. rewrite filter_cons, IH. unfold send.
  destruct (Z.eqb_spec (readyState (fst c)) 1), (decide (readyState (fst c) = 1));
    try tauto; reflexivity.
Qed.

End Facts.
End SendFacts.

(** ** The properties of the specification *)

Module PartySpec.
Section Claims.
Context `{Host}.
Import Server Spec Status Invariant.

(** X27. No party ever has a ninth member: in every world a handler can
    leave, whether or not a handler has thrown on the way, every party
    present in [parties] has at most 8 members. *)
Theorem X27_never_nine w c p :
  reachable w -> parties w !! c = Some p ->
  (JsMap.size (Party.members p) <= 8)%nat.
Proof.
  intros Hr Hlk. apply reachable_wf in Hr.
  exact (ok_size _ _ _ (wf_parties _ Hr _ _ Hlk)).
Qed.

(** C3. In every world of a server in which no handler has thrown (an
    uncaught exception ends the process), reached through [create],
    [join], [state], [chat], [event] and connection close, every party
    present in [parties] has at least 1 and at most 8 members: there the
    close handler returns, and when the player that leaves was the last
    member it deletes the party in that very step. *)
Theorem C3_party_size w c p :
  alive w -> parties w !! c = Some p ->
  (1 <= JsMap.size (Party.members p) <= 8)%nat
  /\ forall ws info,
       clients w !! ws = Some info -> Player.partyCode info = c ->
       completion (on_close ws w) = Returned
       /\ (JsMap.size (JsMap.delete (Player.id info) (Party.members p)) = 0%nat ->
           parties (world (on_close ws w)) !! c = None).
Proof.
  intros Ha Hlk. pose proof (alive_live w Ha) as Hl. split.
  - pose proof (live_size _ Hl _ _ Hlk).
    pose proof (ok_size _ _ _ (wf_parties _ (live_wf _ Hl) _ _ Hlk)). lia.
  - intros ws info Hcl <-.
    pose proof (live_close_returns ws w Hl) as Hret. split; [exact Hret|].
    revert Hret.
    destruct (HandlerFacts.on_close_case ws w)
      as [Hcl'|info' Hcl' Hparty|info' party Hcl' Hparty Hlog
         |info' party line Hcl' Hparty Hlog];
      try congruence; try discriminate.
    intros _ Hz. assert (info' = info) by congruence. subst info'.
    assert (party = p) by congruence. subst party.
    cbn [world returned closed parties]. rewrite Hz.
    apply lookup_delete_eq.
Qed.

Lemma close_again ws w :
  completion (on_close ws w) = Returned ->
  on_close ws (world (on_close ws w)) = returned (world (on_close ws w)) [].
Proof.
  intros Hret.
  assert (Hgone : clients (world (on_close ws w)) !! ws = None).
  { revert Hret. destruct (HandlerFacts.on_close_case ws w);
      cbn [world completion returned threw_after closed clients];
      try discriminate; intros _; try assumption; apply lookup_delete_eq. }
  unfold on_close at 1. now rewrite Hgone.
Qed.

(** C9. In a server in which no handler has thrown, closing is
    idempotent: the close handler returns, and a second close of the same
    socket returns without touching the world and without calling
    [send], so however many times the hook runs for one socket, the
    [left] messages sent are those of the first run, one broadcast of
    [left] with the id of the player that was on the socket. *)
Theorem C9_close_idempotent ws w :
  alive w ->
  completion (on_close ws w) = Returned
  /\ on_close ws (world (on_close ws w))
     = {| completion := Returned; world := world (on_close ws w); sent := [] |}
  /\ (forall n, close_times (S n) ws w
                = (sent (on_close ws w), world (on_close ws w)))
  /\ (forall info, clients w !! ws = Some info ->
        forall party, parties w !! Player.partyCode info = Some party ->
          sent (on_close ws w)
          = List.map (fun e => (Player.ws (snd e), Left (Player.id info)))
              (JsMap.delete (Player.id info) (Party.members party))
          /\ clients (world (on_close ws w)) !! ws = None)
  /\ (clients w !! ws = None -> on_close ws w = returned w []).
Proof.
  intros Ha. pose proof (live_close_returns ws w (alive_live w Ha)) as Hret.
  pose proof (close_again ws w Hret) as Hagain.
  split; [exact Hret|]. split; [exact Hagain|]. split; [|split].
  - induction n as [|n IH].
    + simpl. now rewrite app_nil_r.
    + change (close_times (S (S n)) ws w)
        with (let '(out, w') := close_times (S n) ws (world (on_close ws w)) in
              (sent (on_close ws w) ++ out, w')).
      assert (E : close_times (S n) ws (world (on_close ws w))
                  = ([], world (on_close ws w))).
      { clear IH. induction n as [|n IHn].
        - simpl. now rewrite Hagain.
        - change (close_times (S (S n)) ws (world (on_close ws w)))
            with (let '(out, w') :=
                    close_times (S n) ws
                      (world (on_close ws (world (on_close ws w)))) in
                  (sent (on_close ws (world (on_close ws w))) ++ out, w')).
          rewrite Hagain. simpl world. simpl sent. now rewrite IHn. }
      rewrite E. now rewrite app_nil_r.
  - intros info Hcl party Hparty. revert Hret.
    destruct (HandlerFacts.on_close_case ws w)
      as [Hcl'|info' Hcl' Hparty'|info' party' Hcl' Hparty' Hlog
         |info' party' line Hcl' Hparty' Hlog];
      try congruence; try discriminate.
    intros _. assert (info' = info) by congruence. subst info'.
    assert (party' = party) by congruence. subst party'.
    cbn [sent world returned closed clients].
    rewrite SendFacts.broadcast_all. split; [reflexivity|].
    apply lookup_delete_eq.
  - intros Hcl. unfold on_close. now rewrite Hcl.
Qed.

Lemma has_type_unique msg k1 k2 :
  has_type msg k1 = true -> has_type msg k2 = true -> k1 = k2.
Proof.
  unfold has_type, Js.is_lit. destruct (Js.get msg "type"); try discriminate.
  intros E1%bool_decide_eq_true E2%bool_decide_eq_true.
  apply JsStringFacts.lit_inj. congruence.
Qed.



Lemma relay_no_error ws msg w :
  ~ replies_error (on_state ws msg w)
  /\ ~ replies_error (on_chat ws msg w)
  /\ ~ replies_error (on_event ws msg w).
Proof.
  unfold replies_error. repeat split; intros (to & m & Hin); revert Hin.
  - destruct (HandlerFacts.on_state_case ws msg w); simpl; try tauto.
    intros Hin. now apply SendFacts.In_broadcast in Hin as [[=] _].
  - destruct (HandlerFacts.on_chat_case ws msg w); simpl; try tauto.
    intros Hin. apply in_app_iff in Hin as [Hin|[[=]|[]]].
    now apply SendFacts.In_broadcast in Hin as [[=] _].
  - unfold on_event. destruct (clients w !! ws) as [info|]; [|intros []].
    destruct (parties w !! Player.partyCode info); [|intros []]. simpl.
    intros Hin. now apply SendFacts.In_broadcast in Hin as [[=] _].
Qed.


(** A message of kind [k] is handled by the branch of [k]. *)
Lemma dispatch fuel ws msg w :
  (has_type msg "create" = true ->
     on_message fuel ws (Some msg) w = on_create fuel ws msg w)
  /\ (has_type msg "join" = true ->
     on_message fuel ws (Some msg) w = on_join ws msg w)
  /\ (has_type msg "state" = true ->
     on_message fuel ws (Some msg) w = on_state ws msg w)
  /\ (has_type msg "chat" = true ->
     on_message fuel ws (Some msg) w = on_chat ws msg w)
  /\ (has_type msg "event" = true ->
     on_message fuel ws (Some msg) w = on_event ws msg w).
Proof.
  destruct (HandlerFacts.on_message_case fuel ws msg w)
    as [Hnull|Hk|Hk|Hk|Hk|Hk|_ _ Hc Hj Hs Hch He];
    repeat split; intros Hk'; try reflexivity;
    try (pose proof (has_type_unique _ _ _ Hk Hk'); discriminate);
    unfold has_type in Hk'; try congruence;
    destruct Hnull; subst; discriminate.
Qed.





Lemma NoDup_map_on {A B} (f : A -> B) (l : list A) :
  (forall a b, In a l -> In b l -> f a = f b -> a = b) ->
  NoDup l -> NoDup (List.map f l).
Proof.
  induction l as [|a l IH]; simpl; intros Hinj Hnd; [constructor|].
  apply NoDup_cons in Hnd as [Hni Hnd]. apply NoDup_cons. split.
  - rewrite list_elem_of_In, in_map_iff. intros (b & E & Hb).
    apply Hni. rewrite list_elem_of_In.
    rewrite (Hinj a b) by auto. assumption.
  - apply IH; auto.
Qed.

(** In a world a handler can leave the members of a party sit on
    distinct sockets. *)
Lemma members_distinct_sockets w c party :
  wf w -> parties w !! c = Some party ->
  forall P `{forall e, Decision (P e)},
    NoDup (List.map (fun e : jsstring * Player.t => Player.ws (snd e))
             (filter P (Party.members party))).
Proof.
  intros Hwf Hparty P Hdec.
  destruct (wf_parties _ Hwf _ _ Hparty) as [_ _ Hk Hm].
  apply NoDup_map_on.
  - intros [id1 m1] [id2 m2] H1 H2 E. simpl in E.
    apply list_elem_of_In, list_elem_of_filter in H1 as [_ H1].
    apply list_elem_of_In, list_elem_of_filter in H2 as [_ H2].
    apply list_elem_of_In in H1, H2.
    destruct (Hm _ _ H1) as (Ei1 & _ & Ec1).
    destruct (Hm _ _ H2) as (Ei2 & _ & Ec2).
    rewrite E, Ec2 in Ec1. inversion Ec1; subst. reflexivity.
  - apply NoDup_filter. unfold JsMap.keys in Hk.
    now apply (NoDup_fmap_1 fst).
Qed.

(** Who a broadcast that leaves out the sender's id reaches: the other
    sockets of the party, each once. *)
Lemma relay_recipients w ws info party obj :
  wf w -> nextId w < 2 ^ 53 ->
  clients w !! ws = Some info ->
  parties w !! Player.partyCode info = Some party ->
  let out := broadcast party obj (Some (Player.id info)) in
  (forall h, In h (List.map fst out) <->
             h <> ws /\ exists id m, In (id, m) (Party.members party)
                                     /\ Player.ws m = h)
  /\ NoDup (List.map fst out)
  /\ (forall to m, In (to, m) out -> m = obj).
Proof.
  intros Hwf Hlt Hcl Hparty out. subst out. split; [|split].
  - intros h. rewrite in_map_iff. split.
    + intros ([to m] & <- & Hin). simpl.
      apply SendFacts.In_broadcast in Hin as (_ & id & pl & Hin & Hne & Hws).
      split; [|eauto]. intros ->.
      destruct (member_on_socket w ws info _ party id pl Hwf Hcl Hparty Hin Hws).
      congruence.
    + intros (Hne & id & pl & Hin & Hws). exists (h, obj). split; [reflexivity|].
      apply SendFacts.In_broadcast. split; [reflexivity|].
      exists id, pl. repeat split; try assumption. intros [= ->].
      destruct (ok_member _ _ _ (wf_parties _ Hwf _ _ Hparty) _ _ Hin)
        as (Eid & _ & Ecl).
      apply Hne. rewrite <- Hws.
      exact (ok_id_inj _ _ _ (wf_dir _ Hwf) Hlt _ _ _ _ Ecl Hcl Eid).
  - rewrite SendFacts.broadcast_recipients.
    now apply (members_distinct_sockets w (Player.partyCode info)).
  - intros to m Hin. now apply SendFacts.In_broadcast in Hin as [-> _].
Qed.

(** The fields of the state built from a message. *)
Lemma state_of_Some msg st :
  state_of msg = Some st ->
  Js.num_or (Js.get msg "x") zero = Some (State.x st)
  /\ Js.num_or (Js.get msg "y") zero = Some (State.y st)
  /\ Js.num_or (Js.get msg "z") zero = Some (State.z st)
  /\ Js.num_or (Js.get msg "yaw") zero = Some (State.yaw st)
  /\ Js.num_or (Js.get msg "pitch") zero = Some (State.pitch st)
  /\ Js.num_or (Js.get msg "chap") one = Some (State.chap st)
  /\ State.anim st = Js.or (Js.get msg "anim") (JStr (lit "idle")).
Proof.
  unfold state_of.
  destruct (Js.num_or (Js.get msg "x") zero); [|discriminate].
  destruct (Js.num_or (Js.get msg "y") zero); [|discriminate].
  destruct (Js.num_or (Js.get msg "z") zero); [|discriminate].
  destruct (Js.num_or (Js.get msg "yaw") zero); [|discriminate].
  destruct (Js.num_or (Js.get msg "pitch") zero); [|discriminate].
  destruct (Js.num_or (Js.get msg "chap") one); [|discriminate].
  intros [= <-]. now repeat split.
Qed.

(** Building the state throws exactly when one of the six fields read
    with unary plus cannot be coerced. *)
Lemma state_of_None msg : state_of msg = None <-> uncoercible msg.
Proof.
  unfold state_of, uncoercible. split.
  - destruct (Js.num_or (Js.get msg "x") zero) eqn:Ex;
      [|apply JsFacts.num_or_None in Ex; exists "x"%string; simpl; tauto].
    destruct (Js.num_or (Js.get msg "y") zero) eqn:Ey;
      [|apply JsFacts.num_or_None in Ey; exists "y"%string; simpl; tauto].
    destruct (Js.num_or (Js.get msg "z") zero) eqn:Ez;
      [|apply JsFacts.num_or_None in Ez; exists "z"%string; simpl; tauto].
    destruct (Js.num_or (Js.get msg "yaw") zero) eqn:Eyaw;
      [|apply JsFacts.num_or_None in Eyaw; exists "yaw"%string; simpl; tauto].
    destruct (Js.num_or (Js.get msg "pitch") zero) eqn:Epitch;
      [|apply JsFacts.num_or_None in Epitch; exists "pitch"%string; simpl; tauto].
    destruct (Js.num_or (Js.get msg "chap") one) eqn:Echap;
      [|apply JsFacts.num_or_None in Echap; exists "chap"%string; simpl; tauto].
    discriminate.
  - intros (k & Hin & Hu).
    pose proof (proj2 (JsFacts.num_or_None (Js.get msg k) zero) Hu) as E0.
    pose proof (proj2 (JsFacts.num_or_None (Js.get msg k) one) Hu) as E1.
    destruct (Js.num_or (Js.get msg "x") zero) eqn:Ex; [|reflexivity].
    destruct (Js.num_or (Js.get msg "y") zero) eqn:Ey; [|reflexivity].
    destruct (Js.num_or (Js.get msg "z") zero) eqn:Ez; [|reflexivity].
    destruct (Js.num_or (Js.get msg "yaw") zero) eqn:Eyaw; [|reflexivity].
    destruct (Js.num_or (Js.get msg "pitch") zero) eqn:Epitch; [|reflexivity].
    destruct (Js.num_or (Js.get msg "chap") one) eqn:Echap; [|reflexivity].
    exfalso. simpl in Hin.
    destruct Hin as [<-|[<-|[<-|[<-|[<-|[<-|[]]]]]]]; congruence.
Qed.

Lemma state_of_renders msg :
  ~ uncoercible msg -> exists st, state_of msg = Some st.
Proof.
  rewrite <- state_of_None. destruct (state_of msg); [eauto|congruence].
Qed.

(** [String(msg.text || '')] throws exactly when the text cannot be
    rendered. *)
Lemma chat_text_None msg :
  chat_text msg = None <-> unrenderable (Js.get msg "text").
Proof.
  rewrite <- JsFacts.ToString_None. unfold chat_text, Js.or.
  destruct (Js.ToBoolean (Js.get msg "text")) eqn:Eb.
  - destruct (Js.ToString (Js.get msg "text")); cbn; split; congruence.
  - cbn. split; [discriminate|]. intros Hn.
    apply JsFacts.ToString_None in Hn.
    destruct Hn; discriminate.
Qed.

Lemma anim_field_or v : anim_field v (Js.or v (JStr (lit "idle"))).
Proof.
  repeat split.
  - now intros ->.
  - apply JsFacts.or_falsy.
  - apply JsFacts.or_truthy.
Qed.

(** X23. A [state] message from a socket that resolves to a player whose
    party exists throws, storing and sending nothing, when one of [x],
    [y], [z], [yaw], [pitch], [chap] is an object with an own property
    [toString] or an array that holds one.  Otherwise it returns: what is
    sent is the broadcast of the state built from the message to the
    party without the sender, the state is what the player's [lastState]
    holds afterwards (read through the directory or through the member
    entry of the party: it is one object) and nothing else of the world
    changes; in the state each of [x], [y], [z], [yaw], [pitch] is 0 when
    the field is absent, falsy or coerces to NaN ("abc", a plain
    object), and the number the field coerces to otherwise; [chap] is 1
    in the former cases and the number otherwise (-1 stays -1); [anim] is
    "idle" when absent or falsy and the value itself otherwise. *)
Theorem X23_state_coercion fuel ws msg w info party :
  reachable w ->
  clients w !! ws = Some info ->
  parties w !! Player.partyCode info = Some party ->
  has_type msg "state" = true ->
  let o := on_message fuel ws (Some msg) w in
  (uncoercible msg -> o = threw w)
  /\ (~ uncoercible msg ->
      exists st,
        state_of msg = Some st
        /\ o = returned (stated info st w)
                 (broadcast party (StateMsg (Player.id info) st)
                    (Some (Player.id info)))
        /\ clients (world o) !! ws = Some info
        /\ read (cells (world o)) info = Some st
        /\ (forall id m, In (id, m) (Party.members party) -> Player.ws m = ws ->
              parties (world o) !! Player.partyCode info = Some party
              /\ read (cells (world o)) m = Some st)
        /\ numeric_field (Js.get msg "x") (State.x st)
        /\ numeric_field (Js.get msg "y") (State.y st)
        /\ numeric_field (Js.get msg "z") (State.z st)
        /\ numeric_field (Js.get msg "yaw") (State.yaw st)
        /\ numeric_field (Js.get msg "pitch") (State.pitch st)
        /\ chap_field (Js.get msg "chap") (State.chap st)
        /\ anim_field (Js.get msg "anim") (State.anim st)).
Proof.
  intros Hr Hcl Hparty Hk o. subst o. apply reachable_wf in Hr.
  rewrite (proj1 (proj2 (proj2 (dispatch fuel ws msg w))) Hk).
  unfold on_state. rewrite Hcl, Hparty. split.
  - intros Ht. apply state_of_None in Ht. now rewrite Ht.
  - intros Hok. destruct (state_of_renders msg Hok) as [st Est].
    rewrite Est. exists st. split; [reflexivity|]. split; [reflexivity|].
    cbn [world returned clients cells parties].
    assert (Hread : read (<[Player.lastState info := Some st]> (cells w)) info
                    = Some st).
    { unfold read. rewrite list_lookup_insert_eq; [reflexivity|].
      exact (proj2 (ok_client _ _ _ (wf_dir _ Hr) _ _ Hcl)). }
    split; [assumption|]. split; [assumption|]. split.
    + intros id m Hin Hws. split; [assumption|].
      destruct (ok_member _ _ _ (wf_parties _ Hr _ _ Hparty) _ _ Hin)
        as (_ & _ & Ecl).
      rewrite Hws, Hcl in Ecl. inversion Ecl; subst. assumption.
    + destruct (state_of_Some msg st Est) as (Ex & Ey & Ez & Eyaw & Ep & Ec & Ea).
      rewrite Ea. unfold numeric_field, chap_field.
      repeat (split; [now apply JsFacts.coerced_num_or|]).
      apply anim_field_or.
Qed.

(** X24. A [state] message none of whose numeric fields throws, or an
    [event] message, from a socket that resolves to a player whose party
    exists, returns, and is sent to the other sockets of the party, each
    once, and not to the sender; what is sent is the broadcast that leaves
    out the sender's id, of the state built from the message, or of an
    [event] that carries the sender's id, [msg.ev] and [msg.data], an
    absent [data] being replaced by the empty object.  (Sent: [send] is
    called on the socket; the frame goes out when the socket is open.) *)
Theorem X24_relay_excludes_sender fuel ws msg w info party :
  reachable w -> nextId w < 2 ^ 53 ->
  clients w !! ws = Some info ->
  parties w !! Player.partyCode info = Some party ->
  (has_type msg "state" = true /\ ~ uncoercible msg)
  \/ has_type msg "event" = true ->
  let o := on_message fuel ws (Some msg) w in
  completion o = Returned
  /\ (forall h, In h (List.map fst (sent o)) <->
             h <> ws /\ exists id m, In (id, m) (Party.members party)
                                     /\ Player.ws m = h)
  /\ NoDup (List.map fst (sent o))
  /\ ~ In ws (List.map fst (sent o))
  /\ (has_type msg "state" = true ->
        exists st, state_of msg = Some st
          /\ sent o = broadcast party (StateMsg (Player.id info) st)
                        (Some (Player.id info)))
  /\ (has_type msg "event" = true ->
        world o = w
        /\ sent o = broadcast party
                      (Event (Player.id info) (Js.get msg "ev")
                         (Js.or (Js.get msg "data") (JObj [])))
                      (Some (Player.id info)))
  /\ (Js.get msg "data" = JUndef -> Js.or (Js.get msg "data") (JObj []) = JObj [])
  /\ (forall readyState,
        wire readyState (sent o)
        = filter (fun c => readyState (fst c) = 1) (sent o)).
Proof.
  intros Hr Hlt Hcl Hparty Hk o. apply reachable_wf in Hr.
  assert (Hout : exists obj,
            completion o = Returned
            /\ sent o = broadcast party obj (Some (Player.id info))
            /\ (has_type msg "state" = true ->
                  exists st, state_of msg = Some st
                             /\ obj = StateMsg (Player.id info) st)
            /\ (has_type msg "event" = true ->
                  world o = w
                  /\ obj = Event (Player.id info) (Js.get msg "ev")
                             (Js.or (Js.get msg "data") (JObj [])))).
  { subst o. destruct Hk as [[Hk Hok]|Hk].
    - rewrite (proj1 (proj2 (proj2 (dispatch fuel ws msg w))) Hk).
      destruct (state_of_renders msg Hok) as [st Est].
      unfold on_state. rewrite Hcl, Hparty, Est. simpl. eexists.
      split; [reflexivity|]. split; [reflexivity|].
      split; [eauto|]. intros Hk'.
      pose proof (has_type_unique _ _ _ Hk Hk'). discriminate.
    - rewrite (proj2 (proj2 (proj2 (proj2 (dispatch fuel ws msg w)))) Hk).
      unfold on_event. rewrite Hcl, Hparty. simpl. eexists.
      split; [reflexivity|]. split; [reflexivity|].
      split; [|now split]. intros Hk'.
      pose proof (has_type_unique _ _ _ Hk Hk'). discriminate. }
  destruct Hout as (obj & Hret & Hsent & Hst & Hev). rewrite Hsent.
  destruct (relay_recipients w ws info party obj Hr Hlt Hcl Hparty)
    as (Hset & Hnd & Hobj).
  split; [exact Hret|]. split; [exact Hset|]. split; [exact Hnd|].
  split; [|split; [|split; [|split]]].
  - intros Hin. apply Hset in Hin. tauto.
  - intros Hk'. destruct (Hst Hk') as (st & Est & ->). eauto.
  - intros Hk'. destruct (Hev Hk') as (Ew & ->). now split.
  - now intros ->.
  - intros readyState. apply SendFacts.wire_filter.
Qed.

(** X25. A [chat] message from a socket that resolves to a player whose
    party exists throws, sending nothing, when its [text] is an object
    with an own property [toString] or an array that holds one.  With any
    other [text] it returns and leaves the world as it was; what is sent
    is the chat object, with the sender's id and name and the text
    [String(msg.text || '')] cut to 120 code units, to every member of
    the party in the order of the member map, and then once more to the
    sender's socket (the frame goes out when that socket is open); the
    text is the empty string when [text] is absent or falsy. *)
Theorem X25_chat_text fuel ws msg w info party :
  clients w !! ws = Some info ->
  parties w !! Player.partyCode info = Some party ->
  has_type msg "chat" = true ->
  let o := on_message fuel ws (Some msg) w in
  (unrenderable (Js.get msg "text") -> o = threw w)
  /\ (~ unrenderable (Js.get msg "text") ->
      exists text,
        chat_text msg = Some text
        /\ o = returned w
                 (List.map
                    (fun e => (Player.ws (snd e),
                               Chat (Player.id info) (Player.name info) text))
                    (Party.members party)
                  ++ [(ws, Chat (Player.id info) (Player.name info) text)])
        /\ (Js.get msg "text" = JUndef -> text = [])
        /\ (Js.ToBoolean (Js.get msg "text") = false -> text = [])
        /\ (Js.ToBoolean (Js.get msg "text") = true ->
              exists s, Js.ToString (Js.get msg "text") = Some s
                        /\ text = slice0 120 s)
        /\ (length text <= 120)%nat
        /\ (forall readyState, readyState ws = 1 ->
              In (ws, Chat (Player.id info) (Player.name info) text)
                (wire readyState (sent o)))).
Proof.
  intros Hcl Hparty Hk o. subst o.
  rewrite (proj1 (proj2 (proj2 (proj2 (dispatch fuel ws msg w)))) Hk).
  unfold on_chat. rewrite Hcl, Hparty. split.
  - intros Hu. apply chat_text_None in Hu. now rewrite Hu.
  - intros Hok. destruct (chat_text msg) as [text|] eqn:Et;
      [|now apply chat_text_None in Et].
    exists text. split; [reflexivity|].
    rewrite SendFacts.broadcast_all. split; [reflexivity|].
    assert (Hs : exists s,
              Js.ToString (Js.or (Js.get msg "text") (JStr [])) = Some s
              /\ text = slice0 120 s).
    { unfold chat_text in Et.
      destruct (Js.ToString _) as [s|]; [|discriminate].
      exists s. split; [reflexivity|]. cbn [option_map] in Et. congruence. }
    destruct Hs as (s & Es & ->).
    split; [|split; [|split; [|split]]].
    + intros E. rewrite E in Es. cbn in Es.
      assert (s = []) by congruence. now subst s.
    + intros E. rewrite (JsFacts.or_falsy _ _ E) in Es. cbn in Es.
      assert (s = []) by congruence. now subst s.
    + intros E. rewrite (JsFacts.or_truthy _ _ E) in Es. eauto.
    + apply JsStringFacts.slice0_length.
    + intros readyState Hopen. rewrite SendFacts.wire_filter.
      apply list_elem_of_In, list_elem_of_filter. split; [exact Hopen|].
      apply list_elem_of_In, in_app_iff. right. now left.
Qed.

Lemma genCode_draws k : snd (genCode k) = (k + 4)%nat.
Proof. unfold genCode. cbn [genCode_loop snd]. lia. Qed.

Lemma fresh_code_eq fuel ps code k :
  fresh_code fuel ps code k
  = match ps !! code with
    | None => Some (code, k)
    | Some _ =>
        match fuel with
        | O => None
        | S fuel' => fresh_code fuel' ps (fst (genCode k)) (snd (genCode k))
        end
    end.
Proof. destruct fuel; [reflexivity|]. cbn [fresh_code]. now destruct (genCode k). Qed.

(** The loop ends once a candidate is free, given fuel for as many
    turns. *)
Lemma fresh_code_enough ps n :
  forall fuel k, (n <= fuel)%nat -> ps !! candidate k n = None ->
    exists c k', fresh_code fuel ps (candidate k 0) (k + 4) = Some (c, k').
Proof.
  unfold candidate. induction n as [|n IH]; intros fuel k Hfuel Hfree.
  - replace (k + 4 * 0)%nat with k in * by lia.
    exists (fst (genCode k)), (k + 4)%nat.
    rewrite fresh_code_eq. now rewrite Hfree.
  - replace (k + 4 * 0)%nat with k by lia.
    rewrite fresh_code_eq.
    destruct (ps !! fst (genCode k)) eqn:E; [|eauto].
    destruct fuel as [|fuel]; [lia|].
    rewrite genCode_draws.
    specialize (IH fuel (k + 4)%nat ltac:(lia)).
    replace (k + 4 + 4 * 0)%nat with (k + 4)%nat in IH by lia.
    apply IH.
    replace (k + 4 + 4 * n)%nat with (k + 4 * S n)%nat by lia. assumption.
Qed.

Lemma genCode_candidate k code0 k2 :
  genCode k = (code0, k2) -> code0 = candidate k 0 /\ k2 = (k + 4)%nat.
Proof.
  intros E. unfold candidate. replace (k + 4 * 0)%nat with k by lia.
  rewrite E. split; [reflexivity|].
  pose proof (genCode_draws k) as Hd. now rewrite E in Hd.
Qed.

Lemma candidate_next k n : candidate (k + 4) n = candidate k (S n).
Proof.
  unfold candidate. now replace (k + 4 + 4 * n)%nat with (k + 4 * S n)%nat by lia.
Qed.

(** The code the loop ends with is the first candidate that is free. *)
Lemma fresh_code_some fuel ps :
  forall k c k',
    fresh_code fuel ps (candidate k 0) (k + 4) = Some (c, k') ->
    exists n, (n <= fuel)%nat /\ ps !! candidate k n = None
              /\ c = candidate k n
              /\ forall m, (m < n)%nat -> is_Some (ps !! candidate k m).
Proof.
  induction fuel as [|fuel IH]; intros k c k'; rewrite fresh_code_eq.
  - destruct (ps !! candidate k 0) eqn:E; [discriminate|].
    intros [= <- <-]. exists 0%nat. split; [lia|]. split; [assumption|].
      split; [reflexivity|]. intros m Hm. lia.
  - destruct (ps !! candidate k 0) eqn:E.
    + rewrite genCode_draws.
      replace (fst (genCode (k + 4))) with (candidate (k + 4) 0)
        by (unfold candidate; now replace (k + 4 + 4 * 0)%nat with (k + 4)%nat by lia).
      intros Hs. destruct (IH _ _ _ Hs) as (n & Hn & Hfree & -> & Hbefore).
      exists (S n). rewrite <- candidate_next.
      repeat split; [lia|assumption|].
      intros [|m] Hm; [eauto|]. rewrite <- candidate_next. apply Hbefore. lia.
    + intros [= <- <-]. exists 0%nat. split; [lia|]. split; [assumption|].
      split; [reflexivity|]. intros m Hm. lia.
Qed.

(** A welcome is sent by a [create] or a [join] that went through, to
    the sender, with the id and the colour of the player it made. *)
Lemma welcome_inv fuel ws parsed w to id code players color :
  In (to, Welcome id code players color) (sent (on_message fuel ws parsed w)) ->
  to = ws /\ id = of_integer (nextId w)
  /\ color = player_color (incr (nextId w))
  /\ clients w !! ws = None
  /\ exists name k,
       is_Some (Js.ToString name)
       /\ ((world (on_message fuel ws parsed w) = created ws name code k w
            /\ completion (on_message fuel ws parsed w) = Returned
            /\ players = [] /\ parties w !! code = None)
           \/ (exists party,
                 world (on_message fuel ws parsed w)
                   = joined ws name code party k w
                 /\ completion (on_message fuel ws parsed w) = Returned
                 /\ players = existing (cells w) party
                 /\ parties w !! code = Some party
                 /\ (JsMap.size (Party.members party) < 8)%nat)).
Proof.
  destruct parsed as [msg|]; [|intros []].
  destruct (HandlerFacts.on_message_case fuel ws msg w)
    as [_|_|_|_|_|_|_ _ _ _ _ _ _].
  - intros [].
  - destruct (HandlerFacts.on_create_case fuel ws msg w)
      as [info Hcl|Hcl Hname|name k1 code0 k2 Hcl Hname Hgen Hfresh
         |name k1 code0 k2 code' k3 Hcl Hname Hgen Hfresh Hlog
         |name k1 code0 k2 code' k3 line Hcl Hname Hgen Hfresh Hlog]; simpl.
    + intros [[=]|[]].
    + intros [].
    + intros [].
    + intros [].
    + intros [[= <- <- <- <- <-]|[]].
      apply Invariant.fresh_code_absent in Hfresh.
      repeat split; [assumption|]. exists name, k3.
      split; [exact (HandlerFacts.logged_renders _ _ (HandlerFacts.log_created_None _ _ _) _ Hlog)|].
      left. now repeat split.
  - destruct (HandlerFacts.on_join_case ws msg w)
      as [info Hcl|Hcl Hcode|code0 Hcl Hcode Hparty
         |code0 party Hcl Hcode Hparty Hfull
         |code0 party Hcl Hcode Hparty Hroom Hname
         |code0 party name k1 Hcl Hcode Hparty Hroom Hname Hlog
         |code0 party name k1 line Hcl Hcode Hparty Hroom Hname Hlog]; simpl.
    + intros [[=]|[]].
    + intros [].
    + intros [[=]|[]].
    + intros [[=]|[]].
    + intros [].
    + intros [].
    + intros [[= <- <- <- <- <-]|Hin].
      * repeat split; [assumption|]. exists name, k1.
        split; [exact (HandlerFacts.logged_renders _ _ (HandlerFacts.log_joined_None _ _ _) _ Hlog)|].
        right. exists party. now repeat split.
      * now apply SendFacts.In_broadcast in Hin as [[=] _].
  - destruct (HandlerFacts.on_state_case ws msg w); simpl; try tauto.
    intros Hin. now apply SendFacts.In_broadcast in Hin as [[=] _].
  - destruct (HandlerFacts.on_chat_case ws msg w); simpl; try tauto.
    intros Hin. apply in_app_iff in Hin as [Hin|[[=]|[]]].
    now apply SendFacts.In_broadcast in Hin as [[=] _].
  - unfold on_event. destruct (clients w !! ws) as [info|]; [|intros []].
    destruct (parties w !! Player.partyCode info); [|intros []]. simpl.
    intros Hin. now apply SendFacts.In_broadcast in Hin as [[=] _].
  - intros [].
Qed.

(** C4. A [create] that succeeds (it sends a welcome) returns a code
    under which no party was stored, stores the new party under it, and
    leaves every other party where it was, so that the code names
    exactly one live party when the handler returns; and the loop that
    looks for the code does end when one of the codes it draws is free
    and it is given as many turns: the handler then returns with the
    welcome when the log line can render the name, the code being the
    first of the codes drawn that names no party, and throws with nothing
    sent when it cannot. *)
Theorem C4_create_code_unique fuel ws msg w :
  reachable w -> has_type msg "create" = true ->
  let o := on_message fuel ws (Some msg) w in
  (forall to id code players color,
      In (to, Welcome id code players color) (sent o) ->
      to = ws /\ completion o = Returned
      /\ parties w !! code = None
      /\ (exists p, parties (world o) !! code = Some p /\ Party.code p = code
                    /\ JsMap.keys (Party.members p) = [id])
      /\ (forall c p, parties (world o) !! c = Some p ->
                      Party.code p = code -> c = code)
      /\ (forall c, c <> code -> parties (world o) !! c = parties w !! c))
  /\ (forall name k1 n,
        clients w !! ws = None ->
        player_name msg (draws w) = Some (name, k1) ->
        parties w !! candidate k1 n = None -> (n <= fuel)%nat ->
        (is_Some (Js.ToString name) ->
           completion o = Returned
           /\ exists id color n',
                (n' <= n)%nat
                /\ sent o = [(ws, Welcome id (candidate k1 n') [] color)]
                /\ parties w !! candidate k1 n' = None
                /\ forall m, (m < n')%nat -> is_Some (parties w !! candidate k1 m))
        /\ (Js.ToString name = None -> completion o = Threw /\ sent o = [])).
Proof.
  intros Hr Hk o. subst o. rewrite (proj1 (dispatch fuel ws msg w) Hk).
  split.
  - intros to id code players color.
    destruct (HandlerFacts.on_create_case fuel ws msg w)
      as [info Hcl|Hcl Hname|name k1 code0 k2 Hcl Hname Hgen Hfresh
         |name k1 code0 k2 code' k3 Hcl Hname Hgen Hfresh Hlog
         |name k1 code0 k2 code' k3 line Hcl Hname Hgen Hfresh Hlog]; simpl.
    { intros [[=]|[]]. }
    { intros []. }
    { intros []. }
    { intros []. }
    intros [[= <- <- <- <- <-]|[]].
    apply Invariant.fresh_code_absent in Hfresh.
    split; [reflexivity|]. split; [reflexivity|]. split; [assumption|].
    split; [|split].
    + eexists. rewrite lookup_insert_eq. split; [reflexivity|]. now split.
    + intros c p Hlk Hc.
      apply lookup_insert_Some in Hlk as [[<- _]|[_ Hlk]]; [reflexivity|].
      apply reachable_wf in Hr.
      rewrite <- (ok_code _ _ _ (wf_parties _ Hr _ _ Hlk)). assumption.
    + intros c Hne. now apply lookup_insert_ne.
  - intros name k1 n Hcl Hname Hfree Hfuel.
    destruct (genCode k1) as [code0 k2] eqn:Hgen.
    destruct (genCode_candidate _ _ _ Hgen) as [E0 E2].
    destruct (fresh_code_enough (parties w) n fuel k1 Hfuel Hfree)
      as (c & k' & Hfresh).
    destruct (fresh_code_some _ _ _ _ _ Hfresh)
      as (n' & Hn' & Hfree' & -> & Hbefore).
    assert (Hle : (n' <= n)%nat).
    { destruct (Nat.le_gt_cases n' n) as [Hle|Hgt]; [exact Hle|].
      destruct (Hbefore n Hgt) as [p Hp]. congruence. }
    rewrite <- E0, <- E2 in Hfresh.
    unfold on_create. rewrite Hcl, Hname, Hgen, Hfresh.
    pose proof (HandlerFacts.log_created_None (candidate k1 n') name
                  (of_integer (nextId w))) as Hlog.
    split.
    + intros Hs.
      destruct (HandlerFacts.renders_logged _ _ Hlog Hs) as [line ->].
      cbn [completion sent returned]. split; [reflexivity|].
      eexists _, _, n'. split; [exact Hle|]. split; [reflexivity|].
      split; assumption.
    + intros Hn. rewrite (proj2 Hlog Hn). now split.
Qed.

(** C2 (amended). The player made by a [create] or a [join] has the id
    that renders the counter as the handler found it, and the colour
    [COLORS[(nextId - 1) % 8]] for the counter as the increment left it:
    the player whose id renders [n] (below [2^53]) gets [COLORS[n mod 8]],
    not [COLORS[(n - 1) mod 8]]. *)
Theorem C2_color_by_id fuel ws parsed w to id code players color :
  In (to, Welcome id code players color) (sent (on_message fuel ws parsed w)) ->
  let o := on_message fuel ws parsed w in
  id = of_integer (nextId w)
  /\ nextId (world o) = incr (nextId w)
  /\ color = Js.at_index COLORS (Z.to_nat (Z.rem (nextId (world o) - 1) 8))
  /\ (exists p, clients (world o) !! ws = Some p
                /\ Player.id p = id /\ Player.color p = color)
  /\ (forall n, nextId w = n -> 1 <= n < 2 ^ 53 ->
        id = of_integer n
        /\ color = Js.at_index COLORS (Z.to_nat (n mod 8))
        /\ exists c, COLORS !! Z.to_nat (n mod 8) = Some c /\ color = JStr c).
Proof.
  intros Hin o. subst o.
  assert (Hn : forall n, nextId w = n -> 1 <= n < 2 ^ 53 ->
            player_color (incr (nextId w))
            = Js.at_index COLORS (Z.to_nat (n mod 8))
            /\ exists c, COLORS !! Z.to_nat (n mod 8) = Some c
                 /\ Js.at_index COLORS (Z.to_nat (n mod 8)) = JStr c).
  { intros n -> Hb. unfold player_color, incr.
    destruct (Z.ltb_spec n (2 ^ 53)) as [_|]; [|lia].
    replace (n + 1 - 1) with n by lia.
    change (Z.of_nat (length COLORS)) with 8.
    rewrite Z.rem_mod_nonneg by lia. split; [reflexivity|].
    unfold Js.at_index.
    assert (Hi : (Z.to_nat (n mod 8) < length COLORS)%nat).
    { change (length COLORS) with 8%nat.
      pose proof (Z.mod_pos_bound n 8 ltac:(lia)). lia. }
    apply lookup_lt_is_Some_2 in Hi as [c Hc]. rewrite Hc. eauto. }
  destruct (welcome_inv _ _ _ _ _ _ _ _ _ Hin)
    as (-> & -> & -> & _ & name & k & _ & [(Ew & _)|(party & Ew & _)]);
    rewrite Ew; simpl.
  - split; [reflexivity|]. split; [reflexivity|].
    split; [reflexivity|]. split.
    + eexists. rewrite lookup_insert_eq. now repeat split.
    + intros n Hn1 Hn2. destruct (Hn n Hn1 Hn2) as (E & c & Hc & Ec).
      subst n. rewrite E. eauto.
  - split; [reflexivity|]. split; [reflexivity|].
    split; [reflexivity|]. split.
    + eexists. rewrite lookup_insert_eq. now repeat split.
    + intros n Hn1 Hn2. destruct (Hn n Hn1 Hn2) as (E & c & Hc & Ec).
      subst n. rewrite E. eauto.
Qed.

Lemma sliceable_name msg k :
  sliceable (Js.get msg "name") -> exists name k', player_name msg k = Some (name, k').
Proof.
  unfold player_name. intros [E|[[s E]|[l E]]]; rewrite E.
  - destruct (genName k). eauto.
  - destruct (Js.ToBoolean (JStr s)); [eauto|]. destruct (genName k). eauto.
  - destruct (Js.ToBoolean (JArr l)); [eauto|]. destruct (genName k). eauto.
Qed.

(** Below [2^53] the id about to be given out is not in use. *)
Lemma next_id_fresh w c party :
  wf w -> nextId w < 2 ^ 53 -> parties w !! c = Some party ->
  of_integer (nextId w) ∉ JsMap.keys (Party.members party).
Proof.
  intros Hwf Hlt Hparty Hin. unfold JsMap.keys in Hin.
  apply list_elem_of_In, in_map_iff in Hin as ([id m] & E & Hin).
  simpl in E. subst id.
  destruct (ok_member _ _ _ (wf_parties _ Hwf _ _ Hparty) _ _ Hin)
    as (Eid & _ & Ecl).
  destruct (ok_ids _ _ _ (wf_dir _ Hwf) Hlt _ _ Ecl) as (k & Hk & E).
  rewrite Eid in E. apply JsStringFacts.of_integer_inj in E; lia.
Qed.

(** C5 (amended). A [join] from a socket already in a party is refused
    as such, whatever the party it names.  From a socket in no party,
    with a code that names (upper-cased and trimmed) a party: if the
    party has 8 members the join is refused with "Party is full" and
    nothing changes; if it has 7 and the name is absent, falsy, a string
    or an array, and the log line can render it as the handler has cut
    it, the join goes through and the party has exactly 8 members (the
    counter being below [2^53]); when the log line cannot render the
    name, the handler throws with the player already in the party and
    nothing sent. *)
Theorem C5_join_capacity fuel ws msg w code party :
  reachable w -> has_type msg "join" = true ->
  join_code msg = Some code -> parties w !! code = Some party ->
  let o := on_message fuel ws (Some msg) w in
  (is_Some (clients w !! ws) ->
     o = returned w [(ws, Error (lit "Already in a party."))])
  /\ (clients w !! ws = None -> JsMap.size (Party.members party) = 8%nat ->
       o = returned w [(ws, Error (lit "Party is full (max 8)."))])
  /\ (clients w !! ws = None -> JsMap.size (Party.members party) = 7%nat ->
       nextId w < 2 ^ 53 -> sliceable (Js.get msg "name") ->
       exists name k1,
         player_name msg (draws w) = Some (name, k1)
         /\ (Js.ToString name = None ->
               o = threw (joined ws name code party k1 w))
         /\ (is_Some (Js.ToString name) ->
               completion o = Returned
               /\ (exists id players color,
                     In (ws, Welcome id code players color) (sent o))
               /\ (forall to m, In (to, m) (sent o) -> forall e, m <> Error e)
               /\ exists party', parties (world o) !! code = Some party'
                    /\ JsMap.size (Party.members party') = 8%nat
                    /\ forall e, In e (Party.members party) ->
                                 In e (Party.members party'))).
Proof.
  intros Hr Hk Hcode Hparty o. subst o. apply reachable_wf in Hr.
  rewrite (proj1 (proj2 (dispatch fuel ws msg w)) Hk).
  split; [|split].
  - intros [info Hcl]. unfold on_join. now rewrite Hcl.
  - intros Hcl Hsize. unfold on_join. rewrite Hcl, Hcode, Hparty, Hsize.
    reflexivity.
  - intros Hcl Hsize Hlt Hname.
    destruct (sliceable_name msg (draws w) Hname) as (name & k1 & Ename).
    exists name, k1. split; [exact Ename|].
    pose proof (HandlerFacts.log_joined_None name (of_integer (nextId w)) code)
      as Hlog.
    unfold on_join. rewrite Hcl, Hcode, Hparty, Hsize, Ename.
    cbn [Nat.leb]. split.
    + intros Hn. now rewrite (proj2 Hlog Hn).
    + intros Hs.
      destruct (HandlerFacts.renders_logged _ _ Hlog Hs) as [line ->].
      cbn [completion sent world returned parties].
      split; [reflexivity|]. split; [eexists _, _, _; now left|]. split.
      * intros to m [[= <- <-]|Hin] e; [discriminate|].
        apply SendFacts.In_broadcast in Hin as [-> _]. discriminate.
      * eexists. rewrite lookup_insert_eq. split; [reflexivity|].
        cbn [Party.members]. split.
        -- rewrite JsMapFacts.size_set.
           destruct (decide _) as [Hin|_]; [|lia].
           exfalso. exact (next_id_fresh w code party Hr Hlt Hparty Hin).
        -- intros [id m] Hin. apply JsMapFacts.In_set_old; [assumption|].
           intros ->. apply (next_id_fresh w code party Hr Hlt Hparty).
           unfold JsMap.keys. apply list_elem_of_In, in_map_iff.
           now exists (of_integer (nextId w), m).
Qed.

(** A chat that goes through reaches the sender twice when the sender is
    a member of its party: once in the broadcast, which leaves nobody
    out, and once in the echo. *)
Lemma chat_sender_twice fuel ws msg w info party text :
  clients w !! ws = Some info ->
  parties w !! Player.partyCode info = Some party ->
  has_type msg "chat" = true -> chat_text msg = Some text ->
  In (Player.id info, info) (Party.members party) -> Player.ws info = ws ->
  exists before after,
    sent (on_message fuel ws (Some msg) w)
    = before
        ++ (ws, Chat (Player.id info) (Player.name info) text)
        :: after
        ++ [(ws, Chat (Player.id info) (Player.name info) text)].
Proof.
  intros Hcl Hparty Hk Et Hin Hws.
  rewrite (proj1 (proj2 (proj2 (proj2 (dispatch fuel ws msg w)))) Hk).
  unfold on_chat. rewrite Hcl, Hparty, Et. simpl.
  rewrite SendFacts.broadcast_all.
  apply in_split in Hin as (l1 & l2 & ->).
  rewrite map_app. simpl. rewrite Hws.
  eexists _, _. rewrite <- app_assoc. reflexivity.
Qed.

(** X2. When the only member of a party closes its socket and the log
    line can render its name, the party is deleted with it: the handler
    returns, nothing is sent, the code names no party any more, the
    socket resolves to no player and the other parties stay.  When the
    log line cannot render the name, the handler throws before the
    deletion: nothing is sent, the party stays in [parties] with no
    member, and the socket still resolves to the player. *)
Theorem X2_last_member_leaves ws w info party :
  clients w !! ws = Some info ->
  parties w !! Player.partyCode info = Some party ->
  JsMap.keys (Party.members party) = [Player.id info] ->
  let o := on_close ws w in
  sent o = []
  /\ (forall c, c <> Player.partyCode info ->
        parties (world o) !! c = parties w !! c)
  /\ (is_Some (Js.ToString (Player.name info)) ->
        completion o = Returned
        /\ parties (world o) !! Player.partyCode info = None
        /\ clients (world o) !! ws = None)
  /\ (Js.ToString (Player.name info) = None ->
        completion o = Threw
        /\ parties (world o) !! Player.partyCode info
           = Some (Party.mk (Party.code party) [])
        /\ clients (world o) = clients w).
Proof.
  intros Hcl Hparty Hkeys o. subst o.
  assert (Hgone : JsMap.delete (Player.id info) (Party.members party) = []).
  { destruct (Party.members party) as [|[id m] [|? ?]]; try discriminate.
    simpl in Hkeys. inversion Hkeys; subst id.
    unfold JsMap.delete. rewrite filter_cons. simpl.
    destruct (decide (Player.id info <> Player.id info)); [congruence|reflexivity]. }
  pose proof (HandlerFacts.log_left_None (Player.name info)
                (Player.partyCode info)) as Hlog.
  destruct (HandlerFacts.on_close_case ws w)
    as [Hcl'|info' Hcl' Hparty'|info' party' Hcl' Hparty' Hline
       |info' party' line Hcl' Hparty' Hline]; try congruence;
    assert (info' = info) by congruence; subst info';
    try congruence;
    assert (party' = party) by congruence; subst party';
    cbn [sent world completion returned threw_after closed half_closed
         parties clients];
    rewrite ?Hgone; cbn [JsMap.size length Nat.eqb].
  - split; [reflexivity|]. split; [intros c Hne; now apply lookup_insert_ne|].
    split.
    + intros [s Hs]. apply Hlog in Hline. congruence.
    + intros _. split; [reflexivity|]. split; [apply lookup_insert_eq|reflexivity].
  - split; [reflexivity|]. split; [intros c Hne; now apply lookup_delete_ne|].
    split.
    + intros _. split; [reflexivity|].
      split; apply lookup_delete_eq.
    + intros Hn. apply Hlog in Hn. congruence.
Qed.

(** X3. In every world the server can reach, a member of the party stored
    under a code carries that code and its own key, and is the player the
    directory holds for its socket; and below [2^53] no two sockets of the
    directory share an id. *)
Theorem X3_members_in_directory w c party id m :
  reachable w -> parties w !! c = Some party ->
  In (id, m) (Party.members party) ->
  Player.id m = id /\ Player.partyCode m = c
  /\ clients w !! Player.ws m = Some m
  /\ (nextId w < 2 ^ 53 ->
        forall ws' p', clients w !! ws' = Some p' ->
                       Player.id p' = id -> ws' = Player.ws m).
Proof.
  intros Hr Hparty Hin. apply reachable_wf in Hr.
  destruct (ok_member _ _ _ (wf_parties _ Hr _ _ Hparty) _ _ Hin)
    as (Eid & Ec & Ecl).
  repeat split; try assumption.
  intros Hlt ws' p' Hcl' Eid'.
  apply (ok_id_inj _ _ _ (wf_dir _ Hr) Hlt _ _ _ _ Hcl' Ecl). congruence.
Qed.

End Claims.
End PartySpec.

(** * Further properties of the handlers *)

Module Coverage.
Section Props.
Context `{Host}.
Import Server Spec Invariant Status.

(** ** [genCode] and [genName] *)

Lemma random_index_lt k n : (0 < n)%N -> (random_index k n < N.to_nat n)%nat.
Proof.
  intros Hn. unfold random_index.
  assert (Hr : (Math_random k mod 2 ^ 53 < 2 ^ 53)%N)
    by (apply N.mod_lt; discriminate).
  assert (Hq : ((Math_random k mod 2 ^ 53) * n / 2 ^ 53 < n)%N).
  { apply N.Div0.div_lt_upper_bound. nia. }
  lia.
Qed.

Lemma append_at_in_range s (a : list jsstring) i :
  (i < length a)%nat -> exists e, In e a /\ append_at s a i = s ++ e.
Proof.
  intros Hi. unfold append_at. destruct (a !! i) as [e|] eqn:He.
  - exists e. split; [|reflexivity].
    apply list_elem_of_In, list_elem_of_lookup. eauto.
  - apply lookup_ge_None in He.
    destruct (Nat.lt_irrefl _ (Nat.lt_le_trans _ _ _ Hi He)).
Qed.

(** One turn of the loop of [genCode] appends one character of [chars]. *)
Lemma code_char s k :
  exists c, In c chars
    /\ append_at s (List.map (fun c => [c]) chars)
         (random_index k (N.of_nat (length chars))) = s ++ [c].
Proof.
  destruct (append_at_in_range s (List.map (fun c => [c]) chars)
              (random_index k (N.of_nat (length chars)))) as (e & Hin & E).
  - rewrite length_map.
    pose proof (random_index_lt k (N.of_nat (length chars)) eq_refl). lia.
  - apply in_map_iff in Hin as (c & <- & Hc). eauto.
Qed.

Lemma genCode_chars k :
  exists c1 c2 c3 c4,
    genCode k = ([c1; c2; c3; c4], (k + 4)%nat)
    /\ In c1 chars /\ In c2 chars /\ In c3 chars /\ In c4 chars.
Proof.
  unfold genCode. cbn [genCode_loop].
  destruct (code_char [] k) as (c1 & H1 & ->).
  destruct (code_char ([] ++ [c1]) (S k)) as (c2 & H2 & ->).
  destruct (code_char (([] ++ [c1]) ++ [c2]) (S (S k))) as (c3 & H3 & ->).
  destruct (code_char ((([] ++ [c1]) ++ [c2]) ++ [c3]) (S (S (S k))))
    as (c4 & H4 & ->).
  exists c1, c2, c3, c4. repeat split; try assumption.
  cbn [app]. f_equal. lia.
Qed.

Lemma genCode_valid k : valid_code (fst (genCode k)).
Proof.
  destruct (genCode_chars k) as (c1 & c2 & c3 & c4 & E & H1 & H2 & H3 & H4).
  rewrite E. split; [reflexivity|].
  intros x [<-|[<-|[<-|[<-|[]]]]]; assumption.
Qed.

(** X5. Whatever [Math.random] returns, [genCode()] calls it four times
    and returns four characters of the alphabet
    "ABCDEFGHJKLMNPQRSTUVWXYZ23456789": none of them is 0, 1, I or O (code
    units 48, 49, 73 and 79), and none is a lower-case letter or a
    space, so that upper-casing and trimming leave the code as it is. *)
Theorem X5_genCode_shape k :
  snd (genCode k) = (k + 4)%nat
  /\ length (fst (genCode k)) = 4%nat
  /\ (forall x, In x (fst (genCode k)) -> In x chars)
  /\ (forall x, In x (fst (genCode k)) ->
        x <> 48%N /\ x <> 49%N /\ x <> 73%N /\ x <> 79%N)
  /\ trim (fst (genCode k)) = fst (genCode k).
Proof.
  destruct (genCode_valid k) as [Hl Hc].
  split; [apply PartySpec.genCode_draws|]. split; [exact Hl|].
  split; [exact Hc|]. split.
  - intros x Hx. apply Hc in Hx.
    repeat split; intros ->; vm_compute in Hx; intuition discriminate.
  - destruct (genCode_chars k) as (c1 & c2 & c3 & c4 & E & H1 & H2 & H3 & H4).
    rewrite E. cbn [fst].
    assert (Hns : forall c, In c chars -> is_space c = false).
    { intros c Hin. vm_compute in Hin.
      repeat (destruct Hin as [<-|Hin]; [reflexivity|]). destruct Hin. }
    unfold trim, trimEnd. cbn [trimStart]. rewrite (Hns c1 H1).
    cbn [rev app trimStart]. rewrite (Hns c4 H4). reflexivity.
Qed.

Lemma word_short a n :
  In a ADJECTIVES -> In n NOUNS ->
  a ++ n <> [] /\ (length (a ++ n) <= 13)%nat.
Proof.
  unfold ADJECTIVES, NOUNS. cbn [In]. intros Ha Hn.
  repeat (destruct Ha as [<-|Ha]);
    repeat (destruct Hn as [<-|Hn]);
    try contradiction; (split; [discriminate|vm_compute; lia]).
Qed.

Lemma genName_words k :
  exists a n, In a ADJECTIVES /\ In n NOUNS
    /\ genName k = (a ++ n, (k + 2)%nat).
Proof.
  unfold genName.
  destruct (append_at_in_range [] ADJECTIVES
              (random_index k (N.of_nat (length ADJECTIVES)))) as (a & Ha & ->).
  { pose proof (random_index_lt k (N.of_nat (length ADJECTIVES)) eq_refl). lia. }
  destruct (append_at_in_range ([] ++ a) NOUNS
              (random_index (S k) (N.of_nat (length NOUNS)))) as (n & Hn & ->).
  { pose proof (random_index_lt (S k) (N.of_nat (length NOUNS)) eq_refl). lia. }
  exists a, n. repeat split; try assumption. cbn [app]. f_equal. lia.
Qed.

Lemma slice0_short n s : (length s <= n)%nat -> slice0 n s = s.
Proof. intros Hl. unfold slice0. now apply take_ge. Qed.

(** X6. [genName()] calls [Math.random] twice and returns one of the
    eight adjectives followed by one of the eight nouns: at most 13 code
    units, so that [slice(0, 20)] keeps it whole, and a [create] or a
    [join] whose [name] is absent or falsy names the player just that. *)
Theorem X6_genName_shape k :
  exists a n, In a ADJECTIVES /\ In n NOUNS
    /\ genName k = (a ++ n, (k + 2)%nat)
    /\ (1 <= length (a ++ n) <= 13)%nat
    /\ forall msg, Js.ToBoolean (Js.get msg "name") = false ->
         player_name msg k = Some (JStr (a ++ n), (k + 2)%nat).
Proof.
  destruct (genName_words k) as (a & n & Ha & Hn & E).
  destruct (word_short a n Ha Hn) as [Hne Hl].
  exists a, n. repeat split; try assumption.
  - destruct (a ++ n); [congruence|simpl; lia].
  - intros msg Hf. unfold player_name. rewrite Hf, E. cbv beta iota.
    rewrite slice0_short by lia. reflexivity.
Qed.

(** The name [create] and [join] give a player. *)
Lemma player_name_ok msg k name k' :
  player_name msg k = Some (name, k') ->
  name_ok name /\ (k' = k \/ k' = (k + 2)%nat).
Proof.
  unfold player_name.
  destruct (Js.ToBoolean (Js.get msg "name")) eqn:Ht.
  - destruct (Js.get msg "name") as [| | | |s|l|]; try discriminate;
      intros [= <- <-]; (split; [|now left]).
    + left. exists (slice0 20 s). split; [reflexivity|].
      split; [|apply JsStringFacts.slice0_length].
      destruct s; [discriminate|]. discriminate.
    + right. exists (take 20 l). split; [reflexivity|].
      rewrite length_take. lia.
  - destruct (genName_words k) as (a & n & Ha & Hn & ->).
    destruct (word_short a n Ha Hn) as [Hne Hl].
    cbv beta iota. rewrite slice0_short by lia.
    intros [= <- <-]. split; [|now right].
    left. exists (a ++ n).
    split; [reflexivity|]. split; [assumption|lia].
Qed.

(** The colour [create] and [join] give a player. *)
Lemma player_color_palette next : 1 <= next -> in_palette (player_color next).
Proof.
  intros Hn. unfold player_color, Js.at_index.
  change (Z.of_nat (length COLORS)) with 8.
  rewrite Z.rem_mod_nonneg by lia.
  pose proof (Z.mod_pos_bound (next - 1) 8 ltac:(lia)) as Hb.
  destruct (COLORS !! Z.to_nat ((next - 1) mod 8)) as [c|] eqn:E.
  - exists c. split; [|reflexivity].
    apply list_elem_of_In, list_elem_of_lookup. eauto.
  - apply lookup_ge_None in E. change (length COLORS) with 8%nat in E. lia.
Qed.

(** ** One handler run as a move *)

Lemma fresh_code_valid fuel ps code k c k' :
  valid_code code -> fresh_code fuel ps code k = Some (c, k') -> valid_code c.
Proof.
  revert code k. induction fuel as [|fuel IH]; intros code k Hv;
    rewrite PartySpec.fresh_code_eq.
  - destruct (ps !! code); [discriminate|]. now intros [= <- <-].
  - destruct (ps !! code); [|now intros [= <- <-]].
    apply IH, genCode_valid.
Qed.

Lemma drawn_code_valid fuel ps k1 code0 k2 c k' :
  genCode k1 = (code0, k2) -> fresh_code fuel ps code0 k2 = Some (c, k') ->
  valid_code c.
Proof.
  intros Hgen. apply fresh_code_valid.
  replace code0 with (fst (genCode k1)) by now rewrite Hgen.
  apply genCode_valid.
Qed.

Lemma on_message_move fuel ws parsed w :
  move w (world (on_message fuel ws parsed w)).
Proof.
  destruct parsed as [msg|]; [|now apply move_stay; auto].
  destruct (HandlerFacts.on_message_case fuel ws msg w)
    as [_|_|_|_|_|_|_ _ _ _ _ _ _].
  - apply move_stay; auto.
  - destruct (HandlerFacts.on_create_case fuel ws msg w)
      as [info Hcl|Hcl Hname|name k1 code0 k2 Hcl Hname Hgen Hfresh
         |name k1 code0 k2 code k3 Hcl Hname Hgen Hfresh Hlog
         |name k1 code0 k2 code k3 line Hcl Hname Hgen Hfresh Hlog];
      try (apply move_stay; simpl; now auto);
      (eapply move_create; try eassumption;
       [eapply fresh_code_absent|eapply drawn_code_valid]; eassumption).
  - destruct (HandlerFacts.on_join_case ws msg w);
      try (apply move_stay; simpl; now auto);
      eapply move_join; eassumption.
  - destruct (HandlerFacts.on_state_case ws msg w);
      try (apply move_stay; simpl; now auto).
    eapply move_state; eassumption.
  - destruct (HandlerFacts.on_chat_case ws msg w); apply move_stay; auto.
  - unfold on_event. destruct (clients w !! ws) as [info|];
      [|now apply move_stay; auto].
    destruct (parties w !! Player.partyCode info); apply move_stay; auto.
  - apply move_stay; auto.
Qed.

Lemma on_close_move ws w : move w (world (on_close ws w)).
Proof.
  destruct (HandlerFacts.on_close_case ws w).
  - apply move_stay; auto.
  - eapply move_orphan; eassumption.
  - eapply move_half_close; eassumption.
  - eapply move_close; eassumption.
Qed.

(** A handler that returns has not thrown at its log line. *)
Lemma on_message_advance fuel ws parsed w :
  completion (on_message fuel ws parsed w) = Returned ->
  advance w (world (on_message fuel ws parsed w)).
Proof.
  destruct parsed as [msg|]; [|intros _; now apply advance_stay; auto].
  destruct (HandlerFacts.on_message_case fuel ws msg w)
    as [_|_|_|_|_|_|_ _ _ _ _ _ _].
  - discriminate.
  - destruct (HandlerFacts.on_create_case fuel ws msg w)
      as [info Hcl|Hcl Hname|name k1 code0 k2 Hcl Hname Hgen Hfresh
         |name k1 code0 k2 code k3 Hcl Hname Hgen Hfresh Hlog
         |name k1 code0 k2 code k3 line Hcl Hname Hgen Hfresh Hlog];
      try discriminate; intros _; [apply advance_stay; now auto|].
    eapply advance_create; try eassumption.
    + eapply fresh_code_absent; eassumption.
    + eapply drawn_code_valid; eassumption.
    + exact (HandlerFacts.logged_renders _ _
               (HandlerFacts.log_created_None _ _ _) _ Hlog).
  - destruct (HandlerFacts.on_join_case ws msg w)
      as [info Hcl|Hcl Hcode|code Hcl Hcode Hparty|code party Hcl Hcode Hparty Hfull
         |code party Hcl Hcode Hparty Hroom Hname
         |code party name k1 Hcl Hcode Hparty Hroom Hname Hlog
         |code party name k1 line Hcl Hcode Hparty Hroom Hname Hlog];
      try discriminate; intros _; try (apply advance_stay; now auto).
    eapply advance_join; try eassumption.
    exact (HandlerFacts.logged_renders _ _
             (HandlerFacts.log_joined_None _ _ _) _ Hlog).
  - destruct (HandlerFacts.on_state_case ws msg w);
      try discriminate; intros _; try (apply advance_stay; now auto).
    eapply advance_state; eassumption.
  - destruct (HandlerFacts.on_chat_case ws msg w); intros _;
      apply advance_stay; auto.
  - intros _. unfold on_event. destruct (clients w !! ws) as [info|];
      [|now apply advance_stay; auto].
    destruct (parties w !! Player.partyCode info); apply advance_stay; auto.
  - intros _. apply advance_stay; auto.
Qed.

Lemma on_close_advance ws w :
  completion (on_close ws w) = Returned -> advance w (world (on_close ws w)).
Proof.
  destruct (HandlerFacts.on_close_case ws w); try discriminate; intros _.
  - apply advance_stay; auto.
  - eapply advance_orphan; eassumption.
  - eapply advance_close; eassumption.
Qed.

Lemma advance_move w w' : advance w w' -> move w w'.
Proof.
  intros [| | | | |]; [eapply move_stay|eapply move_create|eapply move_join
                       |eapply move_state|eapply move_close|eapply move_orphan];
    eassumption.
Qed.

(** Induction over the worlds a handler can leave, one move at a time,
    and over those of a server in which no handler has thrown. *)
Lemma reachable_by_moves (P : World -> Prop) :
  P init ->
  (forall w w', reachable w -> P w -> move w w' -> P w') ->
  forall w, reachable w -> P w.
Proof.
  intros Hinit Hstep w Hr. induction Hr as [|fuel ws parsed w Hr IH|ws w Hr IH].
  - exact Hinit.
  - exact (Hstep _ _ Hr IH (on_message_move fuel ws parsed w)).
  - exact (Hstep _ _ Hr IH (on_close_move ws w)).
Qed.

Lemma alive_by_advances (P : World -> Prop) :
  P init ->
  (forall w w', alive w -> P w -> advance w w' -> P w') ->
  forall w, alive w -> P w.
Proof.
  intros Hinit Hstep w Ha.
  induction Ha as [|fuel ws parsed w Ha IH Hret|ws w Ha IH Hret].
  - exact Hinit.
  - exact (Hstep _ _ Ha IH (on_message_advance fuel ws parsed w Hret)).
  - exact (Hstep _ _ Ha IH (on_close_advance ws w Hret)).
Qed.

(** ** What the worlds the server reaches look like *)

Lemma incr_range n : 1 <= n <= 2 ^ 53 -> 1 <= incr n <= 2 ^ 53.
Proof. unfold incr. destruct (Z.ltb_spec n (2 ^ 53)); lia. Qed.

Lemma new_player_ok ws msg name k k' code n cell :
  1 <= n <= 2 ^ 53 -> valid_code code ->
  player_name msg k = Some (name, k') ->
  player_ok (Player.mk (of_integer n) name (player_color (incr n)) ws code cell).
Proof.
  intros Hn Hc Hname. split; cbn [Player.partyCode Player.name Player.color Player.id].
  - exact Hc.
  - exact (proj1 (player_name_ok _ _ _ _ Hname)).
  - apply player_color_palette. pose proof (incr_range n Hn). lia.
  - exists n. split; [lia|reflexivity].
Qed.

Lemma tidy_move w w' : wf w -> tidy w -> move w w' -> tidy w'.
Proof.
  intros Hwf [Hn Hc Hp Hd] Hs.
  assert (Hnew : forall ws pl,
            Player.lastState pl = length (cells w) ->
            forall ws1 ws2 p1 p2,
              <[ws := pl]> (clients w) !! ws1 = Some p1 ->
              <[ws := pl]> (clients w) !! ws2 = Some p2 ->
              Player.lastState p1 = Player.lastState p2 -> ws1 = ws2).
  { intros ws pl Hcell ws1 ws2 p1 p2 H1 H2 E.
    apply lookup_insert_Some in H1 as [[<- <-]|[Hne1 H1]];
      apply lookup_insert_Some in H2 as [[<- <-]|[Hne2 H2]].
    - reflexivity.
    - pose proof (proj2 (ok_client _ _ _ (wf_dir _ Hwf) _ _ H2)). lia.
    - pose proof (proj2 (ok_client _ _ _ (wf_dir _ Hwf) _ _ H1)). lia.
    - eauto. }
  destruct Hs as [w' Ep Ec Ece En
                 |ws msg name k1 code k Hcl Hname Hfree Hv
                 |ws msg name k code party Hcl Hparty Hroom Hname
                 |ws info party st Hcl Hparty
                 |ws info party Hcl Hparty
                 |ws info party Hcl Hparty
                 |ws info Hcl Hparty].
  - split; rewrite ?Ep, ?Ec; try assumption.
    destruct En as [->| ->]; [assumption|now apply incr_range].
  - unfold created. split; cbn [parties clients cells nextId].
    + now apply incr_range.
    + intros c p Hlk. apply lookup_insert_Some in Hlk as [[<- _]|[_ Hlk]]; eauto.
    + intros ws' p Hlk. apply lookup_insert_Some in Hlk as [[_ <-]|[_ Hlk]]; eauto.
      eapply new_player_ok; eauto.
    + now apply Hnew.
  - unfold joined. split; cbn [parties clients cells nextId].
    + now apply incr_range.
    + intros c p Hlk. apply lookup_insert_Some in Hlk as [[<- _]|[_ Hlk]]; eauto.
    + intros ws' p Hlk. apply lookup_insert_Some in Hlk as [[_ <-]|[_ Hlk]]; eauto.
      eapply new_player_ok; eauto.
    + now apply Hnew.
  - unfold stated. now split.
  - unfold closed. split; cbn [parties clients cells nextId].
    + assumption.
    + intros c p Hlk. destruct (_ =? 0)%nat.
      * apply lookup_delete_Some in Hlk as [_ Hlk]. eauto.
      * apply lookup_insert_Some in Hlk as [[<- _]|[_ Hlk]]; eauto.
    + intros ws' p Hlk. apply lookup_delete_Some in Hlk as [_ Hlk]. eauto.
    + intros ws1 ws2 p1 p2 H1 H2.
      apply lookup_delete_Some in H1 as [_ H1].
      apply lookup_delete_Some in H2 as [_ H2]. eauto.
  - unfold half_closed. split; cbn [parties clients cells nextId];
      try assumption.
    intros c p Hlk. apply lookup_insert_Some in Hlk as [[<- _]|[_ Hlk]]; eauto.
  - split; cbn [parties clients cells nextId]; try assumption.
    + intros ws' p Hlk. apply lookup_delete_Some in Hlk as [_ Hlk]. eauto.
    + intros ws1 ws2 p1 p2 H1 H2.
      apply lookup_delete_Some in H1 as [_ H1].
      apply lookup_delete_Some in H2 as [_ H2]. eauto.
Qed.

Lemma reachable_tidy w : reachable w -> tidy w.
Proof.
  apply reachable_by_moves.
  - split; cbn [init parties clients nextId]; try lia;
      intros; now rewrite ?lookup_empty in *.
  - intros w0 w' Hr Ht Hs.
    exact (tidy_move w0 w' (reachable_wf _ Hr) Ht Hs).
Qed.

(** X7. In every world the server can reach, the key of a party in
    [parties] is a code as [genCode] makes them (four characters of the
    alphabet) and is the [code] the party carries, and the [partyCode] of
    every player is such a code. *)
Theorem X7_codes_well_formed w :
  reachable w ->
  (forall c p, parties w !! c = Some p ->
     length c = 4%nat /\ (forall x, In x c -> In x chars) /\ Party.code p = c)
  /\ (forall ws p, clients w !! ws = Some p ->
        length (Player.partyCode p) = 4%nat
        /\ forall x, In x (Player.partyCode p) -> In x chars).
Proof.
  intros Hr. pose proof (reachable_tidy w Hr) as Ht.
  pose proof (reachable_wf w Hr) as Hwf. split.
  - intros c p Hlk. destruct (tidy_codes _ Ht _ _ Hlk) as [Hl Hc].
    repeat split; try assumption.
    exact (ok_code _ _ _ (wf_parties _ Hwf _ _ Hlk)).
  - intros ws p Hlk.
    exact (ok_party_code _ (tidy_players _ Ht _ _ Hlk)).
Qed.

(** X8. In every world the server can reach, a player (looked up by its
    socket, or as a member of a party) has a name that is a string of 1 to
    20 code units or an array of at most 20 elements, a colour of the
    palette, and an id that renders an integer between 1 and [2^53]; the
    counter [nextId] itself stays between 1 and [2^53], and as long as it
    is below [2^53] every id in use renders a smaller number, so that the
    id to be given out next is nobody's. *)
Theorem X8_player_fields w :
  reachable w ->
  1 <= nextId w <= 2 ^ 53
  /\ (forall ws p, clients w !! ws = Some p ->
        Player.ws p = ws /\ name_ok (Player.name p)
        /\ in_palette (Player.color p)
        /\ exists k, 1 <= k <= 2 ^ 53 /\ Player.id p = of_integer k)
  /\ (forall c party id m,
        parties w !! c = Some party -> In (id, m) (Party.members party) ->
        name_ok (Player.name m) /\ in_palette (Player.color m)
        /\ exists k, 1 <= k <= 2 ^ 53 /\ id = of_integer k)
  /\ (nextId w < 2 ^ 53 ->
      forall ws p, clients w !! ws = Some p ->
        Player.id p <> of_integer (nextId w)
        /\ exists k, 1 <= k < nextId w /\ Player.id p = of_integer k).
Proof.
  intros Hr. pose proof (reachable_tidy w Hr) as Ht.
  pose proof (reachable_wf w Hr) as Hwf.
  split; [exact (tidy_next _ Ht)|]. split; [|split].
  - intros ws p Hlk. destruct (tidy_players _ Ht _ _ Hlk) as [_ Hname Hcol Hid].
    split; [exact (proj1 (ok_client _ _ _ (wf_dir _ Hwf) _ _ Hlk))|]. auto.
  - intros c party id m Hlk Hin.
    destruct (ok_member _ _ _ (wf_parties _ Hwf _ _ Hlk) _ _ Hin) as (Eid & _ & Ecl).
    destruct (tidy_players _ Ht _ _ Ecl) as [_ Hname Hcol Hid].
    rewrite <- Eid. auto.
  - intros Hlt ws p Hlk.
    destruct (ok_ids _ _ _ (wf_dir _ Hwf) Hlt _ _ Hlk) as (k & Hk & E).
    split; [|eauto]. rewrite E. intros E'.
    apply JsStringFacts.of_integer_inj in E'; lia.
Qed.

(** ** The [state] branch touches one cell *)

Lemma read_after_state w ws info st p :
  wf w -> tidy w -> clients w !! ws = Some info ->
  clients w !! Player.ws p = Some p ->
  read (<[Player.lastState info := Some st]> (cells w)) p
  = if decide (Player.ws p = ws) then Some st else read (cells w) p.
Proof.
  intros Hwf Ht Hcl Hp. unfold read.
  destruct (decide (Player.ws p = ws)) as [E|Hne].
  - rewrite E, Hcl in Hp. inversion Hp; subst p.
    rewrite list_lookup_insert_eq; [reflexivity|].
    exact (proj2 (ok_client _ _ _ (wf_dir _ Hwf) _ _ Hcl)).
  - rewrite list_lookup_insert_ne; [reflexivity|].
    intros E. apply Hne. symmetry.
    exact (tidy_cells _ Ht _ _ _ _ Hcl Hp E).
Qed.

Lemma existing_after_state w ws info st party c :
  wf w -> tidy w -> clients w !! ws = Some info ->
  parties w !! c = Some party ->
  existing (<[Player.lastState info := Some st]> (cells w)) party
  = List.map
      (fun e => mkInfo (Player.id (snd e)) (Player.name (snd e))
                  (Player.color (snd e))
                  (if decide (Player.ws (snd e) = ws) then Some st
                   else read (cells w) (snd e)))
      (Party.members party).
Proof.
  intros Hwf Ht Hcl Hparty. unfold existing.
  apply map_ext_in. intros [id m] Hin. cbn [snd].
  destruct (ok_member _ _ _ (wf_parties _ Hwf _ _ Hparty) _ _ Hin) as (_ & _ & Ecl).
  now rewrite (read_after_state w ws info st m Hwf Ht Hcl Ecl).
Qed.

(** X9. A [state] message from a player whose party exists changes at
    most one thing in the world, the [lastState] of that player: the two
    maps, the counter and the number of draws are as they were; when
    building the state throws, the world is as it was, and otherwise the
    [lastState] of the sender is the state built, and that of every other
    player, read through the directory or through any party, is what it
    was. *)
Theorem X9_state_touches_one_player fuel ws msg w info party :
  reachable w ->
  clients w !! ws = Some info ->
  parties w !! Player.partyCode info = Some party ->
  has_type msg "state" = true ->
  let o := on_message fuel ws (Some msg) w in
  parties (world o) = parties w /\ clients (world o) = clients w
  /\ nextId (world o) = nextId w /\ draws (world o) = draws w
  /\ length (cells (world o)) = length (cells w)
  /\ (state_of msg = None -> world o = w)
  /\ (forall st, state_of msg = Some st ->
        (forall ws' p', clients w !! ws' = Some p' ->
           read (cells (world o)) p'
           = if decide (ws' = ws) then Some st else read (cells w) p')
        /\ (forall c party' id m,
              parties w !! c = Some party' -> In (id, m) (Party.members party') ->
              read (cells (world o)) m
              = if decide (Player.ws m = ws) then Some st
                else read (cells w) m)).
Proof.
  intros Hr Hcl Hparty Hk o. subst o.
  pose proof (reachable_tidy w Hr) as Ht.
  pose proof (reachable_wf w Hr) as Hwf.
  rewrite (proj1 (proj2 (proj2 (PartySpec.dispatch fuel ws msg w))) Hk).
  unfold on_state. rewrite Hcl, Hparty.
  destruct (state_of msg) as [st0|];
    cbn [world returned threw parties clients cells nextId draws];
    repeat (split; [reflexivity|]).
  - split; [apply length_insert|]. split; [discriminate|].
    intros st [= <-]. split.
    + intros ws' p' Hcl'.
      pose proof (proj1 (ok_client _ _ _ (wf_dir _ Hwf) _ _ Hcl')) as Ews.
      rewrite <- Ews in Hcl'.
      rewrite (read_after_state w ws info _ p' Hwf Ht Hcl Hcl'). rewrite Ews.
      reflexivity.
    + intros c party' id m Hlk Hin.
      destruct (ok_member _ _ _ (wf_parties _ Hwf _ _ Hlk) _ _ Hin) as (_ & _ & Ecl).
      exact (read_after_state w ws info _ m Hwf Ht Hcl Ecl).
  - discriminate.
Qed.

Lemma state_world fuel ws msg w info party st :
  clients w !! ws = Some info ->
  parties w !! Player.partyCode info = Some party ->
  has_type msg "state" = true -> state_of msg = Some st ->
  world (on_message fuel ws (Some msg) w) = stated info st w.
Proof.
  intros Hcl Hparty Hk Est.
  rewrite (proj1 (proj2 (proj2 (PartySpec.dispatch fuel ws msg w))) Hk).
  unfold on_state. now rewrite Hcl, Hparty, Est.
Qed.

(** X10. What a newcomer is told of the players already there: after a
    [state] message of a player that the handler returned from (the
    state was built), the welcome of whoever joins that player's party
    next lists the members of the party in the order of the member map,
    the sender of the state with the state the server built from its
    message, and every other member with the state it had before
    ([null], here [None], if it never sent one). *)
Theorem X10_welcome_reports_last_state
    fuel ws msg w info party st fuel' ws' parsed' to id players color :
  reachable w ->
  clients w !! ws = Some info ->
  parties w !! Player.partyCode info = Some party ->
  has_type msg "state" = true -> state_of msg = Some st ->
  In (to, Welcome id (Player.partyCode info) players color)
    (sent (on_message fuel' ws' parsed'
             (world (on_message fuel ws (Some msg) w)))) ->
  completion (on_message fuel ws (Some msg) w) = Returned
  /\ players
     = List.map
         (fun e => mkInfo (Player.id (snd e)) (Player.name (snd e))
                     (Player.color (snd e))
                     (if decide (Player.ws (snd e) = ws) then Some st
                      else read (cells w) (snd e)))
         (Party.members party)
  /\ (In (Player.id info, info) (Party.members party) ->
        In (mkInfo (Player.id info) (Player.name info) (Player.color info)
              (Some st)) players).
Proof.
  intros Hr Hcl Hparty Hk Est Hin.
  pose proof (reachable_tidy w Hr) as Ht.
  pose proof (reachable_wf w Hr) as Hwf.
  split.
  { rewrite (proj1 (proj2 (proj2 (PartySpec.dispatch fuel ws msg w))) Hk).
    unfold on_state. now rewrite Hcl, Hparty, Est. }
  rewrite (state_world fuel ws msg w info party st Hcl Hparty Hk Est) in Hin.
  assert (Hplayers : players
            = existing (<[Player.lastState info := Some st]> (cells w))
                party).
  { destruct (PartySpec.welcome_inv _ _ _ _ _ _ _ _ _ Hin)
      as (_ & _ & _ & _ & name & k & _
          & [(_ & _ & _ & Hfree)|(party1 & _ & _ & Ep & Hp1 & _)]).
    - cbn [stated parties] in Hfree. congruence.
    - cbn [stated parties cells] in Hp1, Ep. congruence. }
  rewrite Hplayers.
  rewrite (existing_after_state w ws info _ party _ Hwf Ht Hcl Hparty).
  split; [reflexivity|].
  intros Hmem. apply in_map_iff. exists (Player.id info, info).
  split; [|assumption]. cbn [snd].
  rewrite (proj1 (ok_client _ _ _ (wf_dir _ Hwf) _ _ Hcl)).
  destruct (decide (ws = ws)); [reflexivity|congruence].
Qed.

(** ** Every player belongs to the party it names *)

Lemma In_set_new {K V} `{EqDecision K} (k : K) (v : V) m :
  In (k, v) (JsMap.set k v m).
Proof.
  induction m as [|[k0 v0] m IH]; simpl; [now left|].
  destruct (decide (k = k0)); simpl; auto.
Qed.

Lemma move_next w w' : move w w' -> nextId w <= nextId w'.
Proof.
  intros Hs. destruct Hs as [w0 _ _ _ [E|E]| | | | | |];
    cbn [created joined stated closed half_closed nextId]; rewrite ?E;
    try lia; apply incr_spec.
Qed.

Lemma advance_next w w' : advance w w' -> nextId w <= nextId w'.
Proof. intros Hs. apply move_next. now apply advance_move. Qed.

Lemma attached_advance w w' :
  wf w -> nextId w' < 2 ^ 53 -> attached w -> advance w w' -> attached w'.
Proof.
  intros Hwf Hlt Ha Hs.
  assert (Hlt0 : nextId w < 2 ^ 53) by (pose proof (advance_next w w' Hs); lia).
  destruct Hs as [w' Ep Ec Ece En
                 |ws msg name k1 code k Hcl Hname Hfree Hv _
                 |ws msg name k code party Hcl Hparty Hroom Hname _
                 |ws info party st Hcl Hparty
                 |ws info party Hcl Hparty
                 |ws info Hcl Hparty];
    intros ws' p Hp.
  - rewrite Ec in Hp. rewrite Ep. eauto.
  - unfold created in *. cbn [parties clients] in *.
    apply lookup_insert_Some in Hp as [[_ <-]|[_ Hp]].
    + cbn [Player.partyCode Player.id]. rewrite lookup_insert_eq.
      eexists. split; [reflexivity|]. now left.
    + destruct (Ha _ _ Hp) as (party & Hparty & Hin).
      exists party. split; [|assumption].
      rewrite lookup_insert_ne; [assumption|]. congruence.
  - unfold joined in *. cbn [parties clients] in *.
    apply lookup_insert_Some in Hp as [[_ <-]|[_ Hp]].
    + cbn [Player.partyCode Player.id]. rewrite lookup_insert_eq.
      eexists. split; [reflexivity|]. apply In_set_new.
    + destruct (Ha _ _ Hp) as (party0 & Hparty0 & Hin).
      destruct (decide (Player.partyCode p = code)) as [E|Hne].
      * rewrite E in *. rewrite lookup_insert_eq.
        assert (party0 = party) by congruence. subst party0.
        eexists. split; [reflexivity|]. cbn [Party.members].
        apply JsMapFacts.In_set_old; [assumption|].
        destruct (ok_ids _ _ _ (wf_dir _ Hwf) Hlt0 _ _ Hp) as (n & Hn & ->).
        intros E'. apply JsStringFacts.of_integer_inj in E'; lia.
      * exists party0. split; [|assumption].
        rewrite lookup_insert_ne; [assumption|]. congruence.
  - apply (Ha _ _ Hp).
  - unfold closed in *. cbn [parties clients] in *.
    apply lookup_delete_Some in Hp as [Hne Hp].
    destruct (Ha _ _ Hp) as (party0 & Hparty0 & Hin).
    destruct (decide (Player.partyCode p = Player.partyCode info)) as [E|Hnc].
    + rewrite E in *.
      assert (party0 = party) by congruence. subst party0.
      assert (Hin' : In (Player.id p, p)
                       (JsMap.delete (Player.id info) (Party.members party))).
      { apply JsMapFacts.In_delete. split; [assumption|]. intros Eid.
        apply Hne. symmetry.
        exact (ok_id_inj _ _ _ (wf_dir _ Hwf) Hlt0 _ _ _ _ Hp Hcl Eid). }
      destruct (Nat.eqb_spec
                  (JsMap.size (JsMap.delete (Player.id info) (Party.members party))) 0)
        as [Hz|Hnz].
      * unfold JsMap.size in Hz. apply length_zero_iff_nil in Hz.
        rewrite Hz in Hin'. destruct Hin'.
      * rewrite lookup_insert_eq. eexists. split; [reflexivity|]. exact Hin'.
    + exists party0. split; [|assumption].
      destruct (_ =? 0)%nat.
      * rewrite lookup_delete_ne; [assumption|]. congruence.
      * rewrite lookup_insert_ne; [assumption|]. congruence.
  - cbn [parties clients] in *.
    apply lookup_delete_Some in Hp as [Hne Hp]. apply (Ha _ _ Hp).
Qed.

Lemma alive_attached w : alive w -> nextId w < 2 ^ 53 -> attached w.
Proof.
  revert w. apply (alive_by_advances (fun w => nextId w < 2 ^ 53 -> attached w)).
  - intros _ ws p Hp. cbn [init clients] in Hp. now rewrite lookup_empty in Hp.
  - intros w w' Hr IH Hs Hlt.
    apply (attached_advance w w' (reachable_wf _ (alive_reachable _ Hr)) Hlt);
      [|assumption].
    apply IH. pose proof (advance_next w w' Hs). lia.
Qed.

(** X11. In every world of a server in which no handler has thrown,
    reached with the counter below [2^53], a socket of the directory is
    in exactly one party: the party its player's [partyCode] names exists
    and has the player among its members, under the player's id, and no
    entry of any other party, or under any other id, sits on that
    socket. *)
Theorem X11_player_in_its_party w ws p :
  alive w -> nextId w < 2 ^ 53 -> clients w !! ws = Some p ->
  (exists party, parties w !! Player.partyCode p = Some party
                 /\ In (Player.id p, p) (Party.members party))
  /\ (forall c party id m,
        parties w !! c = Some party -> In (id, m) (Party.members party) ->
        Player.ws m = ws ->
        c = Player.partyCode p /\ id = Player.id p /\ m = p).
Proof.
  intros Hr Hlt Hp. split; [exact (alive_attached w Hr Hlt ws p Hp)|].
  intros c party id m Hlk Hin Hws.
  pose proof (reachable_wf w (alive_reachable _ Hr)) as Hwf.
  destruct (member_on_socket w ws p c party id m Hwf Hp Hlk Hin Hws) as [Ec Eid].
  repeat split; try assumption.
  destruct (ok_member _ _ _ (wf_parties _ Hwf _ _ Hlk) _ _ Hin) as (_ & _ & Ecl).
  rewrite Hws in Ecl. congruence.
Qed.

(** ** The figures of the status endpoint *)

Lemma headcount_comm (j1 j2 : jsstring) (z1 z2 : Party.t) (y : nat) :
  (JsMap.size (Party.members z1) + (JsMap.size (Party.members z2) + y))%nat
  = (JsMap.size (Party.members z2) + (JsMap.size (Party.members z1) + y))%nat.
Proof. lia. Qed.

Lemma headcount_empty : headcount ∅ = 0%nat.
Proof. unfold headcount. apply map_fold_empty. Qed.

Lemma headcount_insert_new ps c p :
  ps !! c = None ->
  headcount (<[c := p]> ps) = (JsMap.size (Party.members p) + headcount ps)%nat.
Proof.
  intros Hfree. unfold headcount. rewrite map_fold_insert_L; auto.
  intros. apply headcount_comm; assumption.
Qed.

Lemma headcount_delete ps c p :
  ps !! c = Some p ->
  headcount ps = (JsMap.size (Party.members p) + headcount (delete c ps))%nat.
Proof.
  intros Hlk. unfold headcount. rewrite (map_fold_delete_L _ _ c p ps); auto.
  intros. apply headcount_comm; assumption.
Qed.

Lemma headcount_replace ps c p p' :
  ps !! c = Some p ->
  (headcount (<[c := p']> ps) + JsMap.size (Party.members p))%nat
  = (JsMap.size (Party.members p') + headcount ps)%nat.
Proof.
  intros Hlk. rewrite <- insert_delete_eq.
  rewrite headcount_insert_new by apply lookup_delete_eq.
  rewrite (headcount_delete ps c p Hlk). lia.
Qed.

Lemma headcount_bounds ps :
  (forall c p, ps !! c = Some p ->
     (1 <= JsMap.size (Party.members p) <= 8)%nat) ->
  (size ps <= headcount ps <= 8 * size ps)%nat.
Proof.
  induction ps as [|c p ps Hfree IH] using map_ind; intros Hb.
  - rewrite headcount_empty, map_size_empty. lia.
  - rewrite headcount_insert_new, map_size_insert_None by assumption.
    pose proof (Hb c p (lookup_insert_eq _ _ _)).
    assert (size ps <= headcount ps <= 8 * size ps)%nat; [|lia].
    apply IH. intros c' p' Hlk. apply (Hb c' p').
    rewrite lookup_insert_ne; [assumption|]. congruence.
Qed.

Lemma size_delete_present {K V} `{EqDecision K} (k : K) (m : list (K * V)) :
  NoDup (JsMap.keys m) -> k ∈ JsMap.keys m ->
  S (JsMap.size (JsMap.delete k m)) = JsMap.size m.
Proof.
  unfold JsMap.size, JsMap.delete, JsMap.keys.
  induction m as [|[k0 v0] m IH]; simpl; intros Hnd Hin.
  - now apply elem_of_nil in Hin.
  - apply NoDup_cons in Hnd as [Hni Hnd]. rewrite filter_cons. simpl.
    destruct (decide (k0 <> k)) as [Hne|He].
    + simpl. f_equal. apply IH; [assumption|].
      apply elem_of_cons in Hin as [->|Hin]; [congruence|assumption].
    + assert (k0 = k) by (destruct (decide (k0 = k)); tauto). subst k0.
      f_equal. clear IH Hin Hnd He.
      induction m as [|[k1 v1] m IH]; [reflexivity|].
      rewrite filter_cons. simpl in *.
      destruct (decide (k1 <> k)) as [_|He].
      * simpl. f_equal. apply IH. intros Hin. apply Hni. now right.
      * exfalso. apply Hni.
        destruct (decide (k1 = k)) as [->|]; [left|tauto].
Qed.

Lemma census_advance w w' :
  wf w -> attached w -> nextId w' < 2 ^ 53 ->
  size (clients w) = headcount (parties w) -> advance w w' ->
  size (clients w') = headcount (parties w').
Proof.
  intros Hwf Ha Hlt Hc Hs.
  assert (Hlt0 : nextId w < 2 ^ 53) by (pose proof (advance_next w w' Hs); lia).
  destruct Hs as [w' Ep Ec Ece En
                 |ws msg name k1 code k Hcl Hname Hfree Hv _
                 |ws msg name k code party Hcl Hparty Hroom Hname _
                 |ws info party st Hcl Hparty
                 |ws info party Hcl Hparty
                 |ws info Hcl Hparty].
  - now rewrite Ep, Ec.
  - unfold created. cbn [parties clients].
    rewrite map_size_insert_None, headcount_insert_new by assumption.
    cbn [Party.members JsMap.set JsMap.size length]. lia.
  - unfold joined. cbn [parties clients].
    rewrite map_size_insert_None by assumption.
    pose proof (headcount_replace (parties w) code party
                  (Party.mk (Party.code party)
                     (JsMap.set (of_integer (nextId w))
                        (Player.mk (of_integer (nextId w)) name
                           (player_color (incr (nextId w))) ws code
                           (length (cells w)))
                        (Party.members party))) Hparty) as Hrep.
    cbn [Party.members] in Hrep. rewrite JsMapFacts.size_set in Hrep.
    destruct (decide _) as [Hin|_] in Hrep; [|lia].
    exfalso. exact (PartySpec.next_id_fresh w code party Hwf Hlt0 Hparty Hin).
  - exact Hc.
  - unfold closed. cbn [parties clients].
    rewrite map_size_delete_Some by eauto.
    destruct (Ha _ _ Hcl) as (party0 & Hparty0 & Hin).
    assert (party0 = party) by congruence. subst party0.
    assert (Hsz : S (JsMap.size (JsMap.delete (Player.id info) (Party.members party)))
                  = JsMap.size (Party.members party)).
    { apply size_delete_present.
      - exact (ok_keys _ _ _ (wf_parties _ Hwf _ _ Hparty)).
      - unfold JsMap.keys. apply list_elem_of_In, in_map_iff.
        now exists (Player.id info, info). }
    pose proof (headcount_delete (parties w) _ party Hparty) as Hdel.
    destruct (Nat.eqb_spec
                (JsMap.size (JsMap.delete (Player.id info) (Party.members party))) 0)
      as [Hz|Hnz].
    + lia.
    + pose proof (headcount_replace (parties w) (Player.partyCode info) party
                    (Party.mk (Party.code party)
                       (JsMap.delete (Player.id info) (Party.members party)))
                    Hparty) as Hrep.
      cbn [Party.members] in Hrep. lia.
  - destruct (Ha _ _ Hcl) as (party0 & Hparty0 & _). congruence.
Qed.

Lemma alive_census w :
  alive w -> nextId w < 2 ^ 53 -> size (clients w) = headcount (parties w).
Proof.
  revert w.
  apply (alive_by_advances
           (fun w => nextId w < 2 ^ 53 -> size (clients w) = headcount (parties w))).
  - intros _. cbn [init parties clients].
    now rewrite headcount_empty, map_size_empty.
  - intros w w' Hr IH Hs Hlt.
    assert (Hlt0 : nextId w < 2 ^ 53) by (pose proof (advance_next w w' Hs); lia).
    exact (census_advance w w' (reachable_wf _ (alive_reachable _ Hr))
             (alive_attached w Hr Hlt0) Hlt (IH Hlt0) Hs).
Qed.

(** X12. The status endpoint, asked in any world of a server in which
    no handler has thrown, reached with the counter below [2^53],
    answers with status "ok" and two figures that agree: [players] is the
    number of members of all the parties together, so that there are at
    least as many players as parties and at most eight times as many, and
    no players exactly when there is no party. *)
Theorem X12_health_figures w :
  alive w -> nextId w < 2 ^ 53 ->
  h_status (health w) = lit "ok"
  /\ h_players (health w) = headcount (parties w)
  /\ (h_parties (health w) <= h_players (health w) <= 8 * h_parties (health w))%nat
  /\ (h_players (health w) = 0%nat <-> h_parties (health w) = 0%nat).
Proof.
  intros Hr Hlt. cbn [health h_status h_parties h_players].
  pose proof (alive_census w Hr Hlt) as Hc.
  pose proof (alive_live w Hr) as Hl.
  assert (Hb : (size (parties w) <= headcount (parties w) <= 8 * size (parties w))%nat).
  { apply headcount_bounds. intros c p Hlk.
    pose proof (live_size _ Hl _ _ Hlk).
    pose proof (ok_size _ _ _ (wf_parties _ (live_wf _ Hl) _ _ Hlk)). lia. }
  split; [reflexivity|]. split; [exact Hc|]. lia.
Qed.

(** ** When the handler does not return *)

(** The loop of [create] is still running after [fuel] turns exactly
    when the first [fuel + 1] codes it draws are all taken. *)
Lemma fresh_code_none fuel ps k :
  fresh_code fuel ps (candidate k 0) (k + 4) = None
  <-> forall n, (n <= fuel)%nat -> is_Some (ps !! candidate k n).
Proof.
  split.
  - intros Hnone n Hn. destruct (ps !! candidate k n) eqn:E; [eauto|].
    destruct (PartySpec.fresh_code_enough ps n fuel k Hn E) as (c & k' & Hs).
    congruence.
  - revert k. induction fuel as [|fuel IH]; intros k Hall;
      rewrite PartySpec.fresh_code_eq.
    + destruct (Hall 0%nat ltac:(lia)) as [p ->]. reflexivity.
    + destruct (Hall 0%nat ltac:(lia)) as [p ->].
      rewrite PartySpec.genCode_draws.
      replace (fst (genCode (k + 4))) with (candidate (k + 4) 0)
        by (unfold candidate; now replace (k + 4 + 4 * 0)%nat with (k + 4)%nat by lia).
      apply IH. intros n Hn. specialize (Hall (S n) ltac:(lia)).
      now rewrite PartySpec.candidate_next.
Qed.

Lemma relay_not_spinning ws msg w :
  completion (on_state ws msg w) <> Spinning
  /\ completion (on_chat ws msg w) <> Spinning
  /\ completion (on_event ws msg w) <> Spinning.
Proof.
  repeat split.
  - destruct (HandlerFacts.on_state_case ws msg w); discriminate.
  - destruct (HandlerFacts.on_chat_case ws msg w); discriminate.
  - rewrite (proj1 (HandlerFacts.on_event_returns ws msg w)). discriminate.
Qed.

(** X13. The one way the message handler can fail to return is the loop
    of [create] that draws a code until it is free: the handler is still
    in that loop after [fuel] turns exactly when the message is a
    [create] from a socket in no party, with a name that can be sliced,
    and each of the first [fuel + 1] codes drawn names a live party. *)
Theorem X13_spinning_iff fuel ws parsed w :
  completion (on_message fuel ws parsed w) = Spinning
  <-> exists msg name k1,
        parsed = Some msg /\ has_type msg "create" = true
        /\ clients w !! ws = None
        /\ player_name msg (draws w) = Some (name, k1)
        /\ forall n, (n <= fuel)%nat -> is_Some (parties w !! candidate k1 n).
Proof.
  destruct parsed as [msg|];
    [|split; [discriminate|intros (? & ? & ? & [=] & _)]].
  assert (Hother : forall k, has_type msg k = true -> k <> "create"%string ->
            ~ exists msg0 name k1,
                Some msg = Some msg0 /\ has_type msg0 "create" = true
                /\ clients w !! ws = None
                /\ player_name msg0 (draws w) = Some (name, k1)
                /\ forall n, (n <= fuel)%nat -> is_Some (parties w !! candidate k1 n)).
  { intros k Hk Hne (msg0 & name & k1 & [= <-] & Hc & _).
    apply Hne. exact (PartySpec.has_type_unique _ _ _ Hk Hc). }
  assert (Hsome : forall name k1 code0 k2 code k3,
            clients w !! ws = None ->
            player_name msg (draws w) = Some (name, k1) ->
            genCode k1 = (code0, k2) ->
            fresh_code fuel (parties w) code0 k2 = Some (code, k3) ->
            ~ exists msg0 name k1,
                Some msg = Some msg0 /\ has_type msg0 "create" = true
                /\ clients w !! ws = None
                /\ player_name msg0 (draws w) = Some (name, k1)
                /\ forall n, (n <= fuel)%nat -> is_Some (parties w !! candidate k1 n)).
  { intros name k1 code0 k2 code k3 Hcl Hname Hgen Hfresh
      (msg0 & name' & k1' & [= <-] & _ & _ & Hname' & Hall).
    assert (k1' = k1) by congruence. subst k1'.
    apply fresh_code_none in Hall.
    destruct (PartySpec.genCode_candidate _ _ _ Hgen) as [-> ->] in Hfresh. congruence. }
  destruct (HandlerFacts.on_message_case fuel ws msg w)
    as [Hnull|Hk|Hk|Hk|Hk|Hk|_ _ Hc Hj _ _ _].
  - split; [discriminate|]. intros (msg0 & name & k1 & [= <-] & Hc & _).
    destruct Hnull; subst; discriminate.
  - destruct (HandlerFacts.on_create_case fuel ws msg w)
      as [info Hcl|Hcl Hname|name k1 code0 k2 Hcl Hname Hgen Hfresh
         |name k1 code0 k2 code k3 Hcl Hname Hgen Hfresh Hlog
         |name k1 code0 k2 code k3 line Hcl Hname Hgen Hfresh Hlog].
    + split; [discriminate|].
      intros (msg0 & name & k1 & [= <-] & _ & Hcl' & _). congruence.
    + split; [discriminate|].
      intros (msg0 & name & k1 & [= <-] & _ & _ & Hname' & _). congruence.
    + split; [|reflexivity]. intros _. exists msg, name, k1.
      repeat split; try assumption.
      destruct (PartySpec.genCode_candidate _ _ _ Hgen) as [-> ->] in Hfresh.
      now apply fresh_code_none.
    + split; [discriminate|]. intros Hx. exfalso.
      exact (Hsome _ _ _ _ _ _ Hcl Hname Hgen Hfresh Hx).
    + split; [discriminate|]. intros Hx. exfalso.
      exact (Hsome _ _ _ _ _ _ Hcl Hname Hgen Hfresh Hx).
  - split; [|intros Hx; destruct (Hother "join"%string Hk ltac:(discriminate) Hx)].
    destruct (HandlerFacts.on_join_case ws msg w); discriminate.
  - split; [|intros Hx; destruct (Hother "state"%string Hk ltac:(discriminate) Hx)].
    intros E. destruct (proj1 (relay_not_spinning ws msg w) E).
  - split; [|intros Hx; destruct (Hother "chat"%string Hk ltac:(discriminate) Hx)].
    intros E. destruct (proj1 (proj2 (relay_not_spinning ws msg w)) E).
  - split; [|intros Hx; destruct (Hother "event"%string Hk ltac:(discriminate) Hx)].
    intros E. destruct (proj2 (proj2 (relay_not_spinning ws msg w)) E).
  - split; [discriminate|]. intros (msg0 & name & k1 & [= <-] & Hc' & _).
    unfold has_type in Hc'. congruence.
Qed.

Lemma join_code_none msg :
  join_code msg = None <-> ~ has_toUpperCase (Js.get msg "code").
Proof.
  unfold join_code, has_toUpperCase, Js.or.
  destruct (Js.get msg "code") as [| |[]|n|[|c s]|l|fs]; cbn [Js.ToBoolean];
    try destruct (truthy n);
    (split; [try discriminate; intros _ [E|[s' E]]; discriminate
            |intros Hn; try reflexivity; exfalso; apply Hn; eauto]).
Qed.

Lemma player_name_none msg k :
  player_name msg k = None <-> ~ sliceable (Js.get msg "name").
Proof.
  split.
  - intros E Hs. destruct (PartySpec.sliceable_name msg k Hs) as (? & ? & E').
    congruence.
  - intros Hn. unfold player_name.
    destruct (Js.ToBoolean (Js.get msg "name")) eqn:Ht.
    + destruct (Js.get msg "name") as [| | | |s|l|]; try reflexivity;
        exfalso; apply Hn; unfold sliceable; eauto.
    + exfalso. apply Hn. now left.
Qed.

(** The log line of a name that cannot be rendered throws, and only
    that one. *)
Lemma log_line_unrenderable (line : option jsstring) name :
  (line = None <-> Js.ToString name = None) ->
  (line = None <-> unrenderable name).
Proof. intros ->. apply JsFacts.ToString_None. Qed.

(** When the [create] branch throws. *)
Lemma create_throws_iff fuel ws msg w :
  completion (on_create fuel ws msg w) = Threw
  <-> clients w !! ws = None
      /\ (~ sliceable (Js.get msg "name")
          \/ exists name k1 n,
               player_name msg (draws w) = Some (name, k1)
               /\ unrenderable name
               /\ (n <= fuel)%nat /\ parties w !! candidate k1 n = None).
Proof.
  destruct (HandlerFacts.on_create_case fuel ws msg w)
    as [info Hcl|Hcl Hname|name k1 code0 k2 Hcl Hname Hgen Hfresh
       |name k1 code0 k2 code k3 Hcl Hname Hgen Hfresh Hlog
       |name k1 code0 k2 code k3 line Hcl Hname Hgen Hfresh Hlog];
    cbn [completion returned threw spinning].
  - split; [discriminate|]. intros [Hcl' _]. congruence.
  - split; [|reflexivity]. intros _. split; [assumption|]. left.
    now apply (player_name_none msg (draws w)).
  - split; [discriminate|].
    intros [_ [Hs|(name' & k1' & n & Hname' & _ & Hn & Hfree)]].
    + apply (player_name_none msg (draws w)) in Hs. congruence.
    + assert (k1' = k1) by congruence. subst k1'.
      destruct (PartySpec.genCode_candidate _ _ _ Hgen) as [-> ->] in Hfresh.
      pose proof (proj1 (fresh_code_none fuel (parties w) k1) Hfresh n Hn)
        as [p Hp].
      congruence.
  - split; [|reflexivity]. intros _. split; [assumption|]. right.
    destruct (PartySpec.genCode_candidate _ _ _ Hgen) as [-> ->] in Hfresh.
    destruct (PartySpec.fresh_code_some _ _ _ _ _ Hfresh) as (n & Hn & Hfree & _).
    exists name, k1, n. repeat split; try assumption.
    exact (proj1 (log_line_unrenderable _ _
                    (HandlerFacts.log_created_None _ _ _)) Hlog).
  - split; [discriminate|].
    intros [_ [Hs|(name' & k1' & n & Hname' & Hu & _)]].
    + apply (player_name_none msg (draws w)) in Hs. congruence.
    + assert (name' = name) by congruence. subst name'.
      apply (log_line_unrenderable _ _
               (HandlerFacts.log_created_None code name
                  (of_integer (nextId w)))) in Hu.
      congruence.
Qed.

(** When the [join] branch throws. *)
Lemma join_throws_iff ws msg w :
  completion (on_join ws msg w) = Threw
  <-> clients w !! ws = None
      /\ (~ has_toUpperCase (Js.get msg "code")
          \/ exists code party,
               join_code msg = Some code /\ parties w !! code = Some party
               /\ (JsMap.size (Party.members party) < 8)%nat
               /\ (~ sliceable (Js.get msg "name")
                   \/ exists name k1,
                        player_name msg (draws w) = Some (name, k1)
                        /\ unrenderable name)).
Proof.
  assert (Hno : forall code,
            join_code msg = Some code ->
            (forall party, parties w !! code = Some party ->
               (JsMap.size (Party.members party) < 8)%nat ->
               ~ (~ sliceable (Js.get msg "name")
                  \/ exists name k1,
                       player_name msg (draws w) = Some (name, k1)
                       /\ unrenderable name)) ->
            ~ (clients w !! ws = None
               /\ (~ has_toUpperCase (Js.get msg "code")
                   \/ exists code party,
                        join_code msg = Some code /\ parties w !! code = Some party
                        /\ (JsMap.size (Party.members party) < 8)%nat
                        /\ (~ sliceable (Js.get msg "name")
                            \/ exists name k1,
                                 player_name msg (draws w) = Some (name, k1)
                                 /\ unrenderable name)))).
  { intros code Hcode Hparty [_ [Hu|(c & p & Hc & Hp & Hroom & Hx)]].
    - apply join_code_none in Hu. congruence.
    - assert (c = code) by congruence. subst c. exact (Hparty p Hp Hroom Hx). }
  destruct (HandlerFacts.on_join_case ws msg w)
    as [info Hcl|Hcl Hcode|code Hcl Hcode Hparty|code party Hcl Hcode Hparty Hfull
       |code party Hcl Hcode Hparty Hroom Hname
       |code party name k1 Hcl Hcode Hparty Hroom Hname Hlog
       |code party name k1 line Hcl Hcode Hparty Hroom Hname Hlog];
    cbn [completion returned threw].
  - split; [discriminate|]. intros [Hcl' _]. congruence.
  - split; [|reflexivity]. intros _. split; [assumption|]. left.
    now apply join_code_none.
  - split; [discriminate|]. intros Hx. exfalso.
    apply (Hno code Hcode); [|exact Hx]. intros p Hp. congruence.
  - split; [discriminate|]. intros Hx. exfalso.
    apply (Hno code Hcode); [|exact Hx]. intros p Hp Hroom.
    assert (p = party) by congruence. subst p. lia.
  - split; [|reflexivity]. intros _. split; [assumption|]. right.
    exists code, party. repeat split; try assumption. left.
    now apply (player_name_none msg (draws w)).
  - split; [|reflexivity]. intros _. split; [assumption|]. right.
    exists code, party. repeat split; try assumption. right.
    exists name, k1. split; [assumption|].
    exact (proj1 (log_line_unrenderable _ _
                    (HandlerFacts.log_joined_None _ _ _)) Hlog).
  - split; [discriminate|]. intros Hx. exfalso.
    apply (Hno code Hcode); [|exact Hx].
    intros p Hp _ [Hs|(name' & k1' & Hname' & Hu)].
    + apply (player_name_none msg (draws w)) in Hs. congruence.
    + assert (name' = name) by congruence. subst name'.
      apply (log_line_unrenderable _ _
               (HandlerFacts.log_joined_None name (of_integer (nextId w))
                  code)) in Hu.
      congruence.
Qed.

(** When the [state] and the [chat] branch throw; the [event] branch
    never does. *)
Lemma state_throws_iff ws msg w :
  completion (on_state ws msg w) = Threw
  <-> uncoercible msg
      /\ exists info party, clients w !! ws = Some info
           /\ parties w !! Player.partyCode info = Some party.
Proof.
  destruct (HandlerFacts.on_state_case ws msg w)
    as [Hcl|info Hcl Hparty|info party Hcl Hparty Hst|info party st Hcl Hparty Hst];
    cbn [completion returned threw].
  - split; [discriminate|]. intros (_ & ? & ? & ? & _). congruence.
  - split; [discriminate|]. intros (_ & ? & ? & ? & ?). congruence.
  - split; [|reflexivity]. intros _.
    split; [now apply PartySpec.state_of_None|eauto].
  - split; [discriminate|]. intros (Hu & _).
    apply PartySpec.state_of_None in Hu. congruence.
Qed.

Lemma chat_throws_iff ws msg w :
  completion (on_chat ws msg w) = Threw
  <-> unrenderable (Js.get msg "text")
      /\ exists info party, clients w !! ws = Some info
           /\ parties w !! Player.partyCode info = Some party.
Proof.
  destruct (HandlerFacts.on_chat_case ws msg w)
    as [Hcl|info Hcl Hparty|info party Hcl Hparty Hst|info party st Hcl Hparty Hst];
    cbn [completion returned threw].
  - split; [discriminate|]. intros (_ & ? & ? & ? & _). congruence.
  - split; [discriminate|]. intros (_ & ? & ? & ? & ?). congruence.
  - split; [|reflexivity]. intros _.
    split; [now apply PartySpec.chat_text_None|eauto].
  - split; [discriminate|]. intros (Hu & _).
    apply PartySpec.chat_text_None in Hu. congruence.
Qed.

(** X28. When the close handler throws.  It never loops, and it throws
    exactly when the socket resolves to a player whose party exists and
    whose name the log line cannot render (the name is, or holds, an
    object with an own property [toString]).  It has then deleted the
    member and sent [left] to the others, and has deleted neither an
    emptied party nor the directory entry.  In a server in which no
    handler has thrown it returns. *)
Theorem X28_close_throws_iff ws w :
  let o := on_close ws w in
  completion o <> Spinning
  /\ (completion o = Threw
      <-> exists info party,
            clients w !! ws = Some info
            /\ parties w !! Player.partyCode info = Some party
            /\ unrenderable (Player.name info))
  /\ (forall info party,
        clients w !! ws = Some info ->
        parties w !! Player.partyCode info = Some party ->
        unrenderable (Player.name info) ->
        o = threw_after (half_closed info party w)
              (List.map (fun e => (Player.ws (snd e), Left (Player.id info)))
                 (JsMap.delete (Player.id info) (Party.members party))))
  /\ (alive w -> completion o = Returned).
Proof.
  intros o. subst o.
  assert (Hlog : forall info,
            log_left (Player.name info) (Player.partyCode info) = None
            <-> unrenderable (Player.name info)).
  { intros info. apply log_line_unrenderable, HandlerFacts.log_left_None. }
  split; [|split; [|split]].
  - destruct (HandlerFacts.on_close_case ws w); discriminate.
  - destruct (HandlerFacts.on_close_case ws w)
      as [Hcl|info Hcl Hparty|info party Hcl Hparty Hline
         |info party line Hcl Hparty Hline];
      cbn [completion returned threw_after].
    + split; [discriminate|]. intros (? & ? & ? & _). congruence.
    + split; [discriminate|]. intros (info' & ? & Hcl' & Hparty' & _).
      assert (info' = info) by congruence. subst info'. congruence.
    + split; [|reflexivity]. intros _. exists info, party.
      repeat split; try assumption. now apply Hlog.
    + split; [discriminate|]. intros (info' & ? & Hcl' & _ & Hu).
      assert (info' = info) by congruence. subst info'.
      apply Hlog in Hu. congruence.
  - intros info party Hcl Hparty Hu. apply Hlog in Hu.
    unfold on_close. rewrite Hcl, Hparty, Hu.
    now rewrite SendFacts.broadcast_all.
  - intros Ha. exact (live_close_returns ws w (alive_live w Ha)).
Qed.

Lemma throws_by_kind fuel ws msg w :
  msg <> JNull -> msg <> JUndef ->
  (has_type msg "create" = true ->
     (throws fuel ws msg w <-> completion (on_create fuel ws msg w) = Threw))
  /\ (has_type msg "join" = true ->
     (throws fuel ws msg w <-> completion (on_join ws msg w) = Threw))
  /\ (has_type msg "state" = true ->
     (throws fuel ws msg w <-> completion (on_state ws msg w) = Threw))
  /\ (has_type msg "chat" = true ->
     (throws fuel ws msg w <-> completion (on_chat ws msg w) = Threw))
  /\ (has_type msg "create" = false -> has_type msg "join" = false ->
      has_type msg "state" = false -> has_type msg "chat" = false ->
      ~ throws fuel ws msg w).
Proof.
  intros Hnn Hnu.
  assert (Hclash : forall k1 k2, has_type msg k1 = true -> has_type msg k2 = true ->
            k1 <> k2 -> False).
  { intros k1 k2 H1 H2 Hne. exact (Hne (PartySpec.has_type_unique _ _ _ H1 H2)). }
  split; [|split; [|split; [|split]]].
  - intros Hk. rewrite create_throws_iff. unfold throws. split.
    + intros [E|[E|[(_ & Hx)|[(Hj & _)|([(Hs & _)|(Hc & _)] & _)]]]];
        try contradiction; try exact Hx; exfalso;
        eapply (Hclash _ _ Hk); try eassumption; discriminate.
    + intros Hx. right. right. left. now split.
  - intros Hk. rewrite join_throws_iff. unfold throws. split.
    + intros [E|[E|[(Hc & _)|[(_ & Hx)|([(Hs & _)|(Hc & _)] & _)]]]];
        try contradiction; try exact Hx; exfalso;
        eapply (Hclash _ _ Hk); try eassumption; discriminate.
    + intros Hx. right. right. right. left. now split.
  - intros Hk. rewrite state_throws_iff. unfold throws. split.
    + intros [E|[E|[(Hc & _)|[(Hj & _)|([(_ & Hu)|(Hc & _)] & Hx)]]]];
        try contradiction; try (now split); exfalso;
        eapply (Hclash _ _ Hk); try eassumption; discriminate.
    + intros [Hu Hx]. right. right. right. right. split; [|exact Hx].
      left. now split.
  - intros Hk. rewrite chat_throws_iff. unfold throws. split.
    + intros [E|[E|[(Hc & _)|[(Hj & _)|([(Hs & _)|(_ & Hu)] & Hx)]]]];
        try contradiction; try (now split); exfalso;
        eapply (Hclash _ _ Hk); try eassumption; discriminate.
    + intros [Hu Hx]. right. right. right. right. split; [|exact Hx].
      right. now split.
  - intros Hc Hj Hs Hch. unfold throws.
    intros [E|[E|[(E & _)|[(E & _)|([(E & _)|(E & _)] & _)]]]];
      try contradiction; congruence.
Qed.

(** X14. The message handler throws (a [TypeError] that nothing catches)
    exactly on these inputs: the JSON value [null]; a [create] from a
    socket in no party whose [name] is truthy and neither a string nor an
    array, or whose name, cut to 20, the log line cannot render (it holds
    an object with an own property [toString]), a free code having been
    drawn; a [join] from a socket in no party whose [code] is truthy and
    not a string, or that found a party with room and whose [name] is
    such; a [state] with a numeric field, or a [chat] with a text, that
    is or holds an object with an own property [toString], from a player
    whose party exists.  Nothing is sent by a handler that throws.  The
    world is then as it was on [null], on a [state], on a [chat], and on
    a [join] whose code has no [toUpperCase]; the counter has moved,
    though no player was made, when the name has no [slice]; and the new
    player is in both maps already when it is the log line of [create]
    or [join] that throws. *)
Theorem X14_throws_iff fuel ws parsed w :
  let o := on_message fuel ws parsed w in
  (completion o = Threw
     <-> exists msg, parsed = Some msg /\ throws fuel ws msg w)
  /\ (completion o = Threw -> sent o = [])
  /\ (forall msg, parsed = Some msg -> completion o = Threw ->
        (msg = JNull \/ msg = JUndef
         \/ has_type msg "state" = true \/ has_type msg "chat" = true
         \/ (has_type msg "join" = true /\ ~ has_toUpperCase (Js.get msg "code")) ->
         world o = w)
        /\ (has_type msg "create" = true
            \/ (has_type msg "join" = true /\ has_toUpperCase (Js.get msg "code")) ->
            ~ sliceable (Js.get msg "name") ->
            world o = with_counters w (incr (nextId w)) (draws w))
        /\ (forall name k1,
              player_name msg (draws w) = Some (name, k1) ->
              (has_type msg "create" = true ->
                 exists code k, parties w !! code = None
                                /\ world o = created ws name code k w)
              /\ (has_type msg "join" = true ->
                  forall code, join_code msg = Some code ->
                    exists party, parties w !! code = Some party
                                  /\ world o = joined ws name code party k1 w))).
Proof.
  intros o. subst o. destruct parsed as [msg|].
  2:{ split; [split; [discriminate|intros (? & [=] & _)]|].
      split; [discriminate|]. intros ? [=]. }
  assert (Hclash : forall k1 k2, has_type msg k1 = true -> has_type msg k2 = true ->
            k1 <> k2 -> False).
  { intros k1 k2 H1 H2 Hne. exact (Hne (PartySpec.has_type_unique _ _ _ H1 H2)). }
  assert (Hnull : (msg = JNull \/ msg = JUndef) \/ (msg <> JNull /\ msg <> JUndef)).
  { destruct msg; auto; right; split; discriminate. }
  destruct Hnull as [Hnull|[Hnn Hnu]].
  { assert (E : on_message fuel ws (Some msg) w = threw w)
      by (destruct Hnull; subst; reflexivity).
    rewrite E. split; [|split; [reflexivity|]].
    - split; [|reflexivity]. intros _. exists msg. split; [reflexivity|].
      destruct Hnull; [now left|right; now left].
    - intros ? [= <-] _. split; [reflexivity|]. split.
      + intros [Hk|[Hk _]]; destruct Hnull; subst; discriminate.
      + intros name k1 _.
        split; intros Hk; destruct Hnull; subst; discriminate. }
  destruct (throws_by_kind fuel ws msg w Hnn Hnu) as (Tc & Tj & Ts & Tch & Tno).
  destruct (HandlerFacts.on_message_case fuel ws msg w)
    as [Hnull|Hk|Hk|Hk|Hk|Hk|_ _ Hc Hj Hs Hch He].
  - destruct Hnull; contradiction.
  - split; [|split].
    + rewrite <- (Tc Hk). split; [eauto|]. now intros (? & [= <-] & Ht).
    + destruct (HandlerFacts.on_create_case fuel ws msg w);
        try discriminate; reflexivity.
    + intros ? [= <-].
      destruct (HandlerFacts.on_create_case fuel ws msg w)
        as [info Hcl|Hcl Hname|name k1 code0 k2 Hcl Hname Hgen Hfresh
           |name k1 code0 k2 code k3 Hcl Hname Hgen Hfresh Hlog
           |name k1 code0 k2 code k3 line Hcl Hname Hgen Hfresh Hlog];
        try discriminate; intros _; cbn [world threw].
      * split; [|split; [reflexivity|]].
        -- intros [E|[E|[Hk'|[Hk'|[Hk' _]]]]]; try contradiction; exfalso;
             eapply (Hclash _ _ Hk); try eassumption; discriminate.
        -- intros name k1 Hname'. congruence.
      * split; [|split].
        -- intros [E|[E|[Hk'|[Hk'|[Hk' _]]]]]; try contradiction; exfalso;
             eapply (Hclash _ _ Hk); try eassumption; discriminate.
        -- intros _ Hs. apply (player_name_none msg (draws w)) in Hs.
           congruence.
        -- intros name' k1' Hname'.
           assert (name' = name) by congruence. subst name'. split.
           ++ intros _. exists code, k3. split; [|reflexivity].
              eapply fresh_code_absent; eassumption.
           ++ intros Hk'. exfalso.
              eapply (Hclash _ _ Hk); try eassumption; discriminate.
  - split; [|split].
    + rewrite <- (Tj Hk). split; [eauto|]. now intros (? & [= <-] & Ht).
    + destruct (HandlerFacts.on_join_case ws msg w);
        try discriminate; reflexivity.
    + intros ? [= <-].
      destruct (HandlerFacts.on_join_case ws msg w)
        as [info Hcl|Hcl Hcode|code Hcl Hcode Hparty
           |code party Hcl Hcode Hparty Hfull
           |code party Hcl Hcode Hparty Hroom Hname
           |code party name k1 Hcl Hcode Hparty Hroom Hname Hlog
           |code party name k1 line Hcl Hcode Hparty Hroom Hname Hlog];
        try discriminate; intros _; cbn [world threw].
      * split; [reflexivity|]. split.
        -- intros [Hk'|[_ Hu]] _.
           ++ exfalso. eapply (Hclash _ _ Hk); try eassumption; discriminate.
           ++ apply join_code_none in Hcode. contradiction.
        -- intros name k1 _. split.
           ++ intros Hk'. exfalso.
              eapply (Hclash _ _ Hk); try eassumption; discriminate.
           ++ intros code. congruence.
      * split; [|split; [reflexivity|]].
        -- intros [E|[E|[Hk'|[Hk'|[_ Hu]]]]]; try contradiction;
             try (exfalso; eapply (Hclash _ _ Hk); try eassumption; discriminate).
           apply join_code_none in Hu. congruence.
        -- intros name k1 Hname'. congruence.
      * split; [|split].
        -- intros [E|[E|[Hk'|[Hk'|[_ Hu]]]]]; try contradiction;
             try (exfalso; eapply (Hclash _ _ Hk); try eassumption; discriminate).
           apply join_code_none in Hu. congruence.
        -- intros _ Hs. apply (player_name_none msg (draws w)) in Hs.
           congruence.
        -- intros name' k1' Hname'.
           assert (name' = name /\ k1' = k1) as [-> ->]
             by (split; congruence).
           split.
           ++ intros Hk'. exfalso.
              eapply (Hclash _ _ Hk); try eassumption; discriminate.
           ++ intros _ code' Hcode'.
              assert (code' = code) by congruence. subst code'.
              exists party. now split.
  - split; [|split].
    + rewrite <- (Ts Hk). split; [eauto|]. now intros (? & [= <-] & Ht).
    + destruct (HandlerFacts.on_state_case ws msg w);
        try discriminate; reflexivity.
    + intros ? [= <-].
      destruct (HandlerFacts.on_state_case ws msg w);
        try discriminate; intros _; cbn [world threw].
      split; [reflexivity|]. split.
      * intros [Hk'|[Hk' _]]; exfalso;
          eapply (Hclash _ _ Hk); try eassumption; discriminate.
      * intros name k1 _. split; intros Hk'; exfalso;
          eapply (Hclash _ _ Hk); try eassumption; discriminate.
  - split; [|split].
    + rewrite <- (Tch Hk). split; [eauto|]. now intros (? & [= <-] & Ht).
    + destruct (HandlerFacts.on_chat_case ws msg w);
        try discriminate; reflexivity.
    + intros ? [= <-].
      destruct (HandlerFacts.on_chat_case ws msg w);
        try discriminate; intros _; cbn [world threw].
      split; [reflexivity|]. split.
      * intros [Hk'|[Hk' _]]; exfalso;
          eapply (Hclash _ _ Hk); try eassumption; discriminate.
      * intros name k1 _. split; intros Hk'; exfalso;
          eapply (Hclash _ _ Hk); try eassumption; discriminate.
  - rewrite (proj1 (HandlerFacts.on_event_returns ws msg w)).
    split; [|split; [discriminate|intros ? _; discriminate]].
    split; [discriminate|]. intros (? & [= <-] & Ht). exfalso.
    revert Ht. apply Tno;
      match goal with
      | |- has_type msg ?k = false =>
          destruct (has_type msg k) eqn:E; [|reflexivity]; exfalso;
          exact (Hclash _ _ Hk E ltac:(discriminate))
      end.
  - split; [|split; [discriminate|intros ? _; discriminate]].
    split; [discriminate|]. intros (? & [= <-] & Ht). exfalso.
    revert Ht. now apply Tno.
Qed.

(** ** Who is sent what *)

(** A broadcast to the party of a player reaches sockets of players that
    name the same party. *)
Lemma broadcast_targets w c party obj ex to m :
  wf w -> parties w !! c = Some party ->
  In (to, m) (broadcast party obj ex) ->
  exists q, clients w !! to = Some q /\ Player.partyCode q = c.
Proof.
  intros Hwf Hparty Hin.
  apply SendFacts.In_broadcast in Hin as (_ & id & pl & Hin & _ & <-).
  destruct (ok_member _ _ _ (wf_parties _ Hwf _ _ Hparty) _ _ Hin) as (_ & Ec & Ecl).
  eauto.
Qed.

(** X15. No message leaves the party.  In a world the server can reach,
    whatever a socket sends, each call of [send] the handler makes is on
    that socket itself or on the socket of a player that, when the
    handler is done, names the same party as the sender; and when a
    socket closes, each call is on another socket, of a player that named
    the same party as the one that left and is still in the directory. *)
Theorem X15_no_message_leaves_the_party fuel ws parsed w :
  reachable w ->
  (forall to m, In (to, m) (sent (on_message fuel ws parsed w)) ->
     to = ws
     \/ exists p q,
          clients (world (on_message fuel ws parsed w)) !! ws = Some p
          /\ clients (world (on_message fuel ws parsed w)) !! to = Some q
          /\ Player.partyCode q = Player.partyCode p)
  /\ (forall to m, In (to, m) (sent (on_close ws w)) ->
        to <> ws
        /\ exists p q,
             clients w !! ws = Some p /\ clients w !! to = Some q
             /\ Player.partyCode q = Player.partyCode p
             /\ clients (world (on_close ws w)) !! to = Some q).
Proof.
  intros Hr. pose proof (reachable_wf w Hr) as Hwf. split.
  - intros to m. destruct parsed as [msg|]; [|intros []].
    destruct (HandlerFacts.on_message_case fuel ws msg w)
      as [_|_|_|_|_|_|_ _ _ _ _ _ _].
    + intros [].
    + destruct (HandlerFacts.on_create_case fuel ws msg w); cbn [sent returned
        threw spinning error];
        intros Hin; repeat destruct Hin as [Hin|Hin];
        try contradiction; left; congruence.
    + destruct (HandlerFacts.on_join_case ws msg w)
        as [info Hcl|Hcl Hcode|code Hcl Hcode Hparty|code party Hcl Hcode Hparty Hfull
           |code party Hcl Hcode Hparty Hroom Hname
           |code party name k1 Hcl Hcode Hparty Hroom Hname Hlog
           |code party name k1 line Hcl Hcode Hparty Hroom Hname Hlog];
        cbn [sent returned threw error world];
        try (intros Hin; repeat destruct Hin as [Hin|Hin];
             try contradiction; left; congruence).
      intros [[= <- _]|Hin]; [now left|]. right.
      apply SendFacts.In_broadcast in Hin as (_ & id & pl & Hin & Hex & <-).
      cbn [Party.members] in Hin.
      apply JsMapFacts.In_set in Hin as [[= -> _]|Hin]; [congruence|].
      destruct (ok_member _ _ _ (wf_parties _ Hwf _ _ Hparty) _ _ Hin)
        as (_ & Ec & Ecl).
      unfold joined. cbn [clients]. eexists _, pl.
      rewrite lookup_insert_eq. split; [reflexivity|]. split; [|exact Ec].
      rewrite lookup_insert_ne; [assumption|]. congruence.
    + destruct (HandlerFacts.on_state_case ws msg w)
        as [Hcl|info Hcl Hparty|info party Hcl Hparty Hst
           |info party st Hcl Hparty Hst];
        try (intros []).
      cbn [sent returned world stated clients]. intros Hin. right.
      destruct (broadcast_targets w _ party _ _ to m Hwf Hparty Hin) as (q & Hq & Ec).
      eauto.
    + destruct (HandlerFacts.on_chat_case ws msg w)
        as [Hcl|info Hcl Hparty|info party Hcl Hparty Hst
           |info party text Hcl Hparty Hst];
        try (intros []).
      cbn [sent returned world clients]. intros Hin.
      apply in_app_iff in Hin as [Hin|[[= <- _]|[]]]; [right|now left].
      destruct (broadcast_targets w _ party _ _ to m Hwf Hparty Hin) as (q & Hq & Ec).
      eauto.
    + unfold on_event. destruct (clients w !! ws) as [info|] eqn:Hcl; [|intros []].
      destruct (parties w !! Player.partyCode info) as [party|] eqn:Hparty;
        [|intros []].
      cbn [sent returned world clients]. intros Hin. right.
      destruct (broadcast_targets w _ party _ _ to m Hwf Hparty Hin) as (q & Hq & Ec).
      eauto.
    + intros [].
  - intros to m.
    assert (Hleft : forall info party,
              clients w !! ws = Some info ->
              parties w !! Player.partyCode info = Some party ->
              In (to, m)
                (broadcast
                   (Party.mk (Party.code party)
                      (JsMap.delete (Player.id info) (Party.members party)))
                   (Left (Player.id info)) None) ->
              to <> ws
              /\ exists q, clients w !! to = Some q
                   /\ Player.partyCode q = Player.partyCode info).
    { intros info party Hcl Hparty Hin.
      apply SendFacts.In_broadcast in Hin as (_ & id & pl & Hin & _ & <-).
      cbn [Party.members] in Hin. apply JsMapFacts.In_delete in Hin as [Hin Hid].
      destruct (ok_member _ _ _ (wf_parties _ Hwf _ _ Hparty) _ _ Hin)
        as (_ & Ec & Ecl).
      split; [|eauto]. intros Hws.
      destruct (member_on_socket w ws info _ party id pl Hwf Hcl Hparty Hin Hws).
      tauto. }
    destruct (HandlerFacts.on_close_case ws w)
      as [Hcl|info Hcl Hparty|info party Hcl Hparty Hlog
         |info party line Hcl Hparty Hlog];
      try (intros []);
      cbn [sent returned threw_after world closed half_closed clients];
      intros Hin;
      destruct (Hleft info party Hcl Hparty Hin) as (Hne & q & Hq & Ec);
      (split; [exact Hne|]); exists info, q; repeat split; try assumption.
    rewrite lookup_delete_ne; [assumption|]. congruence.
Qed.

(** X16. [broadcast] and [send] together: the frames a broadcast puts on
    the wire are one for each member whose id is not the excluded one and
    whose socket is open ([readyState === 1]), in the order of the member
    map, all carrying the object; a member whose socket is not open is
    passed over. *)
Theorem X16_broadcast_on_the_wire readyState party obj ex :
  wire readyState (broadcast party obj ex)
  = List.map (fun e => (Player.ws (snd e), obj))
      (filter (fun e => Some (fst e) <> ex /\ readyState (Player.ws (snd e)) = 1)
         (Party.members party))
  /\ (length (wire readyState (broadcast party obj ex))
      <= JsMap.size (Party.members party))%nat.
Proof.
  assert (E : wire readyState (broadcast party obj ex)
              = List.map (fun e => (Player.ws (snd e), obj))
                  (filter (fun e => Some (fst e) <> ex
                                    /\ readyState (Player.ws (snd e)) = 1)
                     (Party.members party))).
  { unfold wire, broadcast.
    induction (Party.members party) as [|[id pl] l IH]; [reflexivity|].
    cbn [flat_map]. rewrite flat_map_app, IH, filter_cons. cbn [fst snd].
    destruct (decide (Some id = ex)) as [He|Hne].
    - cbn [flat_map app].
      destruct (decide (Some id <> ex /\ readyState (Player.ws pl) = 1));
        [tauto|reflexivity].
    - cbn [flat_map app]. unfold send at 1. cbn [fst].
      destruct (Z.eqb_spec (readyState (Player.ws pl)) 1) as [Ho|Hc];
        destruct (decide (Some id <> ex /\ readyState (Player.ws pl) = 1));
        try tauto; reflexivity. }
  split; [exact E|]. rewrite E, length_map. apply length_filter.
Qed.

(** ** Joining *)

(** A name that can be rendered can still be after the cut to 20. *)
Lemma player_name_renders msg k name k' :
  player_name msg k = Some (name, k') -> ~ unrenderable (Js.get msg "name") ->
  is_Some (Js.ToString name).
Proof.
  intros Hname Hok. apply JsFacts.renders. intros Hu. apply Hok. revert Hname.
  unfold player_name.
  destruct (Js.ToBoolean (Js.get msg "name")) eqn:Ht.
  - destruct (Js.get msg "name") as [| | | |s|l|]; try discriminate;
      intros [= <- <-]; inversion Hu as [|l' e Hin He]; subst.
    apply (unrenderable_array l e); [|assumption].
    apply list_elem_of_In. apply list_elem_of_In in Hin.
    exact (subseteq_take _ _ _ Hin).
  - destruct (genName k). intros [= <- <-]. inversion Hu.
Qed.

Lemma set_fresh {K V} `{EqDecision K} (k : K) (v : V) m :
  k ∉ JsMap.keys m -> JsMap.set k v m = m ++ [(k, v)].
Proof.
  induction m as [|[k0 v0] m IH]; simpl; intros Hni; [reflexivity|].
  destruct (decide (k = k0)) as [->|Hne].
  - exfalso. apply Hni. left.
  - rewrite IH; [reflexivity|]. intros Hin. apply Hni. now right.
Qed.

Lemma broadcast_but_last party_code members id pl obj :
  id ∉ JsMap.keys members ->
  broadcast (Party.mk party_code (members ++ [(id, pl)])) obj (Some id)
  = List.map (fun e => (Player.ws (snd e), obj)) members.
Proof.
  unfold broadcast. cbn [Party.members]. intros Hni.
  rewrite flat_map_app. cbn [flat_map].
  destruct (decide (Some id = Some id)); [|congruence].
  rewrite !app_nil_r.
  induction members as [|[id0 pl0] l IH]; [reflexivity|].
  cbn [flat_map List.map snd].
  destruct (decide (Some id0 = Some id)) as [[= ->]|_].
  - exfalso. apply Hni. left.
  - cbn [app]. f_equal. apply IH. intros Hin. apply Hni. now right.
Qed.

(** X17. A [join] that goes through (the party has room, the name can
    be cut and the log line can render it), the counter being below
    [2^53]: the new player is appended to the member map of the party,
    after the members that were there, with the id that renders the
    counter; the joiner is sent one welcome, listing those members in
    order; each of them is then sent one [joined] with the id, name and
    colour of the newcomer, in the same order, and the joiner none; the
    counter moves by one. *)
Theorem X17_join_announced fuel ws msg w code party name k1 :
  reachable w -> nextId w < 2 ^ 53 ->
  has_type msg "join" = true -> clients w !! ws = None ->
  join_code msg = Some code -> parties w !! code = Some party ->
  (JsMap.size (Party.members party) < 8)%nat ->
  player_name msg (draws w) = Some (name, k1) ->
  is_Some (Js.ToString name) ->
  let o := on_message fuel ws (Some msg) w in
  let id := of_integer (nextId w) in
  let color := player_color (incr (nextId w)) in
  let player := Player.mk id name color ws code (length (cells w)) in
  completion o = Returned
  /\ sent o
     = (ws, Welcome id code (existing (cells w) party) color)
         :: List.map (fun e => (Player.ws (snd e), Joined id name color))
              (Party.members party)
  /\ List.map i_id (existing (cells w) party) = JsMap.keys (Party.members party)
  /\ parties (world o) !! code
     = Some (Party.mk (Party.code party) (Party.members party ++ [(id, player)]))
  /\ clients (world o) !! ws = Some player
  /\ read (cells (world o)) player = None
  /\ nextId (world o) = nextId w + 1.
Proof.
  intros Hr Hlt Hk Hcl Hcode Hparty Hroom Hname Hrend o id color player.
  subst o. pose proof (reachable_wf w Hr) as Hwf.
  destruct (HandlerFacts.renders_logged _ _
              (HandlerFacts.log_joined_None name (of_integer (nextId w)) code)
              Hrend) as [line Hline].
  rewrite (proj1 (proj2 (PartySpec.dispatch fuel ws msg w)) Hk).
  pose proof (PartySpec.next_id_fresh w code party Hwf Hlt Hparty) as Hfresh.
  unfold on_join. rewrite Hcl, Hcode, Hparty.
  destruct (Nat.leb_spec 8 (JsMap.size (Party.members party))) as [|_]; [lia|].
  rewrite Hname, Hline.
  cbn [completion sent world returned parties clients cells nextId].
  fold id. fold color. fold player.
  rewrite (set_fresh id player (Party.members party) Hfresh).
  rewrite (broadcast_but_last _ _ _ _ _ Hfresh).
  split; [reflexivity|]. split; [reflexivity|]. split.
  { unfold existing, JsMap.keys. rewrite map_map. apply map_ext_in.
    intros [id0 m0] Hin. cbn [i_id fst].
    exact (proj1 (ok_member _ _ _ (wf_parties _ Hwf _ _ Hparty) _ _ Hin)). }
  split; [apply lookup_insert_eq|]. split; [apply lookup_insert_eq|]. split.
  - unfold read, player. cbn [Player.lastState].
    rewrite lookup_app_r by lia. now rewrite Nat.sub_diag.
  - unfold incr. destruct (Z.ltb_spec (nextId w) (2 ^ 53)); [reflexivity|lia].
Qed.

Lemma not_found_text code :
  not_found code <> lit "Already in a party."
  /\ not_found code <> lit "Party is full (max 8).".
Proof. unfold not_found. split; intros E; vm_compute in E; discriminate E. Qed.

(** X18. A live party can be joined by its key as it stands.  On a host
    whose [toUpperCase] leaves the characters of the alphabet of
    [genCode] alone, a [join] whose [code] is the key of a party of a
    reachable world resolves to that party: it is never answered "not
    found", and from a socket in no party, the party having room and the
    name being absent, a string, or an array that holds no object with
    an own property [toString], it is welcomed with that code. *)
Theorem X18_join_by_issued_code fuel ws msg w code party :
  (forall s, (forall c, In c s -> In c chars) -> toUpperCase s = s) ->
  reachable w -> parties w !! code = Some party ->
  has_type msg "join" = true -> Js.get msg "code" = JStr code ->
  let o := on_message fuel ws (Some msg) w in
  join_code msg = Some code
  /\ (forall to c, ~ In (to, Error (not_found c)) (sent o))
  /\ (clients w !! ws = None ->
      (JsMap.size (Party.members party) < 8)%nat ->
      sliceable (Js.get msg "name") -> ~ unrenderable (Js.get msg "name") ->
      completion o = Returned
      /\ exists id color,
           In (ws, Welcome id code (existing (cells w) party) color) (sent o)).
Proof.
  intros Hup Hr Hparty Hk Hget o. subst o.
  destruct (tidy_codes _ (reachable_tidy w Hr) _ _ Hparty) as [Hl Hc].
  assert (Hcode : join_code msg = Some code).
  { unfold join_code, Js.or. rewrite Hget.
    destruct code as [|c0 [|c1 [|c2 [|c3 [|? ?]]]]]; try discriminate Hl.
    cbn [Js.ToBoolean]. rewrite (Hup _ Hc). f_equal.
    assert (Hns : forall c, In c chars -> is_space c = false).
    { intros c Hin. vm_compute in Hin.
      repeat (destruct Hin as [<-|Hin]; [reflexivity|]). destruct Hin. }
    unfold trim, trimEnd. cbn [trimStart].
    rewrite (Hns c0) by (apply Hc; now left).
    cbn [rev app trimStart].
    rewrite (Hns c3) by (apply Hc; right; right; right; now left).
    reflexivity. }
  split; [exact Hcode|].
  rewrite (proj1 (proj2 (PartySpec.dispatch fuel ws msg w)) Hk).
  destruct (HandlerFacts.on_join_case ws msg w)
    as [info Hcl|Hcl Hcode'|code' Hcl Hcode' Hparty'
       |code' party' Hcl Hcode' Hparty' Hfull
       |code' party' Hcl Hcode' Hparty' Hroom Hname
       |code' party' name k1 Hcl Hcode' Hparty' Hroom Hname Hlog
       |code' party' name k1 line Hcl Hcode' Hparty' Hroom Hname Hlog];
    cbn [sent completion returned threw error].
  - split; [|congruence]. intros to c [Hin|[]]. exfalso.
    inversion Hin as [[Hto E]];
      try (symmetry in E; now apply not_found_text in E).
  - congruence.
  - congruence.
  - assert (code' = code) by congruence. subst code'.
    assert (party' = party) by congruence. subst party'.
    split; [|intros _ Hroom; lia]. intros to c [Hin|[]]. exfalso.
    inversion Hin as [[Hto E]];
      try (symmetry in E; now apply not_found_text in E).
  - split; [intros to c []|]. intros _ _ Hs.
    apply (player_name_none msg (draws w)) in Hname. tauto.
  - split; [intros to c []|]. intros _ _ _ Hok. exfalso.
    destruct (player_name_renders _ _ _ _ Hname Hok) as [s Hs].
    apply (HandlerFacts.log_joined_None name (of_integer (nextId w)) code')
      in Hlog.
    congruence.
  - assert (code' = code) by congruence. subst code'.
    assert (party' = party) by congruence. subst party'.
    split.
    + intros to c [[=]|Hin].
      now apply SendFacts.In_broadcast in Hin as [[=] _].
    + intros _ _ _ _. split; [reflexivity|]. eexists _, _. now left.
Qed.

(** X19. An error reply is all that happens: when the handler sends an
    error, that is its one call of [send], on the sender's socket, the
    world is left as it was, and the text is one of three: "Already in a
    party.", "Party is full (max 8)." or the one that quotes the code,
    upper-cased and trimmed, that names no party. *)
Theorem X19_error_reply_only fuel ws parsed w to text :
  In (to, Error text) (sent (on_message fuel ws parsed w)) ->
  on_message fuel ws parsed w = returned w [(ws, Error text)]
  /\ to = ws
  /\ (text = lit "Already in a party."
      \/ text = lit "Party is full (max 8)."
      \/ exists msg code, parsed = Some msg /\ join_code msg = Some code
           /\ parties w !! code = None /\ text = not_found code).
Proof.
  destruct parsed as [msg|]; [|intros []].
  destruct (HandlerFacts.on_message_case fuel ws msg w)
    as [_|_|_|_|_|_|_ _ _ _ _ _ _].
  - intros [].
  - destruct (HandlerFacts.on_create_case fuel ws msg w);
      cbn [sent returned threw spinning error]; intros Hin;
      repeat destruct Hin as [Hin|Hin]; try contradiction; try discriminate.
    inversion Hin; subst. auto.
  - destruct (HandlerFacts.on_join_case ws msg w)
      as [info Hcl|Hcl Hcode|code Hcl Hcode Hparty|code party Hcl Hcode Hparty Hfull
         |code party Hcl Hcode Hparty Hroom Hname
         |code party name k1 Hcl Hcode Hparty Hroom Hname Hlog
         |code party name k1 line Hcl Hcode Hparty Hroom Hname Hlog];
      cbn [sent returned threw error]; intros Hin.
    + destruct Hin as [[= <- <-]|[]]. auto.
    + destruct Hin.
    + destruct Hin as [[= <- <-]|[]]. split; [reflexivity|].
      split; [reflexivity|]. right. right. exists msg, code. auto.
    + destruct Hin as [[= <- <-]|[]]. auto.
    + destruct Hin.
    + destruct Hin.
    + destruct Hin as [[=]|Hin].
      now apply SendFacts.In_broadcast in Hin as [[=] _].
  - intros Hin. exfalso.
    apply (proj1 (PartySpec.relay_no_error ws msg w)). now exists to, text.
  - intros Hin. exfalso.
    apply (proj1 (proj2 (PartySpec.relay_no_error ws msg w))). now exists to, text.
  - intros Hin. exfalso.
    apply (proj2 (proj2 (PartySpec.relay_no_error ws msg w))). now exists to, text.
  - intros [].
Qed.

(** ** Leaving *)

(** The close of a player whose party exists and whose name the log line
    can render. *)
Lemma on_close_member ws w info party :
  clients w !! ws = Some info ->
  parties w !! Player.partyCode info = Some party ->
  is_Some (Js.ToString (Player.name info)) ->
  on_close ws w
  = returned (closed ws info party w)
      (broadcast
         (Party.mk (Party.code party)
            (JsMap.delete (Player.id info) (Party.members party)))
         (Left (Player.id info)) None).
Proof.
  intros Hcl Hparty Hrend. unfold on_close. rewrite Hcl, Hparty.
  destruct (HandlerFacts.renders_logged _ _
              (HandlerFacts.log_left_None (Player.name info)
                 (Player.partyCode info)) Hrend) as [line ->].
  reflexivity.
Qed.

(** X20. A close takes out the one who leaves and nobody else.  In a
    world of a server in which no handler has thrown, reached with the
    counter below [2^53], when the socket of a player closes, the
    handler returns, the directory loses that socket alone, the other
    parties stay as they are, and the party of the player, of [n]
    members, is left with the [n - 1] others in their order, or is
    deleted when [n] is 1; [left] with the id of the player is sent
    [n - 1] times, once to each of the others and never to the socket
    that closed. *)
Theorem X20_close_removes_the_leaver ws w info :
  alive w -> nextId w < 2 ^ 53 -> clients w !! ws = Some info ->
  let o := on_close ws w in
  exists party rest,
    parties w !! Player.partyCode info = Some party
    /\ completion o = Returned
    /\ rest = JsMap.delete (Player.id info) (Party.members party)
    /\ S (JsMap.size rest) = JsMap.size (Party.members party)
    /\ (forall id m, In (id, m) rest <->
          In (id, m) (Party.members party) /\ m <> info)
    /\ clients (world o) = delete ws (clients w)
    /\ (forall c, c <> Player.partyCode info ->
          parties (world o) !! c = parties w !! c)
    /\ parties (world o) !! Player.partyCode info
       = (if decide (rest = []) then None
          else Some (Party.mk (Party.code party) rest))
    /\ sent o = List.map (fun e => (Player.ws (snd e), Left (Player.id info))) rest
    /\ NoDup (List.map fst (sent o))
    /\ ~ In ws (List.map fst (sent o)).
Proof.
  intros Hr Hlt Hcl o. subst o.
  pose proof (reachable_wf w (alive_reachable _ Hr)) as Hwf.
  destruct (alive_attached w Hr Hlt _ _ Hcl) as (party & Hparty & Hmem).
  exists party, (JsMap.delete (Player.id info) (Party.members party)).
  destruct (wf_parties _ Hwf _ _ Hparty) as [_ _ Hkeys Hm].
  split; [exact Hparty|].
  split; [exact (live_close_returns ws w (alive_live w Hr))|].
  split; [reflexivity|]. split.
  { apply size_delete_present; [assumption|].
    unfold JsMap.keys. apply list_elem_of_In, in_map_iff.
    now exists (Player.id info, info). }
  split.
  { intros id m. rewrite JsMapFacts.In_delete. split.
    - intros [Hin Hid]. split; [assumption|]. intros ->.
      destruct (Hm _ _ Hin) as (E & _). congruence.
    - intros [Hin Hne]. split; [assumption|]. intros ->.
      apply Hne.
      destruct (Hm _ _ Hin) as (Eid & _ & Ecl).
      pose proof (ok_id_inj _ _ _ (wf_dir _ Hwf) Hlt _ _ _ _ Ecl Hcl Eid) as Ews.
      rewrite Ews, Hcl in Ecl. congruence. }
  rewrite (on_close_member ws w info party Hcl Hparty
             (live_names _ (alive_live w Hr) _ _ Hcl)).
  cbn [sent world returned closed parties clients Party.members].
  split; [reflexivity|]. split.
  { intros c Hne. destruct (_ =? 0)%nat.
    - now apply lookup_delete_ne.
    - now apply lookup_insert_ne. }
  split.
  { destruct (decide (JsMap.delete (Player.id info) (Party.members party) = []))
      as [E|Hne].
    - rewrite E. cbn [JsMap.size length Nat.eqb]. apply lookup_delete_eq.
    - destruct (JsMap.delete (Player.id info) (Party.members party)) eqn:E;
        [congruence|].
      cbn [JsMap.size length Nat.eqb]. apply lookup_insert_eq. }
  rewrite SendFacts.broadcast_all. cbn [Party.members].
  split; [reflexivity|]. rewrite map_map. cbn [fst]. split.
  - unfold JsMap.delete.
    exact (PartySpec.members_distinct_sockets w _ party Hwf Hparty
             (fun kv => fst kv <> Player.id info)).
  - rewrite in_map_iff. intros ([id m] & Hws & Hin). cbn [snd] in Hws.
    apply JsMapFacts.In_delete in Hin as [Hin Hid].
    destruct (member_on_socket w ws info _ party id m Hwf Hcl Hparty Hin Hws).
    tauto.
Qed.

(** ** Coming and going *)

Lemma delete_last {K V} `{EqDecision K} (k : K) (v : V) m :
  k ∉ JsMap.keys m -> JsMap.delete k (m ++ [(k, v)]) = m.
Proof.
  unfold JsMap.delete, JsMap.keys. intros Hni.
  rewrite filter_app, filter_cons, filter_nil. cbn [fst].
  destruct (decide (k <> k)); [congruence|]. rewrite app_nil_r.
  induction m as [|[k0 v0] m IH]; [reflexivity|].
  rewrite filter_cons. cbn [fst].
  destruct (decide (k0 <> k)) as [_|He].
  - f_equal. apply IH. intros Hin. apply Hni. now right.
  - exfalso. apply Hni.
    destruct (decide (k0 = k)) as [->|]; [left|tauto].
Qed.


(** X21. Coming and going, in a server in which no handler has thrown:
    when the player a welcome was sent to (it created a party, or joined
    one, the counter being below [2^53]) closes its socket right after,
    the close handler returns, the two maps are again what they were
    before the message, [left] with its id is sent once to each member
    that was in the party before it came, in order (to nobody after a
    [create]), and the id is not given back: the counter has moved by
    one. *)
Theorem X21_welcome_then_leave fuel ws parsed w to id code players color :
  alive w -> nextId w < 2 ^ 53 ->
  In (to, Welcome id code players color) (sent (on_message fuel ws parsed w)) ->
  let o := on_close ws (world (on_message fuel ws parsed w)) in
  completion o = Returned
  /\ parties (world o) = parties w
  /\ clients (world o) = clients w
  /\ sent o
     = List.map (fun e => (Player.ws (snd e), Left id))
         (default [] (Party.members <$> parties w !! code))
  /\ nextId (world o) = nextId w + 1.
Proof.
  intros Ha Hlt Hin o. subst o.
  pose proof (alive_live w Ha) as Hl. pose proof (live_wf _ Hl) as Hwf.
  assert (Hnext : incr (nextId w) = nextId w + 1).
  { unfold incr. destruct (Z.ltb_spec (nextId w) (2 ^ 53)); [reflexivity|lia]. }
  destruct (PartySpec.welcome_inv _ _ _ _ _ _ _ _ _ Hin)
    as (-> & -> & -> & Hcl & name & k & Hrend
        & [(Ew & _ & _ & Hfree)|(party & Ew & _ & _ & Hparty & Hroom)]);
    rewrite Ew.
  - set (id := of_integer (nextId w)).
    set (player := Player.mk id name (player_color (incr (nextId w))) ws code
                     (length (cells w))).
    assert (Hd : JsMap.delete id (JsMap.set id player []) = []).
    { rewrite (set_fresh id player []) by apply not_elem_of_nil.
      apply (delete_last id player []), not_elem_of_nil. }
    rewrite (on_close_member ws (created ws name code k w) player
               (Party.mk code (JsMap.set id player [])));
      [|apply lookup_insert_eq|apply lookup_insert_eq|exact Hrend].
    unfold closed, created. fold id. fold player.
    cbn [world sent completion returned parties clients nextId Party.members
         Party.code Player.id Player.partyCode player].
    rewrite Hd, Hfree. cbn [JsMap.size length Nat.eqb].
    split; [reflexivity|].
    split; [now apply delete_insert_id|].
    split; [now apply delete_insert_id|]. split; [reflexivity|exact Hnext].
  - set (id := of_integer (nextId w)).
    set (player := Player.mk id name (player_color (incr (nextId w))) ws code
                     (length (cells w))).
    pose proof (PartySpec.next_id_fresh w code party Hwf Hlt Hparty) as Hfresh.
    fold id in Hfresh.
    assert (Hd : JsMap.delete id (JsMap.set id player (Party.members party))
                 = Party.members party).
    { rewrite (set_fresh id player _ Hfresh). now apply delete_last. }
    rewrite (on_close_member ws (joined ws name code party k w) player
               (Party.mk (Party.code party)
                  (JsMap.set id player (Party.members party))));
      [|apply lookup_insert_eq|apply lookup_insert_eq|exact Hrend].
    unfold closed, joined. fold id. fold player.
    cbn [world sent completion returned parties clients nextId Party.members
         Party.code Player.id Player.partyCode player].
    rewrite Hd, Hparty. cbn [fmap option_fmap option_map default].
    pose proof (live_size _ Hl _ _ Hparty) as Hsz.
    destruct (Nat.eqb_spec (JsMap.size (Party.members party)) 0) as [|_]; [lia|].
    split; [reflexivity|].
    split.
    { rewrite insert_insert_eq. apply insert_id.
      rewrite Hparty. now destruct party. }
    split; [now apply delete_insert_id|].
    split; [apply SendFacts.broadcast_all|exact Hnext].
Qed.

(** ** The order of the members *)

Lemma ascending_weaken lo lo' ks : lo' <= lo -> ascending lo ks -> ascending lo' ks.
Proof. destruct ks as [|k ks]; simpl; [tauto|]. intros ? [? ?]. split; [lia|assumption]. Qed.

Lemma ascending_snoc lo ks n :
  ascending lo ks -> Forall (fun k => k < n) ks -> lo < n ->
  ascending lo (ks ++ [n]).
Proof.
  revert lo. induction ks as [|k ks IH]; simpl; intros lo Ha Hf Hlo; [tauto|].
  destruct Ha as [Hk Ha]. apply Forall_cons in Hf as [Hkn Hf]. auto.
Qed.

Lemma ascending_filter (P : Z -> Prop) `{forall k, Decision (P k)} lo ks :
  ascending lo ks -> ascending lo (filter P ks).
Proof.
  revert lo. induction ks as [|k ks IH]; simpl; intros lo Ha; [exact I|].
  destruct Ha as [Hk Ha]. rewrite filter_cons. destruct (decide (P k)).
  - simpl. auto.
  - apply (ascending_weaken k); [lia|auto].
Qed.

Lemma filter_map_commute {A B} (f : A -> B) (P : B -> Prop)
    `{forall b, Decision (P b)} (l : list A) :
  filter P (List.map f l) = List.map f (filter (fun a => P (f a)) l).
Proof.
  induction l as [|a l IH]; [reflexivity|]. simpl. rewrite !filter_cons.
  destruct (decide (P (f a))); simpl; now rewrite IH.
Qed.

Lemma in_join_order_weaken (ps : gmap jsstring Party.t) next next' :
  next <= next' ->
  (forall c p, ps !! c = Some p ->
     exists ks, JsMap.keys (Party.members p) = List.map of_integer ks
                /\ ascending 0 ks /\ Forall (fun k => k < next) ks) ->
  forall c p, ps !! c = Some p ->
    exists ks, JsMap.keys (Party.members p) = List.map of_integer ks
               /\ ascending 0 ks /\ Forall (fun k => k < next') ks.
Proof.
  intros Hle Ho c p Hlk. destruct (Ho c p Hlk) as (ks & Ek & Ha & Hf).
  exists ks. repeat split; try assumption.
  eapply Forall_impl; [exact Hf|]. intros k Hk. simpl in Hk. lia.
Qed.

Lemma in_join_order_move w w' :
  wf w -> nextId w' < 2 ^ 53 -> in_join_order w -> move w w' ->
  in_join_order w'.
Proof.
  intros Hwf Hlt Ho Hs.
  assert (Hlt0 : nextId w < 2 ^ 53) by (pose proof (move_next w w' Hs); lia).
  assert (Hleft : forall info party,
            parties w !! Player.partyCode info = Some party ->
            exists ks,
              JsMap.keys (JsMap.delete (Player.id info) (Party.members party))
              = List.map of_integer ks
              /\ ascending 0 ks /\ Forall (fun k => k < nextId w) ks).
  { intros info party Hparty.
    destruct (Ho _ _ Hparty) as (ks & Ek & Ha & Hf).
    rewrite JsMapFacts.keys_delete, Ek.
    eexists. split; [apply filter_map_commute|]. split.
    - now apply ascending_filter.
    - apply Forall_forall. intros k0 Hk0.
      apply list_elem_of_filter in Hk0 as [_ Hk0].
      revert k0 Hk0. now apply Forall_forall. }
  assert (Hnext : incr (nextId w) = nextId w + 1).
  { unfold incr. destruct (Z.ltb_spec (nextId w) (2 ^ 53)); [reflexivity|lia]. }
  pose proof (ok_next _ _ _ (wf_dir _ Hwf)) as Hpos.
  pose proof (in_join_order_weaken (parties w) (nextId w) (nextId w + 1)
                ltac:(lia) Ho) as Ho1.
  unfold in_join_order.
  destruct Hs as [w' Ep Ec Ece En
                 |ws msg name k1 code k Hcl Hname Hfree Hv
                 |ws msg name k code party Hcl Hparty Hroom Hname
                 |ws info party st Hcl Hparty
                 |ws info party Hcl Hparty
                 |ws info party Hcl Hparty
                 |ws info Hcl Hparty].
  - rewrite Ep. destruct En as [->| ->]; [exact Ho|]. now rewrite Hnext.
  - unfold created. cbn [parties nextId]. rewrite Hnext.
    intros c p Hlk. apply lookup_insert_Some in Hlk as [[_ <-]|[_ Hlk]]; eauto.
    exists [nextId w]. cbn [Party.members JsMap.set JsMap.keys List.map fst].
    split; [reflexivity|]. split; [simpl; lia|].
    apply Forall_cons. split; [lia|apply Forall_nil]. exact I.
  - unfold joined. cbn [parties nextId]. rewrite Hnext.
    intros c p Hlk. apply lookup_insert_Some in Hlk as [[_ <-]|[_ Hlk]]; eauto.
    destruct (Ho _ _ Hparty) as (ks & Ek & Ha & Hf).
    exists (ks ++ [nextId w]). cbn [Party.members].
    rewrite set_fresh
      by exact (PartySpec.next_id_fresh w code party Hwf Hlt0 Hparty).
    unfold JsMap.keys in *. rewrite !map_app, Ek. cbn [List.map fst].
    split; [reflexivity|]. split.
    + apply ascending_snoc; [assumption|assumption|lia].
    + apply Forall_app. split.
      * eapply Forall_impl; [exact Hf|]. intros k0 Hk0. simpl in Hk0. lia.
      * apply Forall_cons. split; [lia|apply Forall_nil]. exact I.
  - exact Ho.
  - unfold closed. cbn [parties nextId].
    intros c p Hlk.
    assert (Hcases : parties w !! c = Some p
                     \/ p = Party.mk (Party.code party)
                             (JsMap.delete (Player.id info) (Party.members party))).
    { destruct (_ =? 0)%nat.
      - apply lookup_delete_Some in Hlk as [_ Hlk]. now left.
      - apply lookup_insert_Some in Hlk as [[_ <-]|[_ Hlk]]; auto. }
    destruct Hcases as [Hold| ->]; [eauto|].
    exact (Hleft info party Hparty).
  - unfold half_closed. cbn [parties nextId].
    intros c p Hlk. apply lookup_insert_Some in Hlk as [[_ <-]|[_ Hlk]];
      [exact (Hleft info party Hparty)|eauto].
  - exact Ho.
Qed.

Lemma reachable_in_join_order w :
  reachable w -> nextId w < 2 ^ 53 -> in_join_order w.
Proof.
  revert w.
  apply (reachable_by_moves (fun w => nextId w < 2 ^ 53 -> in_join_order w)).
  - intros _ c p Hlk. cbn [init parties] in Hlk. now rewrite lookup_empty in Hlk.
  - intros w w' Hr IH Hs Hlt.
    apply (in_join_order_move w w' (reachable_wf _ Hr) Hlt); [|assumption].
    apply IH. pose proof (move_next w w' Hs). lia.
Qed.

(** X22. The member map of a party keeps the order of arrival, which is
    the order of the ids: in every world reached with the counter below
    [2^53], the keys of the member map of a party, in the order in which
    [forEach] visits them (the order of [players] in a welcome, and of
    the calls of [send] in a broadcast), render numbers that go strictly
    up, from 1 at least and below the counter. *)
Theorem X22_members_in_join_order w c p :
  reachable w -> nextId w < 2 ^ 53 -> parties w !! c = Some p ->
  exists ks,
    JsMap.keys (Party.members p) = List.map of_integer ks
    /\ List.map i_id (existing (cells w) p) = List.map of_integer ks
    /\ ascending 0 ks
    /\ Forall (fun k => k < nextId w) ks.
Proof.
  intros Hr Hlt Hlk.
  destruct (reachable_in_join_order w Hr Hlt c p Hlk) as (ks & Ek & Ha & Hf).
  exists ks. repeat split; try assumption.
  rewrite <- Ek. unfold existing, JsMap.keys. rewrite map_map.
  apply map_ext_in. intros [id0 m0] Hin. cbn [i_id fst].
  exact (proj1 (ok_member _ _ _ (wf_parties _ (reachable_wf _ Hr) _ _ Hlk) _ _ Hin)).
Qed.

End Props.
End Coverage.

(** * Runs of the server on the example host *)

Module Scenario.
Import Server Spec PartySpec Example.
Local Open Scope string_scope.
Local Open Scope list_scope.
Local Open Scope Z_scope.

Lemma play_reachable msgs w :
  @reachable host w -> @reachable host (play msgs w).
Proof.
  revert w. induction msgs as [|[ws m] msgs IH]; intros w Hr; [exact Hr|].
  apply IH. now apply reach_message.
Qed.

Lemma reachable_play msgs : @reachable host (play msgs init).
Proof. apply play_reachable, reach_init. Qed.

(** A run every message of which is handled to the end is a run of a
    server in which no handler has thrown. *)
Lemma play_alive msgs w :
  @alive host w -> @returns host msgs w = true -> @alive host (play msgs w).
Proof.
  revert w. induction msgs as [|[ws m] msgs IH]; intros w Ha Hret; [exact Ha|].
  cbn [returns] in Hret.
  destruct (completion (@on_message host 0 ws (Some m) w)) eqn:E;
    try discriminate.
  apply IH; [|exact Hret]. now apply alive_message.
Qed.

Lemma alive_play msgs :
  @returns host msgs init = true -> @alive host (play msgs init).
Proof. apply play_alive, alive_init. Qed.

Lemma alive_solo : @alive host solo.
Proof. apply alive_play. vm_compute. reflexivity. Qed.

Lemma alive_pair : @alive host pair.
Proof. apply alive_play. vm_compute. reflexivity. Qed.

Lemma alive_full : @alive host full.
Proof. apply alive_play. vm_compute. reflexivity. Qed.

(** C1, at the failing input: the creator of a party, alone in it, sends
    a chat and [send] is called on its socket twice; with a second member
    the sender is called twice and the other member once. *)
Theorem C1_chat_echo_twice :
  sent (@on_message host 0 0%nat (Some chat_msg) solo)
  = [(0%nat, Chat (lit "1") (str "Al") (lit "hi"));
     (0%nat, Chat (lit "1") (str "Al") (lit "hi"))]
  /\ sent (@on_message host 0 0%nat (Some chat_msg) pair)
     = [(0%nat, Chat (lit "1") (str "Al") (lit "hi"));
        (1%nat, Chat (lit "1") (str "Al") (lit "hi"));
        (0%nat, Chat (lit "1") (str "Al") (lit "hi"))]
  /\ wire (fun _ => 1) (sent (@on_message host 0 0%nat (Some chat_msg) solo))
     = [(0%nat, Chat (lit "1") (str "Al") (lit "hi"));
        (0%nat, Chat (lit "1") (str "Al") (lit "hi"))].
Proof. vm_compute. repeat split. Qed.

(** C6, at the failing input: a member of a party sends
    [{"type":"state","x":{"toString":1}}].  Unary plus cannot turn [x]
    into a primitive and throws: the handler stops there, no state is
    stored for the player and none is broadcast, where the claim has [x]
    come out as 0. *)
Theorem C6_state_field_throws :
  clients pair !! 0%nat = Some alice
  /\ parties pair !! Player.partyCode alice = Some pair_party
  /\ has_type bad_state_msg "state" = true
  /\ Js.get bad_state_msg "x" = toString_obj
  /\ @Js.ToNumber host toString_obj = None
  /\ @state_of host bad_state_msg = None
  /\ completion (@on_message host 0 0%nat (Some bad_state_msg) pair) = Threw
  /\ sent (@on_message host 0 0%nat (Some bad_state_msg) pair) = []
  /\ read (cells (world (@on_message host 0 0%nat (Some bad_state_msg) pair)))
       alice = None.
Proof. vm_compute. repeat split. Qed.

(** C7, at the failing input: the same [state] message, sent by the
    player on socket 0 of a party of two.  The player on socket 1 is a
    member other than the sender and [send] is called on no socket. *)
Theorem C7_state_relay_dropped :
  clients pair !! 0%nat = Some alice
  /\ parties pair !! Player.partyCode alice = Some pair_party
  /\ In (lit "2", bob) (Party.members pair_party)
  /\ Player.ws bob = 1%nat
  /\ has_type bad_state_msg "state" = true
  /\ completion (@on_message host 0 0%nat (Some bad_state_msg) pair) = Threw
  /\ ~ In 1%nat
         (List.map fst (sent (@on_message host 0 0%nat (Some bad_state_msg) pair))).
Proof.
  repeat (split; [vm_compute; first [reflexivity|tauto]|]).
  vm_compute. tauto.
Qed.

(** C10, at the failing input: a member of a party sends
    [{"type":"chat","text":{"toString":1}}].  The text is truthy and not
    a string, [String] cannot turn it into a primitive and throws: the
    chat is dropped, [send] is called on no socket. *)
Theorem C10_chat_text_throws :
  clients pair !! 1%nat = Some bob
  /\ parties pair !! Player.partyCode bob = Some pair_party
  /\ has_type bad_chat_msg "chat" = true
  /\ Js.get bad_chat_msg "text" = toString_obj
  /\ Js.ToBoolean toString_obj = true
  /\ @Js.ToString host toString_obj = None
  /\ @chat_text host bad_chat_msg = None
  /\ completion (@on_message host 0 1%nat (Some bad_chat_msg) pair) = Threw
  /\ sent (@on_message host 0 1%nat (Some bad_chat_msg) pair) = [].
Proof. vm_compute. repeat split. Qed.

Lemma C3_witness :
  @alive host full
  /\ parties full !! code = Some full_party
  /\ (1 <= JsMap.size (Party.members full_party) <= 8)%nat.
Proof.
  split; [exact alive_full|]. split; [vm_compute; reflexivity|].
  apply (@C3_party_size host full code full_party);
    [exact alive_full|vm_compute; reflexivity].
Defined.

Lemma C9_witness :
  @alive host pair
  /\ sent (@on_close host 1%nat pair) = [(0%nat, Left (lit "2"))]
  /\ completion (@on_close host 1%nat pair) = Returned
  /\ @on_close host 1%nat (world (@on_close host 1%nat pair))
     = {| completion := Returned; world := world (@on_close host 1%nat pair);
          sent := [] |}
  /\ @close_times host 3 1%nat pair
     = (sent (@on_close host 1%nat pair), world (@on_close host 1%nat pair)).
Proof.
  split; [exact alive_pair|]. split; [vm_compute; reflexivity|].
  destruct (@C9_close_idempotent host 1%nat pair alive_pair)
    as (Hret & Hagain & Htimes & _).
  split; [exact Hret|]. split; [exact Hagain|exact (Htimes 2%nat)].
Defined.

(** The second [create] on [retry_host] draws "AAAA", which is taken,
    and then "9999". *)
Lemma C4_witness :
  @reachable retry_host opened
  /\ has_type create_msg "create" = true
  /\ is_Some (parties opened !! lit "AAAA")
  /\ clients opened !! 1%nat = None
  /\ @player_name retry_host create_msg (draws opened) = Some (str "Al", 4%nat)
  /\ @candidate retry_host 4 0 = lit "AAAA"
  /\ @candidate retry_host 4 1 = lit "9999"
  /\ parties opened !! lit "9999" = None
  /\ In (1%nat, Welcome (lit "2") (lit "9999") [] (JStr (lit "#44ff88")))
       (sent (@on_message retry_host 1 1%nat (Some create_msg) opened))
  /\ completion (@on_message retry_host 1 1%nat (Some create_msg) opened)
     = Returned
  /\ (forall c p,
        parties (world (@on_message retry_host 1 1%nat (Some create_msg) opened))
          !! c = Some p ->
        Party.code p = lit "9999" -> c = lit "9999")
  /\ parties (world (@on_message retry_host 1 1%nat (Some create_msg) opened))
       !! lit "AAAA" = parties opened !! lit "AAAA".
Proof.
  assert (Hr : @reachable retry_host opened)
    by (apply (@reach_message retry_host), (@reach_init retry_host)).
  assert (Hcl : clients opened !! 1%nat = None) by (vm_compute; reflexivity).
  assert (Hname : @player_name retry_host create_msg (draws opened)
                  = Some (str "Al", 4%nat)) by (vm_compute; reflexivity).
  assert (Hfree : parties opened !! @candidate retry_host 4 1 = None)
    by (vm_compute; reflexivity).
  assert (Hin : In (1%nat, Welcome (lit "2") (lit "9999") []
                             (JStr (lit "#44ff88")))
                  (sent (@on_message retry_host 1 1%nat (Some create_msg) opened)))
    by (vm_compute; now left).
  split; [exact Hr|]. split; [reflexivity|].
  split; [vm_compute; eauto|]. split; [exact Hcl|]. split; [exact Hname|].
  split; [vm_compute; reflexivity|]. split; [vm_compute; reflexivity|].
  split; [exact Hfree|]. split; [exact Hin|].
  destruct (@C4_create_code_unique retry_host 1 1%nat create_msg opened
              Hr eq_refl) as [Hsafe Hlive].
  destruct (Hsafe _ _ _ _ _ Hin) as (_ & _ & _ & _ & Huniq & Hothers).
  destruct (Hlive (str "Al") 4%nat 1%nat Hcl Hname Hfree (le_n 1)) as [Hdone _].
  split; [exact (proj1 (Hdone (ex_intro _ (lit "Al") eq_refl)))|].
  split; [exact Huniq|]. apply Hothers. discriminate.
Defined.

(** C2, as the claim states it, fails on the first player ever made: its
    id is "1" and its colour is [COLORS[1]], "#44aaff", where the claim
    gives it [COLORS[(1 - 1) mod 8]], "#ff4444". *)
Lemma C2_counterexample :
  sent (@on_message host 0 0%nat (Some create_msg) init)
  = [(0%nat, Welcome (of_integer 1) code [] (JStr (lit "#44aaff")))]
  /\ Js.at_index COLORS (Z.to_nat ((1 - 1) mod 8)) = JStr (lit "#ff4444")
  /\ ~ (forall to id c players color n,
          In (to, Welcome id c players color)
            (sent (@on_message host 0 0%nat (Some create_msg) init)) ->
          id = of_integer n -> 1 <= n ->
          color = Js.at_index COLORS (Z.to_nat ((n - 1) mod 8))).
Proof.
  split; [vm_compute; reflexivity|]. split; [vm_compute; reflexivity|].
  intros Hclaim.
  specialize (Hclaim 0%nat (of_integer 1) code [] (JStr (lit "#44aaff")) 1).
  assert (Hin : In (0%nat, Welcome (of_integer 1) code [] (JStr (lit "#44aaff")))
                  (sent (@on_message host 0 0%nat (Some create_msg) init)))
    by (vm_compute; now left).
  specialize (Hclaim Hin eq_refl ltac:(lia)).
  vm_compute in Hclaim. discriminate Hclaim.
Qed.

Lemma C2_witness :
  In (0%nat, Welcome (lit "1") code [] (JStr (lit "#44aaff")))
    (sent (@on_message host 0 0%nat (Some create_msg) init))
  /\ lit "1" = of_integer 1
  /\ JStr (lit "#44aaff") = Js.at_index COLORS (Z.to_nat (1 mod 8)).
Proof.
  assert (Hin : In (0%nat, Welcome (lit "1") code [] (JStr (lit "#44aaff")))
                  (sent (@on_message host 0 0%nat (Some create_msg) init)))
    by (vm_compute; now left).
  split; [exact Hin|].
  destruct (@C2_color_by_id host 0 0%nat (Some create_msg) init
              0%nat (lit "1") code [] (JStr (lit "#44aaff")) Hin)
    as (_ & _ & _ & _ & Hn).
  destruct (Hn 1 eq_refl ltac:(lia)) as (Hid & Hcolor & _).
  split; [exact Hid|exact Hcolor].
Defined.

(** C5, as the claim states it, fails: a join addressed to a party of 8
    by a socket that is already in a party is refused with "Already in a
    party.", not with the full-party error. *)
Lemma C5_counterexample :
  parties full !! code = Some full_party
  /\ JsMap.size (Party.members full_party) = 8%nat
  /\ @join_code host (join_msg JUndef) = Some code
  /\ is_Some (clients full !! 0%nat)
  /\ @on_message host 0 0%nat (Some (join_msg JUndef)) full
     = returned full [(0%nat, Error (lit "Already in a party."))]
  /\ ~ In (0%nat, Error (lit "Party is full (max 8)."))
         (sent (@on_message host 0 0%nat (Some (join_msg JUndef)) full)).
Proof.
  repeat (split; [vm_compute; first [reflexivity|eauto]|]).
  vm_compute. intros [[=]|[]].
Qed.

Lemma C5_witness :
  @reachable host seven
  /\ has_type (join_msg (str "Bo")) "join" = true
  /\ @join_code host (join_msg (str "Bo")) = Some code
  /\ parties seven !! code = Some seven_party
  /\ clients seven !! 7%nat = None
  /\ JsMap.size (Party.members seven_party) = 7%nat
  /\ nextId seven < 2 ^ 53
  /\ sliceable (Js.get (join_msg (str "Bo")) "name")
  /\ @player_name host (join_msg (str "Bo")) (draws seven)
     = Some (str "Bo", draws seven)
  /\ @Js.ToString host (str "Bo") = Some (lit "Bo")
  /\ exists party',
       parties (world (@on_message host 0 7%nat (Some (join_msg (str "Bo"))) seven))
         !! code = Some party'
       /\ JsMap.size (Party.members party') = 8%nat.
Proof.
  assert (Hcode : @join_code host (join_msg (str "Bo")) = Some code)
    by (vm_compute; reflexivity).
  assert (Hp : parties seven !! code = Some seven_party)
    by (vm_compute; reflexivity).
  assert (Hcl : clients seven !! 7%nat = None) by (vm_compute; reflexivity).
  assert (Hsize : JsMap.size (Party.members seven_party) = 7%nat) by reflexivity.
  assert (Hlt : nextId seven < 2 ^ 53) by (vm_compute; reflexivity).
  assert (Hname : sliceable (Js.get (join_msg (str "Bo")) "name"))
    by (right; left; eexists; reflexivity).
  assert (Hpn : @player_name host (join_msg (str "Bo")) (draws seven)
                = Some (str "Bo", draws seven)) by (vm_compute; reflexivity).
  repeat (split; [first [apply reachable_play|reflexivity|assumption]|]).
  destruct (@C5_join_capacity host 0 7%nat (join_msg (str "Bo")) seven code
              seven_party (reachable_play _) eq_refl Hcode Hp)
    as (_ & _ & Hjoin).
  destruct (Hjoin Hcl Hsize Hlt Hname) as (name & k1 & Hpn' & _ & Hdone).
  assert (Hn : name = str "Bo") by congruence.
  destruct (Hdone (ex_intro _ (lit "Bo") (f_equal (@Js.ToString host) Hn)))
    as (_ & _ & _ & party' & Hp' & Hsize' & _).
  exists party'. split; assumption.
Defined.

Lemma X27_witness :
  @reachable host full
  /\ parties full !! code = Some full_party
  /\ JsMap.size (Party.members full_party) = 8%nat
  /\ (JsMap.size (Party.members full_party) <= 8)%nat.
Proof.
  assert (Hp : parties full !! code = Some full_party) by (vm_compute; reflexivity).
  split; [apply reachable_play|]. split; [exact Hp|]. split; [reflexivity|].
  exact (@X27_never_nine host full code full_party (reachable_play _) Hp).
Defined.

Lemma X2_witness :
  clients solo !! 0%nat = Some alice
  /\ parties solo !! Player.partyCode alice
     = Some (Party.mk code [(lit "1", alice)])
  /\ JsMap.keys [(lit "1", alice)] = [Player.id alice]
  /\ @Js.ToString host (Player.name alice) = Some (lit "Al")
  /\ completion (@on_close host 0%nat solo) = Returned
  /\ parties (world (@on_close host 0%nat solo)) !! code = None.
Proof.
  assert (Hcl : clients solo !! 0%nat = Some alice) by (vm_compute; reflexivity).
  assert (Hp : parties solo !! Player.partyCode alice
               = Some (Party.mk code [(lit "1", alice)]))
    by (vm_compute; reflexivity).
  split; [exact Hcl|]. split; [exact Hp|]. split; [reflexivity|].
  split; [reflexivity|].
  destruct (@X2_last_member_leaves host 0%nat solo alice _ Hcl Hp eq_refl)
    as (_ & _ & Hdone & _).
  destruct (Hdone (ex_intro _ (lit "Al") eq_refl)) as (Hret & Hgone & _).
  split; [exact Hret|exact Hgone].
Defined.

Lemma X3_witness :
  @reachable host pair
  /\ parties pair !! code = Some pair_party
  /\ In (lit "2", bob) (Party.members pair_party)
  /\ clients pair !! Player.ws bob = Some bob.
Proof.
  assert (Hp : parties pair !! code = Some pair_party) by (vm_compute; reflexivity).
  assert (Hin : In (lit "2", bob) (Party.members pair_party))
    by (right; now left).
  split; [apply reachable_play|]. split; [exact Hp|]. split; [exact Hin|].
  exact (proj1 (proj2 (proj2 (@X3_members_in_directory host pair code pair_party
                                 (lit "2") bob (reachable_play _) Hp Hin)))).
Defined.

(** [state_msg] has ["abc"] for [x], 2 for [y] and -1 for [chap]: the
    state built has 0, 2 and -1 there. *)
Lemma X23_witness :
  @reachable host pair
  /\ clients pair !! 0%nat = Some alice
  /\ parties pair !! Player.partyCode alice = Some pair_party
  /\ has_type state_msg "state" = true
  /\ ~ Status.uncoercible state_msg
  /\ @state_of host state_msg = Some built_state
  /\ @on_message host 0 0%nat (Some state_msg) pair
     = returned (stated alice built_state pair)
         [(1%nat, StateMsg (lit "1") built_state)]
  /\ read (cells (world (@on_message host 0 0%nat (Some state_msg) pair))) alice
     = Some built_state
  /\ State.x built_state = zero
  /\ State.y built_state = of_Z 2
  /\ State.chap built_state = of_Z (-1).
Proof.
  assert (Hcl : clients pair !! 0%nat = Some alice) by (vm_compute; reflexivity).
  assert (Hp : parties pair !! Player.partyCode alice = Some pair_party)
    by (vm_compute; reflexivity).
  assert (Hst : @state_of host state_msg = Some built_state)
    by (vm_compute; reflexivity).
  assert (Hok : ~ Status.uncoercible state_msg).
  { intros Hu. apply (@state_of_None host) in Hu. congruence. }
  split; [apply reachable_play|]. split; [exact Hcl|]. split; [exact Hp|].
  split; [reflexivity|]. split; [exact Hok|]. split; [exact Hst|].
  destruct (@X23_state_coercion host 0 0%nat state_msg pair alice pair_party
              (reachable_play _) Hcl Hp eq_refl) as [_ Hdone].
  destruct (Hdone Hok)
    as (st & Est & Ho & _ & Hread & _ & Hx & Hy & _ & _ & _ & Hchap & _).
  assert (E : st = built_state) by congruence. subst st.
  split; [exact Ho|]. split; [exact Hread|].
  destruct Hx as (_ & _ & _ & _ & _ & _ & Habc & _).
  destruct Hy as (_ & _ & _ & _ & Hnum & _).
  destruct Hchap as (_ & _ & _ & _ & _ & _ & _ & _ & Hminus).
  split; [apply Habc; reflexivity|].
  split; [apply (Hnum (of_Z 2)); reflexivity|].
  apply Hminus. reflexivity.
Defined.

Lemma X24_witness :
  @reachable host pair
  /\ nextId pair < 2 ^ 53
  /\ clients pair !! 0%nat = Some alice
  /\ parties pair !! Player.partyCode alice = Some pair_party
  /\ has_type event_msg "event" = true
  /\ ~ In 0%nat (List.map fst (sent (@on_message host 0 0%nat (Some event_msg) pair)))
  /\ In 1%nat (List.map fst (sent (@on_message host 0 0%nat (Some event_msg) pair)))
  /\ sent (@on_message host 0 0%nat (Some event_msg) pair)
     = broadcast pair_party (Event (lit "1") (str "grab") (JObj []))
         (Some (lit "1")).
Proof.
  assert (Hcl : clients pair !! 0%nat = Some alice) by (vm_compute; reflexivity).
  assert (Hp : parties pair !! Player.partyCode alice = Some pair_party)
    by (vm_compute; reflexivity).
  assert (Hlt : nextId pair < 2 ^ 53) by (vm_compute; reflexivity).
  split; [apply reachable_play|]. split; [exact Hlt|]. split; [exact Hcl|].
  split; [exact Hp|]. split; [reflexivity|].
  destruct (@X24_relay_excludes_sender host 0 0%nat event_msg pair alice pair_party
              (reachable_play _) Hlt Hcl Hp (or_intror eq_refl))
    as (_ & Hset & _ & Hnot & _ & Hev & _).
  split; [exact Hnot|]. split.
  - apply Hset. split; [discriminate|].
    exists (lit "2"), bob. split; [right; now left|reflexivity].
  - exact (proj2 (Hev eq_refl)).
Defined.

Lemma X25_witness :
  clients pair !! 1%nat = Some bob
  /\ parties pair !! Player.partyCode bob = Some pair_party
  /\ has_type (obj [("type", str "chat"); ("text", JNum (of_Z 0))]) "chat" = true
  /\ ~ unrenderable (Js.get (obj [("type", str "chat"); ("text", JNum (of_Z 0))])
                       "text")
  /\ @on_message host 0 1%nat
       (Some (obj [("type", str "chat"); ("text", JNum (of_Z 0))])) pair
     = returned pair
         [(0%nat, Chat (lit "2") (str "Bo") []);
          (1%nat, Chat (lit "2") (str "Bo") []);
          (1%nat, Chat (lit "2") (str "Bo") [])].
Proof.
  assert (Hcl : clients pair !! 1%nat = Some bob) by (vm_compute; reflexivity).
  assert (Hp : parties pair !! Player.partyCode bob = Some pair_party)
    by (vm_compute; reflexivity).
  assert (Hok : ~ unrenderable
                    (Js.get (obj [("type", str "chat"); ("text", JNum (of_Z 0))])
                       "text")).
  { intros Hu. inversion Hu. }
  split; [exact Hcl|]. split; [exact Hp|]. split; [reflexivity|].
  split; [exact Hok|].
  destruct (@X25_chat_text host 0 1%nat
              (obj [("type", str "chat"); ("text", JNum (of_Z 0))])
              pair bob pair_party Hcl Hp eq_refl) as [_ Hdone].
  destruct (Hdone Hok) as (text & _ & Ho & _ & Hempty & _).
  rewrite (Hempty eq_refl) in Ho. exact Ho.
Defined.

(** X1. The session of two clients, end to end.  A creates a party and is
    welcomed with id "1" and no players; B joins with the code and is
    welcomed with id "2" and A as the one player, while A is told that "2"
    joined; A sends a state with x = 5 and B alone receives it, completed
    with chap 1 and anim "idle"; B disconnects and A is told that "2"
    left, the party staying with one member; A disconnects and the party
    is deleted. *)
Theorem X1_end_to_end :
  let five := obj [("type", str "state"); ("x", JNum (of_Z 5)); ("y", JNum zero);
                   ("z", JNum zero); ("yaw", JNum zero); ("pitch", JNum zero)] in
  let o1 := @on_message host 0 0%nat (Some create_msg) init in
  let o2 := @on_message host 0 1%nat (Some (join_msg (str "Bo"))) (world o1) in
  let o3 := @on_message host 0 0%nat (Some five) (world o2) in
  let o4 := @on_close host 1%nat (world o3) in
  let o5 := @on_close host 0%nat (world o4) in
  sent o1 = [(0%nat, Welcome (lit "1") code [] (JStr (lit "#44aaff")))]
  /\ sent o2
     = [(1%nat, Welcome (lit "2") code
                 [mkInfo (lit "1") (str "Al") (JStr (lit "#44aaff")) None]
                 (JStr (lit "#44ff88")));
        (0%nat, Joined (lit "2") (str "Bo") (JStr (lit "#44ff88")))]
  /\ sent o3
     = [(1%nat, StateMsg (lit "1")
                 (State.mk (of_Z 5) zero zero zero zero one (str "idle")))]
  /\ sent o4 = [(0%nat, Left (lit "2"))]
  /\ parties (world o4) !! code = Some (Party.mk code [(lit "1", alice)])
  /\ clients (world o4) !! 1%nat = None
  /\ sent o5 = []
  /\ parties (world o5) !! code = None
  /\ clients (world o5) !! 0%nat = None.
Proof. vm_compute. repeat split. Qed.

(** X4. The loop of [create] that draws a code until it is free need not
    end: on a host whose [Math.random] always returns 0 every code drawn
    is "AAAA", and once a party has that code a second [create] is still
    in the loop whatever fuel it is given. *)
Theorem X4_create_may_spin fuel :
  completion
    (@on_message stuck_host fuel 1%nat (Some create_msg)
       (world (@on_message stuck_host 0 0%nat (Some create_msg) init)))
  = Spinning.
Proof.
  assert (Hloop : forall fuel k ps, is_Some (ps !! lit "AAAA") ->
            @fresh_code stuck_host fuel ps (lit "AAAA") k = None).
  { clear fuel. induction fuel as [|fuel IH]; intros k ps [p Hp].
    - simpl. now rewrite Hp.
    - cbn [fresh_code]. rewrite Hp.
      change (@genCode stuck_host k) with (lit "AAAA", S (S (S (S k)))).
      apply IH. eauto. }
  rewrite (proj1 (@dispatch stuck_host fuel 1%nat create_msg _) eq_refl).
  unfold on_create.
  change (clients (world (@on_message stuck_host 0 0%nat (Some create_msg) init))
            !! 1%nat) with (@None Player.t).
  change (@player_name stuck_host create_msg
            (draws (world (@on_message stuck_host 0 0%nat (Some create_msg) init))))
    with (Some (JStr (lit "Al"), 4%nat)).
  cbv iota beta.
  change (@genCode stuck_host 4) with (lit "AAAA", 8%nat).
  cbv iota beta.
  rewrite Hloop; [reflexivity|].
  eexists. vm_compute. reflexivity.
Qed.

(** X26. Why the properties of a running server are stated for a server
    in which no handler has thrown.  A [create] whose name is
    [[{"toString":1}]] passes [slice], is given a player and a party in
    the two maps, and throws at its log line before the welcome.  Were
    the process to go on (Node ends it: nothing catches the exception),
    the close of that socket would take the player out of the party,
    throw at its own log line for the same name, and leave a party of no
    member in [parties] and the socket in [clients], whatever the number
    of closes. *)
Theorem X26_log_line_throws_midway :
  @on_message host 0 0%nat (Some bad_create_msg) init = threw haunted
  /\ clients haunted !! 0%nat = Some ghost
  /\ parties haunted !! code = Some (Party.mk code [(lit "1", ghost)])
  /\ @reachable host haunted
  /\ completion (@on_close host 0%nat haunted) = Threw
  /\ sent (@on_close host 0%nat haunted) = []
  /\ parties (world (@on_close host 0%nat haunted)) !! code = Some (Party.mk code [])
  /\ clients (world (@on_close host 0%nat haunted)) !! 0%nat = Some ghost
  /\ @on_close host 0%nat (world (@on_close host 0%nat haunted))
     = threw_after (world (@on_close host 0%nat haunted)) [].
Proof.
  split; [vm_compute; reflexivity|]. split; [vm_compute; reflexivity|].
  split; [vm_compute; reflexivity|]. split; [apply reachable_play|].
  vm_compute. repeat split.
Qed.

End Scenario.

(** * The further properties on the example host *)

Module Tour.
Import Server Spec Status Coverage Example.
Local Open Scope string_scope.
Local Open Scope list_scope.
Local Open Scope Z_scope.

(** The upper-casing of the example host leaves the codes alone. *)
Lemma ascii_upper_code s :
  (forall c, In c s -> In c chars) -> @toUpperCase host s = s.
Proof.
  change (@toUpperCase host) with ascii_upper.
  induction s as [|c s IH]; intros Hc; [reflexivity|].
  change (ascii_upper (c :: s))
    with ((if ((97 <=? c) && (c <=? 122))%N then (c - 32)%N else c)
            :: ascii_upper s).
  rewrite IH by (intros; apply Hc; now right).
  assert (Hin := Hc c (or_introl eq_refl)). vm_compute in Hin.
  repeat (destruct Hin as [<-|Hin]; [reflexivity|]). destruct Hin.
Qed.

Lemma X7_witness :
  @reachable host pair
  /\ parties pair !! code = Some pair_party
  /\ length code = 4%nat /\ Party.code pair_party = code.
Proof.
  assert (Hp : parties pair !! code = Some pair_party) by (vm_compute; reflexivity).
  split; [apply Scenario.reachable_play|]. split; [exact Hp|].
  destruct (proj1 (@X7_codes_well_formed host pair (Scenario.reachable_play _))
              code pair_party Hp) as (Hl & _ & Hc).
  split; assumption.
Defined.

Lemma X8_witness :
  @reachable host pair
  /\ clients pair !! 1%nat = Some bob
  /\ name_ok (Player.name bob) /\ in_palette (Player.color bob).
Proof.
  assert (Hcl : clients pair !! 1%nat = Some bob) by (vm_compute; reflexivity).
  split; [apply Scenario.reachable_play|]. split; [exact Hcl|].
  destruct (proj1 (proj2 (@X8_player_fields host pair (Scenario.reachable_play _)))
              1%nat bob Hcl) as (_ & Hn & Hc & _).
  split; assumption.
Defined.

Lemma X9_witness :
  @reachable host pair
  /\ clients pair !! 0%nat = Some alice
  /\ parties pair !! Player.partyCode alice = Some pair_party
  /\ has_type state_msg "state" = true
  /\ clients pair !! 1%nat = Some bob
  /\ read (cells (world (@on_message host 0 0%nat (Some state_msg) pair))) bob
     = read (cells pair) bob
  /\ read (cells (world (@on_message host 0 0%nat (Some state_msg) pair))) alice
     = Some built_state.
Proof.
  assert (Hcl : clients pair !! 0%nat = Some alice) by (vm_compute; reflexivity).
  assert (Hcl1 : clients pair !! 1%nat = Some bob) by (vm_compute; reflexivity).
  assert (Hp : parties pair !! Player.partyCode alice = Some pair_party)
    by (vm_compute; reflexivity).
  split; [apply Scenario.reachable_play|]. split; [exact Hcl|].
  split; [exact Hp|]. split; [reflexivity|]. split; [exact Hcl1|].
  destruct (@X9_state_touches_one_player host 0 0%nat state_msg pair alice
              pair_party (Scenario.reachable_play _) Hcl Hp eq_refl)
    as (_ & _ & _ & _ & _ & _ & Hsome).
  destruct (Hsome built_state eq_refl) as [Hread _].
  split; [exact (Hread 1%nat bob Hcl1)|exact (Hread 0%nat alice Hcl)].
Defined.

Lemma X10_witness :
  @reachable host pair
  /\ clients pair !! 0%nat = Some alice
  /\ parties pair !! Player.partyCode alice = Some pair_party
  /\ has_type state_msg "state" = true
  /\ @state_of host state_msg = Some built_state
  /\ In (2%nat,
         Welcome (lit "3") code
           [mkInfo (lit "1") (str "Al") (JStr (lit "#44aaff"))
              (Some built_state);
            mkInfo (lit "2") (str "Bo") (JStr (lit "#44ff88")) None]
           (JStr (lit "#ffcc00")))
       (sent (@on_message host 0 2%nat (Some (join_msg (str "Cy")))
                (world (@on_message host 0 0%nat (Some state_msg) pair))))
  /\ [mkInfo (lit "1") (str "Al") (JStr (lit "#44aaff"))
        (Some built_state);
      mkInfo (lit "2") (str "Bo") (JStr (lit "#44ff88")) None]
     = List.map
         (fun e => mkInfo (Player.id (snd e)) (Player.name (snd e))
                     (Player.color (snd e))
                     (if decide (Player.ws (snd e) = 0%nat)
                      then Some built_state
                      else read (cells pair) (snd e)))
         (Party.members pair_party).
Proof.
  assert (Hcl : clients pair !! 0%nat = Some alice) by (vm_compute; reflexivity).
  assert (Hp : parties pair !! Player.partyCode alice = Some pair_party)
    by (vm_compute; reflexivity).
  assert (Hin : In (2%nat,
                    Welcome (lit "3") code
                      [mkInfo (lit "1") (str "Al") (JStr (lit "#44aaff"))
                         (Some built_state);
                       mkInfo (lit "2") (str "Bo") (JStr (lit "#44ff88")) None]
                      (JStr (lit "#ffcc00")))
                  (sent (@on_message host 0 2%nat (Some (join_msg (str "Cy")))
                           (world (@on_message host 0 0%nat (Some state_msg) pair)))))
    by (vm_compute; now left).
  split; [apply Scenario.reachable_play|]. split; [exact Hcl|].
  split; [exact Hp|]. split; [reflexivity|]. split; [reflexivity|].
  split; [exact Hin|].
  exact (proj1 (proj2 (@X10_welcome_reports_last_state host 0 0%nat state_msg
                         pair alice pair_party built_state 0 2%nat
                         (Some (join_msg (str "Cy"))) 2%nat (lit "3")
                         _ _ (Scenario.reachable_play _) Hcl Hp eq_refl eq_refl
                         Hin))).
Defined.

Lemma X11_witness :
  @alive host pair
  /\ nextId pair < 2 ^ 53
  /\ clients pair !! 1%nat = Some bob
  /\ exists party, parties pair !! Player.partyCode bob = Some party
                   /\ In (Player.id bob, bob) (Party.members party).
Proof.
  assert (Hcl : clients pair !! 1%nat = Some bob) by (vm_compute; reflexivity).
  assert (Hlt : nextId pair < 2 ^ 53) by (vm_compute; reflexivity).
  split; [exact Scenario.alive_pair|]. split; [exact Hlt|].
  split; [exact Hcl|].
  exact (proj1 (@X11_player_in_its_party host pair 1%nat bob
                  Scenario.alive_pair Hlt Hcl)).
Defined.

Lemma X12_witness :
  @alive host pair
  /\ nextId pair < 2 ^ 53
  /\ h_parties (health pair) = 1%nat
  /\ h_players (health pair) = 2%nat
  /\ h_players (health pair) = headcount (parties pair).
Proof.
  assert (Hlt : nextId pair < 2 ^ 53) by (vm_compute; reflexivity).
  split; [exact Scenario.alive_pair|]. split; [exact Hlt|].
  split; [vm_compute; reflexivity|]. split; [vm_compute; reflexivity|].
  exact (proj1 (proj2 (@X12_health_figures host pair
                         Scenario.alive_pair Hlt))).
Defined.

Lemma X15_witness :
  @reachable host pair
  /\ In (1%nat, Event (lit "1") (str "grab") (JObj []))
       (sent (@on_message host 0 0%nat (Some event_msg) pair))
  /\ (1%nat = 0%nat
      \/ exists p q,
           clients (world (@on_message host 0 0%nat (Some event_msg) pair)) !! 0%nat
           = Some p
           /\ clients (world (@on_message host 0 0%nat (Some event_msg) pair)) !! 1%nat
              = Some q
           /\ Player.partyCode q = Player.partyCode p).
Proof.
  assert (Hin : In (1%nat, Event (lit "1") (str "grab") (JObj []))
                  (sent (@on_message host 0 0%nat (Some event_msg) pair)))
    by (vm_compute; now left).
  split; [apply Scenario.reachable_play|]. split; [exact Hin|].
  exact (proj1 (@X15_no_message_leaves_the_party host 0 0%nat (Some event_msg) pair
                  (Scenario.reachable_play _)) _ _ Hin).
Defined.

Lemma X17_witness :
  @reachable host seven
  /\ nextId seven < 2 ^ 53
  /\ has_type (join_msg (str "Bo")) "join" = true
  /\ clients seven !! 7%nat = None
  /\ @join_code host (join_msg (str "Bo")) = Some code
  /\ parties seven !! code = Some seven_party
  /\ (JsMap.size (Party.members seven_party) < 8)%nat
  /\ @player_name host (join_msg (str "Bo")) (draws seven)
     = Some (str "Bo", draws seven)
  /\ @Js.ToString host (str "Bo") = Some (lit "Bo")
  /\ sent (@on_message host 0 7%nat (Some (join_msg (str "Bo"))) seven)
     = (7%nat, Welcome (of_integer (nextId seven)) code
                 (existing (cells seven) seven_party)
                 (player_color (incr (nextId seven))))
         :: List.map
              (fun e => (Player.ws (snd e),
                         Joined (of_integer (nextId seven)) (str "Bo")
                           (player_color (incr (nextId seven)))))
              (Party.members seven_party)
  /\ nextId (world (@on_message host 0 7%nat (Some (join_msg (str "Bo"))) seven))
     = nextId seven + 1.
Proof.
  assert (Hlt : nextId seven < 2 ^ 53) by (vm_compute; reflexivity).
  assert (Hcl : clients seven !! 7%nat = None) by (vm_compute; reflexivity).
  assert (Hcode : @join_code host (join_msg (str "Bo")) = Some code)
    by (vm_compute; reflexivity).
  assert (Hp : parties seven !! code = Some seven_party)
    by (vm_compute; reflexivity).
  assert (Hroom : (JsMap.size (Party.members seven_party) < 8)%nat)
    by (vm_compute; lia).
  assert (Hname : @player_name host (join_msg (str "Bo")) (draws seven)
                  = Some (str "Bo", draws seven))
    by (vm_compute; reflexivity).
  split; [apply Scenario.reachable_play|].
  split; [exact Hlt|]. split; [reflexivity|]. split; [exact Hcl|].
  split; [exact Hcode|]. split; [exact Hp|]. split; [exact Hroom|].
  split; [exact Hname|]. split; [reflexivity|].
  destruct (@X17_join_announced host 0 7%nat (join_msg (str "Bo")) seven code
              seven_party (str "Bo") (draws seven)
              (Scenario.reachable_play _) Hlt eq_refl Hcl Hcode Hp Hroom Hname
              (ex_intro _ (lit "Bo") eq_refl))
    as (_ & Hsent & _ & _ & _ & _ & Hnext).
  split; [exact Hsent|exact Hnext].
Defined.

Lemma X18_witness :
  (forall s, (forall c, In c s -> In c chars) -> @toUpperCase host s = s)
  /\ @reachable host solo
  /\ parties solo !! code = Some (Party.mk code [(lit "1", alice)])
  /\ has_type (obj [("type", str "join"); ("code", JStr code)]) "join" = true
  /\ Js.get (obj [("type", str "join"); ("code", JStr code)]) "code" = JStr code
  /\ @join_code host (obj [("type", str "join"); ("code", JStr code)]) = Some code.
Proof.
  assert (Hp : parties solo !! code = Some (Party.mk code [(lit "1", alice)]))
    by (vm_compute; reflexivity).
  split; [exact ascii_upper_code|]. split; [apply Scenario.reachable_play|].
  split; [exact Hp|]. split; [reflexivity|]. split; [reflexivity|].
  exact (proj1 (@X18_join_by_issued_code host 0 1%nat
                  (obj [("type", str "join"); ("code", JStr code)]) solo code _
                  ascii_upper_code (Scenario.reachable_play _) Hp eq_refl eq_refl)).
Defined.

Lemma X19_witness :
  In (0%nat, Error (lit "Already in a party."))
    (sent (@on_message host 0 0%nat (Some (join_msg JUndef)) full))
  /\ @on_message host 0 0%nat (Some (join_msg JUndef)) full
     = returned full [(0%nat, Error (lit "Already in a party."))].
Proof.
  assert (Hin : In (0%nat, Error (lit "Already in a party."))
                  (sent (@on_message host 0 0%nat (Some (join_msg JUndef)) full)))
    by (vm_compute; now left).
  split; [exact Hin|].
  exact (proj1 (@X19_error_reply_only host 0 0%nat (Some (join_msg JUndef)) full
                  _ _ Hin)).
Defined.

Lemma X20_witness :
  @alive host pair
  /\ nextId pair < 2 ^ 53
  /\ clients pair !! 1%nat = Some bob
  /\ exists party (rest : list (jsstring * Player.t)),
       parties pair !! Player.partyCode bob = Some party
       /\ S (JsMap.size rest) = JsMap.size (Party.members party)
       /\ sent (@on_close host 1%nat pair)
          = List.map (fun e => (Player.ws (snd e), Left (Player.id bob))) rest.
Proof.
  assert (Hcl : clients pair !! 1%nat = Some bob) by (vm_compute; reflexivity).
  assert (Hlt : nextId pair < 2 ^ 53) by (vm_compute; reflexivity).
  split; [exact Scenario.alive_pair|]. split; [exact Hlt|].
  split; [exact Hcl|].
  destruct (@X20_close_removes_the_leaver host 1%nat pair bob
              Scenario.alive_pair Hlt Hcl)
    as (party & rest & Hp & _ & _ & Hsz & _ & _ & _ & _ & Hsent & _).
  exists party, rest. repeat split; assumption.
Defined.

Lemma X21_witness :
  @alive host solo
  /\ nextId solo < 2 ^ 53
  /\ In (1%nat,
         Welcome (lit "2") code
           [mkInfo (lit "1") (str "Al") (JStr (lit "#44aaff")) None]
           (JStr (lit "#44ff88")))
       (sent (@on_message host 0 1%nat (Some (join_msg (str "Bo"))) solo))
  /\ parties (world (@on_close host 1%nat
                       (world (@on_message host 0 1%nat
                                 (Some (join_msg (str "Bo"))) solo))))
     = parties solo
  /\ clients (world (@on_close host 1%nat
                       (world (@on_message host 0 1%nat
                                 (Some (join_msg (str "Bo"))) solo))))
     = clients solo.
Proof.
  assert (Hlt : nextId solo < 2 ^ 53) by (vm_compute; reflexivity).
  assert (Hin : In (1%nat,
                    Welcome (lit "2") code
                      [mkInfo (lit "1") (str "Al") (JStr (lit "#44aaff")) None]
                      (JStr (lit "#44ff88")))
                  (sent (@on_message host 0 1%nat (Some (join_msg (str "Bo"))) solo)))
    by (vm_compute; now left).
  split; [exact Scenario.alive_solo|]. split; [exact Hlt|].
  split; [exact Hin|].
  destruct (@X21_welcome_then_leave host 0 1%nat (Some (join_msg (str "Bo"))) solo
              _ _ _ _ _ Scenario.alive_solo Hlt Hin)
    as (_ & Hp & Hc & _).
  split; [exact Hp|exact Hc].
Defined.

Lemma X22_witness :
  @reachable host pair
  /\ nextId pair < 2 ^ 53
  /\ parties pair !! code = Some pair_party
  /\ exists ks,
       JsMap.keys (Party.members pair_party) = List.map of_integer ks
       /\ ascending 0 ks.
Proof.
  assert (Hlt : nextId pair < 2 ^ 53) by (vm_compute; reflexivity).
  assert (Hp : parties pair !! code = Some pair_party) by (vm_compute; reflexivity).
  split; [apply Scenario.reachable_play|]. split; [exact Hlt|].
  split; [exact Hp|].
  destruct (@X22_members_in_join_order host pair code pair_party
              (Scenario.reachable_play _) Hlt Hp) as (ks & Ek & _ & Ha & _).
  exists ks. split; assumption.
Defined.

End Tour.
